(** * NonOverlappingRecurringTask: a shallow embedding and its properties

    The development follows [non-overlapping-recurring-task.js]:

    - JavaScript values as far as the option validator inspects them;
    - the constructor with [_validateOptions] and [isNaturalNumber];
    - the instance fields together with the part of the JavaScript runtime
      the class relies on: the promise store with its reaction lists, the
      microtask queue and the armed interval timers;
    - [start], [stop], [waitUntilCurrentExecutionCompletes] and
      [_executeTaskAndUpdateState], each cut at its [await]s;
    - the task as far as the instance can tell what it does: the calls it
      makes on the instance before it returns, and whether it returns a
      promise or throws;
    - a step function over the events that can reach an instance, the
      reachable states, and the invariants the class maintains. *)

From Stdlib Require Import QArith Qround.
From stdpp Require Import base list option strings.

Local Open Scope string_scope.
Local Open Scope nat_scope.

(** ** JavaScript values *)

(** A [number] is an IEEE-754 double: NaN, an infinity, or a finite value.
    Every finite double is a rational, and [Math.floor], [>=] and [===] are
    exact on doubles, so the finite case carries the rational it denotes
    (both zeros are the rational 0, which [>=] and [===] do not tell apart). *)
Inductive JSNumber :=
| JSNaN
| JSInfinity (negative : bool)
| JSFinite (q : Q).

Inductive JSValue :=
| JSUndefined
| JSNull
| JSBoolean (b : bool)
| JSNum (n : JSNumber)
| JSString (s : string)
| JSObject
| JSFunction.

Definition typeof (v : JSValue) : string :=
  match v with
  | JSUndefined => "undefined"
  | JSNull => "object"
  | JSBoolean _ => "boolean"
  | JSNum _ => "number"
  | JSString _ => "string"
  | JSObject => "object"
  | JSFunction => "function"
  end.

(** [Math.floor]. *)
Definition Math_floor (n : JSNumber) : JSNumber :=
  match n with
  | JSNaN => JSNaN
  | JSInfinity s => JSInfinity s
  | JSFinite q => JSFinite (inject_Z (Qfloor q))
  end.

(** [a >= b] on numbers: false as soon as one side is NaN. *)
Definition num_ge (a b : JSNumber) : bool :=
  match a, b with
  | JSNaN, _ | _, JSNaN => false
  | JSInfinity false, _ => true
  | _, JSInfinity true => true
  | JSInfinity true, _ => false
  | _, JSInfinity false => false
  | JSFinite x, JSFinite y => Qle_bool y x
  end.

(** [a === b] on numbers: NaN differs from everything, itself included. *)
Definition num_strict_eq (a b : JSNumber) : bool :=
  match a, b with
  | JSInfinity s, JSInfinity t => Bool.eqb s t
  | JSFinite x, JSFinite y => Qeq_bool x y
  | _, _ => false
  end.

(** The condition of an [if]: ToBoolean. *)
Definition truthy (v : JSValue) : bool :=
  match v with
  | JSUndefined | JSNull => false
  | JSBoolean b => b
  | JSNum JSNaN => false
  | JSNum (JSInfinity _) => true
  | JSNum (JSFinite q) => negb (Qeq_bool q 0)
  | JSString s => negb (String.eqb s "")
  | JSObject | JSFunction => true
  end.

(** ** Option validation *)

Definition isNaturalNumber (num : JSValue) : bool :=
  match num with
  | JSNum n =>
      let floored := Math_floor n in
      num_ge floored (JSFinite 1) && num_strict_eq floored n
  | _ => false
  end.

Record Options := {
  intervalMs : JSValue;
  immediateFirstRun : JSValue
}.

(** The two [throw new Error(...)] of [_validateOptions], with the value the
    message reports. *)
Inductive ValidationError :=
| IntervalMsNotNatural (received : JSValue)
| ImmediateFirstRunNotBoolean (received : JSValue).

Definition _validateOptions (o : Options) : option ValidationError :=
  if negb (isNaturalNumber (intervalMs o)) then
    Some (IntervalMsNotNatural (intervalMs o))
  else if negb (String.eqb (typeof (immediateFirstRun o)) "boolean") then
    Some (ImmediateFirstRunNotBoolean (immediateFirstRun o))
  else None.

(** What a call of the error handler does: it returns, or it throws. *)
Inductive HandlerResult :=
| Returns
| Throws (e : JSValue).

Definition ErrorHandler := JSValue → HandlerResult.

Inductive ActivityStatus := active | inactive | terminating.

Global Instance ActivityStatus_eq_dec : EqDecision ActivityStatus.
Proof. solve_decision. Defined.

(** The read-only fields of an instance that the model reads as data.  The
    task is an opaque callable whose behaviour may change from one call to
    the next: it is kept with the state (see [_asyncTask] in [World]). *)
Record Config := {
  _options : Options;
  _onTaskError : option ErrorHandler
}.

(** The two conditions in the words of the documentation: [intervalMs] is
    a positive integer, [immediateFirstRun] is a boolean. *)
Definition isPositiveInteger (v : JSValue) : Prop :=
  ∃ p : positive, ∃ q : Q, v = JSNum (JSFinite q) ∧ Qeq q (inject_Z (Zpos p)).

Definition isBoolean (v : JSValue) : Prop := ∃ b, v = JSBoolean b.

Local Close Scope string_scope.

(** ** Promises, suspended calls and the microtask queue *)

Inductive PromiseState :=
| Pending
| Fulfilled (value : JSValue)
| Rejected (reason : JSValue).

(** How an awaited operation ends, as seen by the code after the [await]. *)
Inductive Completion :=
| Normal (value : JSValue)
| Throw (reason : JSValue).

(** An [async] call suspended at an [await], with the promise the call
    returned to its caller:
    - [StartLoop]: [start], inside its [while] loop;
    - [StopTerminating]: [stop], in the branch for status 'terminating';
    - [StopActive]: [stop], after it toggled 'active' to 'terminating'. *)
Inductive Frame :=
| StartLoop (result : nat)
| StopTerminating (result : nat)
| StopActive (result : nat).

Global Instance Frame_eq_dec : EqDecision Frame.
Proof. solve_decision. Defined.

Definition resultOf (f : Frame) : nat :=
  match f with
  | StartLoop r | StopTerminating r | StopActive r => r
  end.

Definition isStopActive (f : Frame) : bool :=
  match f with
  | StopActive _ => true
  | _ => false
  end.

(** A promise: its state and the calls awaiting it, in registration order. *)
Record Promise := {
  pstate : PromiseState;
  reactions : list Frame
}.

(** A job of the microtask queue: the call to resume and what its [await]
    evaluates to. *)
Definition Job : Type := Frame * Completion.

(** ** The task *)

(** What one call [this._asyncTask()] does, as far as the instance is
    concerned.  The call runs synchronously until the task returns or
    throws, and until then it may call the methods of the instance:
    - [TaskReturns]: it returns (a promise, or any other value: the
      attempt suspends at its [await] either way);
    - [TaskThrows err]: it throws [err];
    - [TaskCallsStart nested rest]: it calls [start()] and goes on as
      [rest]; should that [start()] invoke the task, the inner call of
      the task behaves as [nested];
    - [TaskCallsStop flag rest]: it calls [stop(flag)] and goes on;
    - [TaskCallsWait rest]: it calls
      [waitUntilCurrentExecutionCompletes()] and goes on.
    The getters change nothing and are left out.  What the task does
    after its first [await] reaches the instance as events of its own. *)
Inductive Task :=
| TaskReturns
| TaskThrows (err : JSValue)
| TaskCallsStart (nested : Task) (rest : Task)
| TaskCallsStop (shouldExecuteFinalRun : bool) (rest : Task)
| TaskCallsWait (rest : Task).

(** ** The state *)

(** The mutable fields of the instance ([_status], [_timerHandle],
    [_currentExecutionPromise]), the runtime state they refer to, what the
    next call of the task is going to do ([_asyncTask]), and two
    observations: how often the task was invoked and which errors reached
    the error handler.  A promise is named by its index in [promises];
    [running] lists the attempts suspended at [await this._asyncTask()]. *)
Record World := {
  _status : ActivityStatus;
  _timerHandle : option nat;
  _currentExecutionPromise : option nat;
  _asyncTask : Task;
  promises : list Promise;
  queue : list Job;
  timers : list nat;
  nextTimer : nat;
  running : list nat;
  invocations : nat;
  handled : list JSValue
}.

Definition set_status (s : ActivityStatus) (w : World) : World :=
  {| _status := s; _timerHandle := _timerHandle w;
     _currentExecutionPromise := _currentExecutionPromise w;
     _asyncTask := _asyncTask w;
     promises := promises w; queue := queue w; timers := timers w;
     nextTimer := nextTimer w; running := running w;
     invocations := invocations w; handled := handled w |}.

Definition set_timerHandle (h : option nat) (w : World) : World :=
  {| _status := _status w; _timerHandle := h;
     _currentExecutionPromise := _currentExecutionPromise w;
     _asyncTask := _asyncTask w;
     promises := promises w; queue := queue w; timers := timers w;
     nextTimer := nextTimer w; running := running w;
     invocations := invocations w; handled := handled w |}.

Definition set_currentExecutionPromise (p : option nat) (w : World) : World :=
  {| _status := _status w; _timerHandle := _timerHandle w;
     _currentExecutionPromise := p;
     _asyncTask := _asyncTask w;
     promises := promises w; queue := queue w; timers := timers w;
     nextTimer := nextTimer w; running := running w;
     invocations := invocations w; handled := handled w |}.

Definition set_asyncTask (t : Task) (w : World) : World :=
  {| _status := _status w; _timerHandle := _timerHandle w;
     _currentExecutionPromise := _currentExecutionPromise w;
     _asyncTask := t;
     promises := promises w; queue := queue w; timers := timers w;
     nextTimer := nextTimer w; running := running w;
     invocations := invocations w; handled := handled w |}.

Definition set_promises (ps : list Promise) (w : World) : World :=
  {| _status := _status w; _timerHandle := _timerHandle w;
     _currentExecutionPromise := _currentExecutionPromise w;
     _asyncTask := _asyncTask w;
     promises := ps; queue := queue w; timers := timers w;
     nextTimer := nextTimer w; running := running w;
     invocations := invocations w; handled := handled w |}.

Definition set_queue (q : list Job) (w : World) : World :=
  {| _status := _status w; _timerHandle := _timerHandle w;
     _currentExecutionPromise := _currentExecutionPromise w;
     _asyncTask := _asyncTask w;
     promises := promises w; queue := q; timers := timers w;
     nextTimer := nextTimer w; running := running w;
     invocations := invocations w; handled := handled w |}.

Definition set_timers (ts : list nat) (next : nat) (w : World) : World :=
  {| _status := _status w; _timerHandle := _timerHandle w;
     _currentExecutionPromise := _currentExecutionPromise w;
     _asyncTask := _asyncTask w;
     promises := promises w; queue := queue w; timers := ts;
     nextTimer := next; running := running w;
     invocations := invocations w; handled := handled w |}.

Definition set_running (r : list nat) (w : World) : World :=
  {| _status := _status w; _timerHandle := _timerHandle w;
     _currentExecutionPromise := _currentExecutionPromise w;
     _asyncTask := _asyncTask w;
     promises := promises w; queue := queue w; timers := timers w;
     nextTimer := nextTimer w; running := r;
     invocations := invocations w; handled := handled w |}.

Definition set_invocations (n : nat) (w : World) : World :=
  {| _status := _status w; _timerHandle := _timerHandle w;
     _currentExecutionPromise := _currentExecutionPromise w;
     _asyncTask := _asyncTask w;
     promises := promises w; queue := queue w; timers := timers w;
     nextTimer := nextTimer w; running := running w;
     invocations := n; handled := handled w |}.

Definition set_handled (l : list JSValue) (w : World) : World :=
  {| _status := _status w; _timerHandle := _timerHandle w;
     _currentExecutionPromise := _currentExecutionPromise w;
     _asyncTask := _asyncTask w;
     promises := promises w; queue := queue w; timers := timers w;
     nextTimer := nextTimer w; running := running w;
     invocations := invocations w; handled := l |}.

(** The state the constructor leaves behind.  The task starts out as one
    that only returns a promise; [TaskBecomes] (see [Event]) can give it
    any other behaviour before it is ever called. *)
Definition initial : World :=
  {| _status := inactive; _timerHandle := None;
     _currentExecutionPromise := None; _asyncTask := TaskReturns;
     promises := []; queue := []; timers := []; nextTimer := 0;
     running := []; invocations := 0; handled := [] |}.

(** [new NonOverlappingRecurringTask(task, options, onTaskError)]: the fields
    are assigned, then the options are validated; a validation error
    leaves no instance. *)
Definition construct (o : Options) (h : option ErrorHandler)
  : ValidationError + (Config * World) :=
  match _validateOptions o with
  | Some e => inl e
  | None => inr ({| _options := o; _onTaskError := h |}, initial)
  end.

(** The getters. *)
Definition status (w : World) : ActivityStatus := _status w.

Definition isCurrentlyExecuting (w : World) : bool :=
  match _currentExecutionPromise w with
  | Some _ => true
  | None => false
  end.

(** ** Runtime primitives *)

(** The state of promise [p]; an index outside the store names no promise. *)
Definition stateOf (w : World) (p : nat) : option PromiseState :=
  pstate <$> promises w !! p.

(** A new promise object, already in state [s]. *)
Definition newPromise (s : PromiseState) (w : World) : nat * World :=
  (length (promises w),
   set_promises (promises w ++ [{| pstate := s; reactions := [] |}]) w).

Definition settledState (c : Completion) : PromiseState :=
  match c with
  | Normal v => Fulfilled v
  | Throw e => Rejected e
  end.

(** Resolving or rejecting promise [p]: a pending promise takes its final
    state and every registered reaction becomes a job, in registration
    order; a promise that is already settled stays as it is. *)
Definition settle (p : nat) (c : Completion) (w : World) : World :=
  match promises w !! p with
  | Some {| pstate := Pending; reactions := rs |} =>
      set_queue (queue w ++ ((λ f, (f, c)) <$> rs))
        (set_promises
           (<[p := {| pstate := settledState c; reactions := [] |}]> (promises w)) w)
  | _ => w
  end.

(** [await p] in the call [f]: the call is registered with a pending
    promise, and queued at once behind a settled one. *)
Definition await (p : nat) (f : Frame) (w : World) : World :=
  match promises w !! p with
  | Some {| pstate := Pending; reactions := rs |} =>
      set_promises (<[p := {| pstate := Pending; reactions := rs ++ [f] |}]> (promises w)) w
  | Some {| pstate := Fulfilled v |} => set_queue (queue w ++ [(f, Normal v)]) w
  | Some {| pstate := Rejected e |} => set_queue (queue w ++ [(f, Throw e)]) w
  | None => w
  end.

Definition setInterval (w : World) : nat * World :=
  (nextTimer w, set_timers (timers w ++ [nextTimer w]) (S (nextTimer w)) w).

(** [clearInterval(undefined)] does nothing. *)
Definition clearInterval (h : option nat) (w : World) : World :=
  match h with
  | Some t => set_timers (filter (λ t', t' ≠ t) (timers w)) (nextTimer w) w
  | None => w
  end.

(** ** The methods *)

(** [this._currentExecutionPromise ?? Promise.resolve()]. *)
Definition waitUntilCurrentExecutionCompletes (w : World) : nat * World :=
  match _currentExecutionPromise w with
  | Some p => (p, w)
  | None => newPromise (Fulfilled JSUndefined) w
  end.

(** [_executeTaskAndUpdateState()] once the task has failed with [c], or
    has completed: the [catch] block with the error handler, then the
    execution handle is cleared and the promise [p] of the attempt is
    fulfilled; a handler that throws ends the call there and rejects
    [p].  The error handler is taken to return or throw without calling
    the instance.  For an attempt suspended at its [await] this is the
    continuation; when the task throws synchronously it runs inside the
    call itself (see [_executeTaskAndUpdateState_with]). *)
Definition _executeTaskAndUpdateState_resume
    (cfg : Config) (p : nat) (c : Completion) (w : World) : World :=
  let w := set_running (filter (λ p', p' ≠ p) (running w)) w in
  let finish w :=
    settle p (Normal JSUndefined) (set_currentExecutionPromise None w) in
  match c with
  | Normal _ => finish w
  | Throw err =>
      match _onTaskError cfg with
      | None => finish w
      | Some h =>
          let w := set_handled (handled w ++ [err]) w in
          match h err with
          | Returns => finish w
          | Throws e => settle p (Throw e) w
          end
      end
  end.

(** [_executeTaskAndUpdateState()], given what the call of the task does
    ([task] runs it and tells whether it threw).  The promise [p] of the
    attempt exists from the start; the task runs inside the [try]; if it
    returns, the attempt suspends at the [await] and is [running]; if it
    throws, the [catch] block and the clearing of the handle run before
    the call returns, so the caller receives a promise that is already
    settled. *)
Definition _executeTaskAndUpdateState_with
    (cfg : Config) (task : World → option JSValue * World) (w : World)
  : nat * World :=
  let (p, w) := newPromise Pending (set_invocations (S (invocations w)) w) in
  match task w with
  | (None, w) => (p, set_running (running w ++ [p]) w)
  | (Some err, w) => (p, _executeTaskAndUpdateState_resume cfg p (Throw err) w)
  end.

(** [start()] from the head of its [while] loop, for the call that
    returned promise [r], given [_executeTaskAndUpdateState] as [execute].
    The handle and the timer are assigned after the attempt was begun,
    that is, after the synchronous part of the task has run. *)
Definition start_from_with (cfg : Config) (execute : World → nat * World)
    (r : nat) (w : World) : World :=
  match _status w with
  | terminating =>
      let (q, w) := waitUntilCurrentExecutionCompletes w in
      await q (StartLoop r) w
  | active => settle r (Normal (JSBoolean false)) w
  | inactive =>
      let w := set_status active w in
      let w :=
        if truthy (immediateFirstRun (_options cfg)) then
          let (p, w) := execute w in
          set_currentExecutionPromise (Some p) w
        else w in
      let (t, w) := setInterval w in
      let w := set_timerHandle (Some t) w in
      settle r (Normal (JSBoolean true)) w
  end.

Definition start_with (cfg : Config) (execute : World → nat * World)
    (w : World) : nat * World :=
  let (r, w) := newPromise Pending w in
  (r, start_from_with cfg execute r w).

(** The body of [stop()], for the call that returned promise [r]. *)
Definition stop_from (r : nat) (w : World) : World :=
  match _status w with
  | inactive => settle r (Normal (JSBoolean false)) w
  | terminating =>
      let (q, w) := waitUntilCurrentExecutionCompletes w in
      await q (StopTerminating r) w
  | active =>
      let w := set_status terminating w in
      let w := clearInterval (_timerHandle w) w in
      let w := set_timerHandle None w in
      let (q, w) := waitUntilCurrentExecutionCompletes w in
      await q (StopActive r) w
  end.

(** [stop()].  The method declares no parameter: whatever a caller passes
    is dropped before the body runs (see [step] and [runTask]). *)
Definition stop (w : World) : nat * World :=
  let (r, w) := newPromise Pending w in
  (r, stop_from r w).

(** The call [this._asyncTask()] for a task that behaves as [t]: the calls
    it makes on the instance are run one after the other, up to its first
    [await] each; the result is what the task threw, if it threw.  The
    promises those calls return go to the task and are not awaited
    here. *)
Fixpoint runTask (cfg : Config) (t : Task) (w : World)
  : option JSValue * World :=
  match t with
  | TaskReturns => (None, w)
  | TaskThrows err => (Some err, w)
  | TaskCallsStart nested rest =>
      runTask cfg rest
        (snd (start_with cfg
                (_executeTaskAndUpdateState_with cfg (runTask cfg nested)) w))
  | TaskCallsStop _ rest => runTask cfg rest (snd (stop w))
  | TaskCallsWait rest =>
      runTask cfg rest (snd (waitUntilCurrentExecutionCompletes w))
  end.

(** [_executeTaskAndUpdateState()]: the task does what [_asyncTask] says. *)
Definition _executeTaskAndUpdateState (cfg : Config) (w : World)
  : nat * World :=
  _executeTaskAndUpdateState_with cfg (runTask cfg (_asyncTask w)) w.

(** The callback given to [setInterval]. *)
Definition intervalCallback (cfg : Config) (w : World) : World :=
  match _currentExecutionPromise w with
  | None =>
      let (p, w) := _executeTaskAndUpdateState cfg w in
      set_currentExecutionPromise (Some p) w
  | Some _ => w
  end.

Definition start_from (cfg : Config) (r : nat) (w : World) : World :=
  start_from_with cfg (_executeTaskAndUpdateState cfg) r w.

(** [start()]. *)
Definition start (cfg : Config) (w : World) : nat * World :=
  start_with cfg (_executeTaskAndUpdateState cfg) w.

(** A suspended call continues after its [await]; an [await] that throws
    ends the call and rejects its promise. *)
Definition resume (cfg : Config) (j : Job) (w : World) : World :=
  match j with
  | (StartLoop r, Normal _) => start_from cfg r w
  | (StopTerminating r, Normal _) => settle r (Normal (JSBoolean false)) w
  | (StopActive r, Normal _) =>
      settle r (Normal (JSBoolean true)) (set_status inactive w)
  | (f, Throw e) => settle (resultOf f) (Throw e) w
  end.

(** ** Events and reachable states *)

(** What can happen to an instance: a caller invokes a method, an armed
    timer fires, the microtask queue runs its first job, the promise
    returned by the task of a suspended attempt hands its outcome to that
    attempt, or the task changes what its next call is going to do (it is
    a closure with state of its own).  Calls that the task makes while it
    runs synchronously are part of the event that invokes the task.  Time
    is not modelled: events arrive in any order. *)
Inductive Event :=
| CallStart
| CallStop (shouldExecuteFinalRun : bool)
| CallWait
| Tick (timer : nat)
| TaskSettles (attempt : nat) (outcome : Completion)
| Microtask
| TaskBecomes (task : Task).

Definition step (cfg : Config) (w : World) (e : Event) : option World :=
  match e with
  | CallStart => Some (snd (start cfg w))
  | CallStop _ => Some (snd (stop w))
  | CallWait => Some (snd (waitUntilCurrentExecutionCompletes w))
  | Tick t =>
      if decide (t ∈ timers w) then Some (intervalCallback cfg w) else None
  | TaskSettles p c =>
      if decide (p ∈ running w)
      then Some (_executeTaskAndUpdateState_resume cfg p c w) else None
  | Microtask =>
      match queue w with
      | j :: rest => Some (resume cfg j (set_queue rest w))
      | [] => None
      end
  | TaskBecomes t => Some (set_asyncTask t w)
  end.

Fixpoint run (cfg : Config) (w : World) (es : list Event) : option World :=
  match es with
  | [] => Some w
  | e :: es =>
      match step cfg w e with
      | Some w' => run cfg w' es
      | None => None
      end
  end.

Inductive Reachable (cfg : Config) : World → Prop :=
| Reachable_initial : Reachable cfg initial
| Reachable_step w e w' :
    Reachable cfg w → step cfg w e = Some w' → Reachable cfg w'.

(** ** Notions used by the invariants *)

(** The calls registered with promise [p]. *)
Definition reactionsOf (w : World) (p : nat) : list Frame :=
  match promises w !! p with
  | Some c => reactions c
  | None => []
  end.

(** The calls registered with some promise. *)
Definition registered (w : World) : list Frame :=
  mjoin (reactions <$> promises w).

(** The suspended calls: those with a job in the microtask queue, then
    those registered with a promise. *)
Definition frames (w : World) : list Frame :=
  (fst <$> queue w) ++ registered w.

(** The promises that still have someone to settle them: the results of the
    suspended calls and the promises of the running attempts. *)
Definition owned (w : World) : list nat :=
  (resultOf <$> frames w) ++ running w.

Definition pending (w : World) (p : nat) : Prop :=
  stateOf w p = Some Pending.

Definition settled (w : World) (p : nat) : Prop :=
  ∃ s, stateOf w p = Some s ∧ s ≠ Pending.

Fixpoint stopActives (fs : list Frame) : nat :=
  match fs with
  | [] => 0
  | f :: fs => (if isStopActive f then 1 else 0) + stopActives fs
  end.

(** How the promise of an attempt settles when the task ends as [c]: an
    attempt rejects only with what the error handler threw. *)
Definition attemptOutcome (cfg : Config) (c : Completion) : Completion :=
  match c with
  | Normal _ => Normal JSUndefined
  | Throw err =>
      match _onTaskError cfg with
      | None => Normal JSUndefined
      | Some h =>
          match h err with
          | Returns => Normal JSUndefined
          | Throws e => Throw e
          end
      end
  end.

(** What the error handler is given when the task ends as [c]. *)
Definition reported (cfg : Config) (c : Completion) : list JSValue :=
  match c, _onTaskError cfg with
  | Throw err, Some _ => [err]
  | _, _ => []
  end.

(** The fields that operations on promises leave alone. *)
Definition ctrl (w : World) :=
  (_status w, _timerHandle w, _currentExecutionPromise w, _asyncTask w,
   timers w, nextTimer w, running w, invocations w, handled w).

(** The promises of the calls that are executing right now: a call that
    has not reached its first [await] or its [return] holds a pending
    promise that no suspended call and no running attempt answers for. *)
Definition Live (L : list nat) (w : World) : Prop :=
  NoDup L ∧ ∀ i, i ∈ L → pending w i ∧ i ∉ owned w.

(** The value [e] is something the error handler throws. *)
Definition thrownByHandler (cfg : Config) (e : JSValue) : Prop :=
  ∃ h err, _onTaskError cfg = Some h ∧ h err = Throws e.

(** Whatever a promise is rejected with, and whatever an [await] is about
    to throw, was thrown by the error handler. *)
Definition rejectionsFromHandler (cfg : Config) (w : World) : Prop :=
  (∀ q e, stateOf w q = Some (Rejected e) → thrownByHandler cfg e) ∧
  (∀ f e, (f, Throw e) ∈ queue w → thrownByHandler cfg e).

(** What every state satisfies in which no call of the instance is
    executing, and every state in between as well. *)
Record Inv (cfg : Config) (w : World) : Prop := {
  inv_pending : ∀ i, i ∈ owned w → pending w i;
  inv_nodup : NoDup (owned w);
  inv_reactions : ∀ q, reactionsOf w q ≠ [] → q ∈ running w;
  inv_handle :
    ∀ p, _currentExecutionPromise w = Some p → p ∈ running w ∨ settled w p;
  inv_stop :
    stopActives (frames w) ≤ (if decide (_status w = terminating) then 1 else 0);
  inv_terminating :
    _status w = terminating →
    1 ≤ stopActives (frames w) ∨ ∃ q e, stateOf w q = Some (Rejected e);
  inv_rejections : rejectionsFromHandler cfg w
}.

(** What a call of a method, or of the task, leaves as it was: no promise
    is lost; apart from those of [R], a promise keeps its state, and a
    settled one always does; jobs, registrations, running attempts and
    reported errors are only added; and the status does not become
    'inactive'. *)
Record Foot (cfg : Config) (R : list nat) (w w' : World) : Prop := {
  foot_length : length (promises w) ≤ length (promises w');
  foot_state :
    ∀ i s, stateOf w i = Some s → i ∉ R ∨ s ≠ Pending → stateOf w' i = Some s;
  foot_queue : ∃ js, queue w' = queue w ++ js;
  foot_reactions : ∀ q, ∃ fs, reactionsOf w' q = reactionsOf w q ++ fs;
  foot_running : ∃ ps, running w' = running w ++ ps;
  foot_handled : ∃ es, handled w' = handled w ++ es;
  foot_nohandler : _onTaskError cfg = None → handled w' = handled w;
  foot_invocations : invocations w ≤ invocations w';
  foot_task : _asyncTask w' = _asyncTask w;
  foot_status : _status w ≠ inactive → _status w' ≠ inactive
}.

(** What the call of the task may be assumed to do. *)
Definition TaskOK (cfg : Config) (task : World → option JSValue * World)
  : Prop :=
  ∀ L w, Inv cfg w → Live L w →
    Inv cfg (task w).2 ∧ Live L (task w).2 ∧ Foot cfg [] w (task w).2.

(** What [_executeTaskAndUpdateState] may be assumed to do: the promise
    it returns is that of a running attempt, or is settled already. *)
Definition ExecuteOK (cfg : Config) (execute : World → nat * World) : Prop :=
  ∀ L w, Inv cfg w → Live L w →
    Inv cfg (execute w).2 ∧ Live L (execute w).2 ∧
    Foot cfg [] w (execute w).2 ∧
    ((execute w).1 ∈ running (execute w).2 ∨ settled (execute w).2 (execute w).1) ∧
    invocations w < invocations (execute w).2.

(** The error handler, when there is one, returns from every call. *)
Definition handlerNeverThrows (cfg : Config) : Prop :=
  ∀ h e, _onTaskError cfg = Some h → h e = Returns.

(** Nothing has been rejected: no promise, and no [await] about to throw. *)
Definition noRejection (w : World) : Prop :=
  (∀ q e, stateOf w q ≠ Some (Rejected e)) ∧
  (∀ f e, (f, Throw e) ∉ queue w).

(** The fields the invariant reads. *)
Definition same (w W : World) : Prop :=
  promises W = promises w ∧ queue W = queue w ∧ running W = running w ∧
  _currentExecutionPromise W = _currentExecutionPromise w ∧
  _status W = _status w.

(** Where [_executeTaskAndUpdateState] settles the attempt from. *)
Definition afterAttempt (cfg : Config) (p : nat) (c : Completion) (w : World)
  : World :=
  set_handled (handled w ++ reported cfg c)
    (set_currentExecutionPromise
       (match attemptOutcome cfg c with
        | Normal _ => None
        | Throw _ => _currentExecutionPromise w
        end)
       (set_running (filter (λ p', p' ≠ p) (running w)) w)).

(** The microtask queue hands out its first job: the call to resume is no
    longer suspended.  In the state given here a [stop()] that toggled the
    status has its 'terminating' taken back already, which is what it does
    first when it continues. *)
Definition popped (f : Frame) (rest : list Job) (w : World) : World :=
  set_status (if isStopActive f then inactive else _status w) (set_queue rest w).


(** ** Notions used by the statements *)

(** The event [e] in state [w] runs [start()] for the call with result
    [r]: the call is made, or its suspended loop is resumed after an
    [await] that did not throw. *)
Definition runsStart (w : World) (e : Event) (r : nat) : Prop :=
  (e = CallStart ∧ r = length (promises w)) ∨
  (e = Microtask ∧ ∃ v rest, queue w = (StartLoop r, Normal v) :: rest).

(** One cycle per outcome of [cs]: timer [t] fires, and the promise the
    task returned to the attempt this begins settles with that outcome
    before the next tick. *)
Fixpoint cycles (cfg : Config) (t : nat) (cs : list Completion)
    (w : World) : option World :=
  match cs with
  | [] => Some w
  | c :: cs =>
      match run cfg w [Tick t; TaskSettles (length (promises w)) c] with
      | Some w' => cycles cfg t cs w'
      | None => None
      end
  end.

(** What a run of the body of [start()], for the call that returned promise
    [r], has done when it takes [w] to [w']: it fulfils [r] with [true]
    exactly when it found the status 'inactive'.  Then it has left
    'inactive', armed a timer and kept its handle, and begun an attempt if
    and only if [immediateFirstRun] is set; the status is 'active' unless
    the task of that attempt called the instance before it returned.  When it found 'active' it
    fulfils [r] with [false] and changes nothing else; when it found
    'terminating' it suspends, [r] stays pending and nothing else
    changes. *)
Definition startRan (cfg : Config) (w : World) (r : nat) (w' : World) : Prop :=
  (stateOf w' r = Some (Fulfilled (JSBoolean true)) ↔ _status w = inactive) ∧
  match _status w with
  | inactive =>
      stateOf w' r = Some (Fulfilled (JSBoolean true)) ∧
      _status w' ≠ inactive ∧
      (∃ t, _timerHandle w' = Some t ∧ t ∈ timers w') ∧
      (if truthy (immediateFirstRun (_options cfg))
       then invocations w < invocations w' ∧ isCurrentlyExecuting w' = true ∧
            (_asyncTask w = TaskReturns → _status w' = active)
       else invocations w' = invocations w ∧ running w' = running w ∧
            _status w' = active)
  | active =>
      stateOf w' r = Some (Fulfilled (JSBoolean false)) ∧ ctrl w' = ctrl w ∧
      ∀ i, i ≠ r → stateOf w' i = stateOf w i
  | terminating =>
      stateOf w' r = Some Pending ∧ ctrl w' = ctrl w ∧
      StartLoop r ∈ frames w'
  end.

(** The task has been invoked at least [k] times more often than there are
    attempts running and errors reported. *)
Definition within (k : nat) (w : World) : Prop :=
  length (handled w) + length (running w) + k ≤ invocations w.

(** The states reached while the task is what [initial] takes it to be: a
    function that returns its promise and calls nothing on the instance
    before that. *)
Inductive Plain (cfg : Config) : World → Prop :=
| Plain_initial : Plain cfg initial
| Plain_step w e w' :
    Plain cfg w → (∀ t, e ≠ TaskBecomes t) → step cfg w e = Some w' →
    Plain cfg w'.

(** What holds in those states when, in addition, the error handler never
    throws: the execution handle holds the promise of the one running
    attempt, or is empty when none is running; it is empty on an inactive
    instance and once the [stop()] in progress is about to continue; and
    one timer is armed, behind [_timerHandle], exactly while the status is
    'active'. *)
Record Calm (w : World) : Prop := {
  calm_task : _asyncTask w = TaskReturns;
  calm_running :
    running w = match _currentExecutionPromise w with
                | Some p => [p]
                | None => []
                end;
  calm_inactive : _status w = inactive → _currentExecutionPromise w = None;
  calm_active : _status w = active → ∃ t, _timerHandle w = Some t ∧ timers w = [t];
  calm_idle : _status w ≠ active → timers w = [];
  calm_queued :
    ∀ r c, (StopActive r, c) ∈ queue w → _currentExecutionPromise w = None
}.

(** ** Scenarios *)

(** The options of the test suite: an interval of 6000 ms. *)
Definition testOptions (immediate : bool) : Options :=
  {| intervalMs := JSNum (JSFinite 6000);
     immediateFirstRun := JSBoolean immediate |}.

Definition testConfig (immediate : bool) (h : option ErrorHandler) : Config :=
  {| _options := testOptions immediate; _onTaskError := h |}.

(** An error handler that throws what it is given. *)
Definition rethrow : ErrorHandler := λ err, Throws err.

Definition taskError : JSValue := JSString "Task no. 1 has failed".

(** A task that calls [stop()] on its instance and then returns its
    promise: [() => { recurringTask.stop(); return work(); }]. *)
Definition stopsItself : Task := TaskCallsStop false TaskReturns.

(** A task that is no [async] function and throws before it returns:
    [() => { throw taskError; }]. *)
Definition throwsAtOnce : Task := TaskThrows taskError.

(** * Properties *)

(** ** The promise store *)

Lemma stateOf_Some w p s :
  stateOf w p = Some s ↔ ∃ rs, promises w !! p = Some {| pstate := s; reactions := rs |}.
Proof.
  unfold stateOf. split.
  - destruct (promises w !! p) as [[s' rs]|]; simpl; intros [=]; subst; eauto.
  - intros [rs ->]. done.
Qed.

Lemma stateOf_lt w p s : stateOf w p = Some s → p < length (promises w).
Proof. intros [rs H]%stateOf_Some. eapply lookup_lt_Some, H. Qed.

Lemma pending_lt w p : pending w p → p < length (promises w).
Proof. apply stateOf_lt. Qed.

Lemma pending_not_settled w p : pending w p → ¬ settled w p.
Proof. unfold pending. intros H (s & Hs & Hne). congruence. Qed.

Lemma stateOf_newPromise_old s w p :
  p < length (promises w) → stateOf (snd (newPromise s w)) p = stateOf w p.
Proof. intros. unfold stateOf; simpl. by rewrite lookup_app_l. Qed.

Lemma stateOf_newPromise_new s w :
  stateOf (snd (newPromise s w)) (length (promises w)) = Some s.
Proof.
  unfold stateOf; simpl. rewrite lookup_app_r by lia. by rewrite Nat.sub_diag.
Qed.

Lemma stateOf_newPromise_Some s w p s' :
  stateOf w p = Some s' → stateOf (snd (newPromise s w)) p = Some s'.
Proof. intros H. rewrite stateOf_newPromise_old; [done|]. by eapply stateOf_lt. Qed.

Lemma reactionsOf_lookup w p c :
  promises w !! p = Some c → reactionsOf w p = reactions c.
Proof. intros H. unfold reactionsOf. by rewrite H. Qed.

Lemma reactionsOf_ge w p : length (promises w) ≤ p → reactionsOf w p = [].
Proof. intros H. unfold reactionsOf. by rewrite lookup_ge_None_2. Qed.

Lemma reactionsOf_newPromise s w p :
  reactionsOf (snd (newPromise s w)) p = reactionsOf w p.
Proof.
  unfold reactionsOf; simpl.
  destruct (decide (p < length (promises w))) as [Hlt|Hge].
  - by rewrite lookup_app_l.
  - rewrite (lookup_ge_None_2 (promises w) p) by lia.
    destruct (decide (p = length (promises w))) as [->|Hne].
    + rewrite lookup_app_r by lia. by rewrite Nat.sub_diag.
    + rewrite lookup_ge_None_2; [done|]. rewrite length_app; simpl; lia.
Qed.

Lemma registered_newPromise s w : registered (snd (newPromise s w)) = registered w.
Proof.
  unfold registered; simpl. rewrite fmap_app, join_app. simpl.
  by rewrite !app_nil_r.
Qed.

Lemma frames_newPromise s w : frames (snd (newPromise s w)) = frames w.
Proof. unfold frames. by rewrite registered_newPromise. Qed.

Lemma owned_newPromise s w : owned (snd (newPromise s w)) = owned w.
Proof. unfold owned. by rewrite frames_newPromise. Qed.

Lemma elem_of_registered w f :
  f ∈ registered w ↔ ∃ q, f ∈ reactionsOf w q.
Proof.
  unfold registered. rewrite list_elem_of_join. split.
  - intros (l & Hf & Hl). apply list_elem_of_fmap in Hl as (c & -> & Hc).
    apply list_elem_of_lookup in Hc as [q Hq]. exists q.
    by rewrite (reactionsOf_lookup _ _ _ Hq).
  - intros [q Hq]. unfold reactionsOf in Hq.
    destruct (promises w !! q) as [c|] eqn:E; [|by apply elem_of_nil in Hq].
    exists (reactions c). split; [done|].
    apply list_elem_of_fmap. exists c. split; [done|].
    by eapply list_elem_of_lookup_2.
Qed.

Lemma elem_of_frames w f :
  f ∈ frames w ↔ (∃ c, (f, c) ∈ queue w) ∨ ∃ q, f ∈ reactionsOf w q.
Proof.
  unfold frames. rewrite elem_of_app, elem_of_registered, list_elem_of_fmap.
  split; (intros [H|H]; [left|by right]).
  - destruct H as ([g c] & -> & Hin). eauto.
  - destruct H as [c Hc]. by exists (f, c).
Qed.

(** Replacing one promise: the registrations before and after it stay. *)
Lemma registered_insert w p c c' :
  promises w !! p = Some c →
  ∃ l1 l2,
    registered w = l1 ++ reactions c ++ l2 ∧
    registered (set_promises (<[p := c']> (promises w)) w)
      = l1 ++ reactions c' ++ l2.
Proof.
  intros H. unfold registered; simpl.
  exists (mjoin (reactions <$> take p (promises w))),
         (mjoin (reactions <$> drop (S p) (promises w))).
  pose proof (lookup_lt_Some _ _ _ H) as Hlt.
  split.
  - rewrite <- (take_drop_middle _ _ _ H) at 1.
    by rewrite fmap_app, join_app.
  - rewrite insert_take_drop by done. by rewrite fmap_app, join_app.
Qed.

Lemma stopActives_app fs gs :
  stopActives (fs ++ gs) = stopActives fs + stopActives gs.
Proof. induction fs as [|f fs IH]; simpl; [done|]. rewrite IH. lia. Qed.

Lemma stopActives_perm fs gs : fs ≡ₚ gs → stopActives fs = stopActives gs.
Proof.
  induction 1 as [|f fs gs _ IH|f g fs|fs gs hs _ IH1 _ IH2]; simpl; lia.
Qed.

Lemma stopActives_elem r fs : StopActive r ∈ fs → 1 ≤ stopActives fs.
Proof.
  induction fs as [|f fs IH]; [by intros ?%elem_of_nil|].
  intros [<-|Hin]%elem_of_cons; simpl; [lia|]. apply IH in Hin. lia.
Qed.

Lemma stopActives_two r1 r2 fs :
  StopActive r1 ∈ fs → StopActive r2 ∈ fs → r1 ≠ r2 → 2 ≤ stopActives fs.
Proof.
  induction fs as [|f fs IH]; [by intros ?%elem_of_nil|].
  intros [<-|H1]%elem_of_cons [E|H2]%elem_of_cons Hne; simpl.
  - congruence.
  - apply stopActives_elem in H2. lia.
  - subst f. apply stopActives_elem in H1. simpl. lia.
  - pose proof (IH H1 H2 Hne). lia.
Qed.

Lemma stopActives_pos fs : 1 ≤ stopActives fs → ∃ r, StopActive r ∈ fs.
Proof.
  induction fs as [|f fs IH]; simpl; [lia|].
  destruct f as [r|r|r]; simpl.
  - intros H. destruct (IH H) as [r' ?]. exists r'. by apply elem_of_cons; right.
  - intros H. destruct (IH H) as [r' ?]. exists r'. by apply elem_of_cons; right.
  - intros _. exists r. by apply elem_of_cons; left.
Qed.

Lemma fst_pair_fmap {A B} (c : B) (l : list A) : fst <$> ((λ f, (f, c)) <$> l) = l.
Proof. induction l; simpl; [done|]. by f_equal. Qed.

(** ** What the primitives do to the suspended calls *)

Lemma settle_pending p c w rs :
  promises w !! p = Some {| pstate := Pending; reactions := rs |} →
  settle p c w =
    set_queue (queue w ++ ((λ f, (f, c)) <$> rs))
      (set_promises
         (<[p := {| pstate := settledState c; reactions := [] |}]> (promises w)) w).
Proof. intros H. unfold settle. by rewrite H. Qed.

Lemma settle_settled p c w :
  ¬ pending w p → settle p c w = w.
Proof.
  unfold pending, stateOf, settle.
  destruct (promises w !! p) as [[[] rs]|]; simpl; done.
Qed.

Lemma settle_result r c w :
  pending w r → stateOf (settle r c w) r = Some (settledState c).
Proof.
  intros [rs H]%stateOf_Some. rewrite (settle_pending _ _ _ _ H).
  unfold stateOf; simpl. rewrite list_lookup_insert_eq; [done|].
  eapply lookup_lt_Some, H.
Qed.

Lemma settle_other r c w i : i ≠ r → stateOf (settle r c w) i = stateOf w i.
Proof.
  intros Hne. unfold settle.
  destruct (promises w !! r) as [[[] rs]|] eqn:E; try done.
  unfold stateOf; simpl. by rewrite list_lookup_insert_ne.
Qed.

Lemma settle_stable r c w i s :
  stateOf w i = Some s → i ≠ r ∨ s ≠ Pending → stateOf (settle r c w) i = Some s.
Proof.
  intros Hs [Hne|Hne]; [by rewrite settle_other|].
  destruct (decide (i = r)) as [->|?]; [|by rewrite settle_other].
  rewrite settle_settled; [done|]. unfold pending. congruence.
Qed.

Lemma settle_length r c w : length (promises (settle r c w)) = length (promises w).
Proof.
  unfold settle. destruct (promises w !! r) as [[[] rs]|]; try done.
  simpl. by rewrite length_insert.
Qed.

Lemma settle_reactionsOf_other r c w q :
  q ≠ r → reactionsOf (settle r c w) q = reactionsOf w q.
Proof.
  intros Hne. unfold settle.
  destruct (promises w !! r) as [[[] rs]|] eqn:E; try done.
  unfold reactionsOf; simpl. by rewrite list_lookup_insert_ne.
Qed.

Lemma settle_reactionsOf_same r c w :
  pending w r → reactionsOf (settle r c w) r = [].
Proof.
  intros [rs H]%stateOf_Some. rewrite (settle_pending _ _ _ _ H).
  unfold reactionsOf; simpl. rewrite list_lookup_insert_eq; [done|].
  eapply lookup_lt_Some, H.
Qed.

Lemma settle_queue r c w :
  pending w r →
  queue (settle r c w) = queue w ++ ((λ f, (f, c)) <$> reactionsOf w r).
Proof.
  intros [rs H]%stateOf_Some. rewrite (settle_pending _ _ _ _ H).
  by rewrite (reactionsOf_lookup _ _ _ H).
Qed.

Lemma settle_frames r c w : frames (settle r c w) ≡ₚ frames w.
Proof.
  unfold settle. destruct (promises w !! r) as [[[] rs]|] eqn:E; try done.
  destruct (registered_insert w r _ {| pstate := settledState c; reactions := [] |} E)
    as (l1 & l2 & H1 & H2).
  unfold frames. simpl queue. rewrite fmap_app, fst_pair_fmap.
  change (registered (set_queue ?q ?W)) with (registered W).
  rewrite H1, H2. simpl. solve_Permutation.
Qed.

Lemma settle_ctrl p c w : ctrl (settle p c w) = ctrl w.
Proof.
  unfold settle. by destruct (promises w !! p) as [[[] ?]|].
Qed.

Lemma await_state q f w i : stateOf (await q f w) i = stateOf w i.
Proof.
  unfold await. destruct (promises w !! q) as [[[] rs]|] eqn:E; try done.
  unfold stateOf; simpl. destruct (decide (i = q)) as [->|Hne].
  - rewrite list_lookup_insert_eq by (eapply lookup_lt_Some, E). by rewrite E.
  - by rewrite list_lookup_insert_ne.
Qed.

Lemma await_length q f w : length (promises (await q f w)) = length (promises w).
Proof.
  unfold await. destruct (promises w !! q) as [[[] rs]|]; try done.
  simpl. by rewrite length_insert.
Qed.

Lemma await_ctrl p f w : ctrl (await p f w) = ctrl w.
Proof.
  unfold await. by destruct (promises w !! p) as [[[] ?]|].
Qed.

Lemma await_frames q f w s :
  stateOf w q = Some s → frames (await q f w) ≡ₚ f :: frames w.
Proof.
  intros [rs E]%stateOf_Some. unfold await. rewrite E.
  destruct s as [|v|e].
  - destruct (registered_insert w q _ {| pstate := Pending; reactions := rs ++ [f] |} E)
      as (l1 & l2 & H1 & H2).
    unfold frames. simpl queue. rewrite H1, H2. simpl. solve_Permutation.
  - unfold frames; simpl. rewrite fmap_app. simpl.
    change (registered (set_queue ?q ?W)) with (registered W). solve_Permutation.
  - unfold frames; simpl. rewrite fmap_app. simpl.
    change (registered (set_queue ?q ?W)) with (registered W). solve_Permutation.
Qed.

Lemma await_queue q f w : ∃ js, queue (await q f w) = queue w ++ js.
Proof.
  unfold await. destruct (promises w !! q) as [[[] rs]|]; simpl; eauto.
  all: exists []; by rewrite app_nil_r.
Qed.

Lemma await_reactionsOf q f w p :
  ∃ fs, reactionsOf (await q f w) p = reactionsOf w p ++ fs.
Proof.
  unfold await. destruct (promises w !! q) as [[[] rs]|] eqn:E;
    try (exists []; by rewrite app_nil_r).
  unfold reactionsOf; simpl. destruct (decide (p = q)) as [->|Hne].
  - rewrite list_lookup_insert_eq by (eapply lookup_lt_Some, E). rewrite E.
    simpl. eauto.
  - rewrite list_lookup_insert_ne by done. exists []. by rewrite app_nil_r.
Qed.

(** Where the awaiting call ends up. *)
Lemma await_pending q f w :
  pending w q →
  reactionsOf (await q f w) q = reactionsOf w q ++ [f] ∧
  queue (await q f w) = queue w.
Proof.
  intros [rs E]%stateOf_Some. unfold await. rewrite E.
  unfold reactionsOf; simpl.
  rewrite list_lookup_insert_eq by (eapply lookup_lt_Some, E). by rewrite E.
Qed.

Lemma await_settled q f w c :
  stateOf w q = Some (settledState c) →
  queue (await q f w) = queue w ++ [(f, c)] ∧ promises (await q f w) = promises w.
Proof.
  intros [rs E]%stateOf_Some. unfold await. rewrite E. by destruct c.
Qed.

Lemma wait_ctrl w : ctrl (snd (waitUntilCurrentExecutionCompletes w)) = ctrl w.
Proof.
  unfold waitUntilCurrentExecutionCompletes.
  by destruct (_currentExecutionPromise w).
Qed.

Lemma ctrl_fields w w' :
  ctrl w' = ctrl w →
  _status w' = _status w ∧ _timerHandle w' = _timerHandle w ∧
  _currentExecutionPromise w' = _currentExecutionPromise w ∧
  _asyncTask w' = _asyncTask w ∧
  timers w' = timers w ∧ running w' = running w ∧
  invocations w' = invocations w ∧ handled w' = handled w.
Proof. unfold ctrl. intros [= ? ? ? ? ? ? ? ? ?]. done. Qed.

Lemma suspend_ctrl w q w1 f :
  waitUntilCurrentExecutionCompletes w = (q, w1) → ctrl (await q f w1) = ctrl w.
Proof.
  intros H. rewrite await_ctrl. pose proof (wait_ctrl w) as H'.
  by rewrite H in H'.
Qed.

(** ** States that differ in other fields *)

Lemma same_refl w : same w w.
Proof. done. Qed.

Lemma same_frames w W : promises W = promises w → queue W = queue w → frames W = frames w.
Proof. intros Hp Hq. unfold frames, registered. by rewrite Hp, Hq. Qed.

Lemma same_owned w W :
  promises W = promises w → queue W = queue w → running W = running w →
  owned W = owned w.
Proof. intros Hp Hq Hr. unfold owned. by rewrite (same_frames w W), Hr. Qed.

Lemma same_stateOf w W i : promises W = promises w → stateOf W i = stateOf w i.
Proof. intros Hp. unfold stateOf. by rewrite Hp. Qed.

Lemma same_reactionsOf w W q : promises W = promises w → reactionsOf W q = reactionsOf w q.
Proof. intros Hp. unfold reactionsOf. by rewrite Hp. Qed.

Lemma rejections_eq cfg w w' :
  promises w' = promises w → queue w' = queue w →
  rejectionsFromHandler cfg w → rejectionsFromHandler cfg w'.
Proof.
  intros Hp Hq [H1 H2]. unfold rejectionsFromHandler, stateOf. by rewrite Hp, Hq.
Qed.

Lemma Inv_same cfg w W : same w W → Inv cfg w → Inv cfg W.
Proof.
  intros (Hp & Hq & Hr & Hh & Hs) [I1 I2 I3 I4 I5 I6 I7].
  split; unfold pending, settled;
    rewrite ?(same_owned w W), ?(same_frames w W), ?Hr, ?Hh, ?Hs by done;
    try done.
  - intros i Hi. rewrite (same_stateOf w W) by done. by apply I1.
  - intros q. rewrite (same_reactionsOf w W) by done. apply I3.
  - intros p Hp'. destruct (I4 p Hp') as [?|(s & ? & ?)]; [by left|right].
    exists s. by rewrite (same_stateOf w W).
  - intros Ht. destruct (I6 Ht) as [?|(q & e & He)]; [by left|right].
    exists q, e. by rewrite (same_stateOf w W).
  - by eapply rejections_eq.
Qed.

Lemma Live_same L w W :
  promises W = promises w → queue W = queue w → running W = running w →
  Live L w → Live L W.
Proof.
  intros Hp Hq Hr [Hnd HL]. split; [done|]. intros i Hi.
  unfold pending. rewrite (same_stateOf w W), (same_owned w W) by done.
  by apply HL.
Qed.

Lemma Live_cons r L w :
  Live (r :: L) w → Live L w ∧ pending w r ∧ (r ∉ owned w) ∧ (r ∉ L).
Proof.
  intros [Hnd HL]. apply NoDup_cons in Hnd as [Hr Hnd]. split_and!; try done.
  - split; [done|]. intros i Hi. apply HL. by apply elem_of_cons; right.
  - apply HL. by apply elem_of_cons; left.
  - apply HL. by apply elem_of_cons; left.
Qed.

Lemma Live_nil w : Live [] w.
Proof. split; [apply NoDup_nil_2|]. by intros i ?%elem_of_nil. Qed.

Lemma owned_lt cfg w i : Inv cfg w → i ∈ owned w → i < length (promises w).
Proof. intros HI Hi. apply pending_lt. by apply (inv_pending _ _ HI). Qed.

Lemma running_owned w p : p ∈ running w → p ∈ owned w.
Proof. unfold owned. rewrite elem_of_app. auto. Qed.

Lemma frame_owned w f : f ∈ frames w → resultOf f ∈ owned w.
Proof.
  unfold owned. rewrite elem_of_app. left. by apply list_elem_of_fmap_2.
Qed.

Lemma live_no_reactions cfg w r :
  Inv cfg w → r ∉ owned w → reactionsOf w r = [].
Proof.
  intros HI Hr. destruct (reactionsOf w r) eqn:E; [done|].
  exfalso. apply Hr, running_owned, (inv_reactions _ _ HI). by rewrite E.
Qed.

Lemma pending_dec w r : pending w r ∨ ¬ pending w r.
Proof.
  unfold pending. destruct (stateOf w r) as [[]|]; (by left) || by right.
Qed.

(** ** Footprints *)

Lemma Foot_refl cfg R w : Foot cfg R w w.
Proof.
  split; try done; try (exists []; by rewrite app_nil_r).
Qed.

Lemma Foot_trans cfg R R2 w1 w2 w3 :
  Foot cfg R w1 w2 → Foot cfg R2 w2 w3 →
  (∀ i, i ∈ R2 → i ∈ R ∨ length (promises w1) ≤ i) →
  Foot cfg R w1 w3.
Proof.
  intros [A1 A2 [js1 A3] A4 [ps1 A5] [es1 A6] A7 A8 A9 A10]
         [B1 B2 [js2 B3] B4 [ps2 B5] [es2 B6] B7 B8 B9 B10] HR.
  split.
  - lia.
  - intros i s Hs Hi. apply B2; [by apply A2|].
    destruct Hi as [Hi|Hi]; [|by right].
    destruct s; [|by right..]. left.
    intros Hin. destruct (HR i Hin) as [?|Hge]; [done|].
    apply stateOf_lt in Hs. lia.
  - exists (js1 ++ js2). by rewrite B3, A3, app_assoc.
  - intros q. destruct (A4 q) as [fs1 E1]. destruct (B4 q) as [fs2 E2].
    exists (fs1 ++ fs2). by rewrite E2, E1, app_assoc.
  - exists (ps1 ++ ps2). by rewrite B5, A5, app_assoc.
  - exists (es1 ++ es2). by rewrite B6, A6, app_assoc.
  - intros Hn. by rewrite B7, A7.
  - lia.
  - congruence.
  - auto.
Qed.

Lemma Foot_weaken cfg R R' w w' :
  (∀ i, i ∈ R → i ∈ R') → Foot cfg R w w' → Foot cfg R' w w'.
Proof.
  intros HR [A1 A2 A3 A4 A5 A6 A7 A8 A9 A10]. split; try done.
  intros i s Hs [Hi|Hi]; apply A2; auto.
Qed.

(** Fields that footprints do not read may change freely. *)
Lemma Foot_fields cfg R w W :
  promises W = promises w → queue W = queue w → running W = running w →
  handled W = handled w → invocations w ≤ invocations W →
  _asyncTask W = _asyncTask w → (_status w ≠ inactive → _status W ≠ inactive) →
  Foot cfg R w W.
Proof.
  intros Hp Hq Hr Hh Hi Ht Hs. split; try done.
  - by rewrite Hp.
  - intros i s. by rewrite (same_stateOf w W).
  - exists []. by rewrite app_nil_r.
  - intros q. exists []. by rewrite app_nil_r, (same_reactionsOf w W).
  - exists []. by rewrite app_nil_r.
  - exists []. by rewrite app_nil_r.
Qed.

Lemma Foot_ctrl cfg R w W :
  ctrl W = ctrl w → promises W = promises w → queue W = queue w → Foot cfg R w W.
Proof.
  intros Hc Hp Hq. apply ctrl_fields in Hc as (Hs&_&_&?&_&?&Hi&?).
  apply Foot_fields; try done; [lia|congruence].
Qed.

Lemma Foot_newPromise cfg R s w : Foot cfg R w (snd (newPromise s w)).
Proof.
  split; try done; try (exists []; by rewrite app_nil_r).
  - simpl. rewrite length_app. lia.
  - intros i s' Hs _. by apply stateOf_newPromise_Some.
  - intros q. exists []. by rewrite app_nil_r, reactionsOf_newPromise.
Qed.

Lemma Foot_settle cfg r c w :
  reactionsOf w r = [] → Foot cfg [r] w (settle r c w).
Proof.
  intros Hrs. pose proof (settle_ctrl r c w) as Hc.
  apply ctrl_fields in Hc as (Hs&_&_&Ht&_&Hr&Hi&Hh).
  split.
  - by rewrite settle_length.
  - intros i s Hs' [Hi'|Hi']; apply settle_stable; auto.
    left. intros ->. apply Hi'. by apply list_elem_of_singleton.
  - destruct (pending_dec w r) as [Hp|Hp].
    + rewrite settle_queue, Hrs by done. by exists [].
    + rewrite settle_settled by done. exists []. by rewrite app_nil_r.
  - intros q. exists []. rewrite app_nil_r.
    destruct (decide (q = r)) as [->|Hne]; [|by apply settle_reactionsOf_other].
    destruct (pending_dec w r) as [Hp|Hp].
    + by rewrite settle_reactionsOf_same.
    + by rewrite settle_settled.
  - exists []. by rewrite app_nil_r.
  - exists []. by rewrite app_nil_r.
  - done.
  - lia.
  - done.
  - congruence.
Qed.

Lemma Foot_await cfg R q f w : Foot cfg R w (await q f w).
Proof.
  pose proof (await_ctrl q f w) as Hc.
  apply ctrl_fields in Hc as (Hs&_&_&Ht&_&Hr&Hi&Hh).
  split.
  - by rewrite await_length.
  - intros i s Hs' _. by rewrite await_state.
  - apply await_queue.
  - intros p. apply await_reactionsOf.
  - exists []. by rewrite app_nil_r.
  - exists []. by rewrite app_nil_r.
  - done.
  - lia.
  - done.
  - congruence.
Qed.

(** ** The invariant under the primitives *)

Lemma stateOf_newPromise_inv s w q s' :
  stateOf (snd (newPromise s w)) q = Some s' →
  stateOf w q = Some s' ∨ (q = length (promises w) ∧ s' = s).
Proof.
  intros H. destruct (decide (q < length (promises w))) as [Hlt|Hge].
  - left. by rewrite stateOf_newPromise_old in H.
  - right. pose proof (stateOf_lt _ _ _ H) as Hlt. simpl in Hlt.
    rewrite length_app in Hlt. simpl in Hlt.
    assert (q = length (promises w)) as -> by lia.
    rewrite stateOf_newPromise_new in H. split; congruence.
Qed.

Lemma settled_newPromise s w p : settled w p → settled (snd (newPromise s w)) p.
Proof. intros (s' & H & Hne). exists s'. split; [by apply stateOf_newPromise_Some|done]. Qed.

Lemma Inv_newPromise cfg s w :
  (∀ e, s ≠ Rejected e) → Inv cfg w → Inv cfg (snd (newPromise s w)).
Proof.
  intros Hs [I1 I2 I3 I4 I5 I6 [I7 I8]]. split.
  - intros i. rewrite owned_newPromise. intros Hi.
    by apply stateOf_newPromise_Some, I1.
  - by rewrite owned_newPromise.
  - intros q. rewrite reactionsOf_newPromise. apply I3.
  - intros p Hp. destruct (I4 p Hp) as [?|?]; [by left|right].
    by apply settled_newPromise.
  - by rewrite frames_newPromise.
  - rewrite frames_newPromise. intros Ht.
    destruct (I6 Ht) as [?|(q & e & He)]; [by left|right].
    exists q, e. by apply stateOf_newPromise_Some.
  - split; [|done]. intros q e [H|[_ H]]%stateOf_newPromise_inv.
    + by eapply I7.
    + by destruct (Hs e).
Qed.

Lemma Live_newPromise cfg L s w :
  Inv cfg w → Live L w → Live L (snd (newPromise s w)).
Proof.
  intros HI [Hnd HL]. split; [done|]. intros i Hi.
  destruct (HL i Hi) as [Hp Ho]. rewrite owned_newPromise. split; [|done].
  by apply stateOf_newPromise_Some.
Qed.

Lemma Live_newPromise_cons cfg L w :
  Inv cfg w → Live L w →
  Live (length (promises w) :: L) (snd (newPromise Pending w)).
Proof.
  intros HI HL. pose proof (Live_newPromise cfg L Pending w HI HL) as [Hnd HL'].
  split.
  - apply NoDup_cons. split; [|done]. intros Hin.
    destruct HL as [_ HL]. destruct (HL _ Hin) as [Hp _].
    apply pending_lt in Hp. lia.
  - intros i [->|Hi]%elem_of_cons; [|by apply HL'].
    split; [apply stateOf_newPromise_new|].
    rewrite owned_newPromise. intros Hin. apply (owned_lt cfg) in Hin; [lia|done].
Qed.

Lemma filter_ne_id (p : nat) (l : list nat) :
  p ∉ l → filter (λ p', p' ≠ p) l = l.
Proof.
  induction l as [|a l IH]; [done|]. intros Hp.
  apply not_elem_of_cons in Hp as [Hne Hp].
  rewrite filter_cons_True by done. by rewrite IH.
Qed.

Lemma owned_split w i :
  i ∈ owned w ↔ (∃ f, f ∈ frames w ∧ resultOf f = i) ∨ i ∈ running w.
Proof.
  unfold owned. rewrite elem_of_app, list_elem_of_fmap.
  split; (intros [(f & ? & ?)|?]; [left; by exists f|by right]).
Qed.

(** Settling promise [p], which is pending and is either that of a running
    attempt or that of the call that is executing.  The state [W] is the
    one in which [p] is settled: the attempt is no longer running there,
    and the handle may have been cleared. *)
Lemma Inv_settle cfg L p c w W :
  Inv cfg w → Live L w → p ∉ L → pending w p →
  p ∈ running w ∨ p ∉ owned w →
  promises W = promises w → queue W = queue w →
  running W = filter (λ p', p' ≠ p) (running w) →
  _status W = _status w ∨ (_status W = terminating ∧ ∃ e, c = Throw e) →
  _currentExecutionPromise W = _currentExecutionPromise w ∨
    _currentExecutionPromise W = None →
  (∀ e, c = Throw e → thrownByHandler cfg e) →
  Inv cfg (settle p c W) ∧ Live L (settle p c W).
Proof.
  intros [I1 I2 I3 I4 I5 I6 [I7 I8]] [Hnd HL] HpL Hpp Hown HP HQ HR HS HH Hc.
  assert (HpW : pending W p) by (unfold pending; by rewrite (same_stateOf w W)).
  assert (Hfr : frames (settle p c W) ≡ₚ frames w).
  { rewrite settle_frames. by rewrite (same_frames w W). }
  pose proof (settle_ctrl p c W) as Hctrl.
  apply ctrl_fields in Hctrl as (Hs'&_&Hh'&_&_&Hr'&_&_).
  assert (Hframe : ∀ f, f ∈ frames w → resultOf f ≠ p).
  { intros f Hf <-. destruct Hown as [Hrun|Hno].
    - unfold owned in I2. apply NoDup_app in I2 as (_ & Hdis & _).
      apply (Hdis (resultOf f)); [by apply list_elem_of_fmap_2|done].
    - apply Hno. by apply frame_owned. }
  assert (Howned : ∀ i, i ∈ owned (settle p c W) → i ∈ owned w ∧ i ≠ p).
  { intros i [(f & Hf & <-)|Hi]%owned_split.
    - rewrite Hfr in Hf. split; [by apply frame_owned|by apply Hframe].
    - rewrite Hr', HR in Hi. apply list_elem_of_filter in Hi as [? ?].
      split; [by apply running_owned|done]. }
  assert (Hstate : ∀ i, i ≠ p → stateOf (settle p c W) i = stateOf w i).
  { intros i Hne. rewrite settle_other by done. by apply same_stateOf. }
  assert (Hstable : ∀ i s, stateOf w i = Some s → s ≠ Pending →
                           stateOf (settle p c W) i = Some s).
  { intros i s Hs Hne. apply settle_stable; [|by right].
    by rewrite (same_stateOf w W). }
  assert (Hres : stateOf (settle p c W) p = Some (settledState c))
    by by apply settle_result.
  assert (Hsettled : settled (settle p c W) p).
  { exists (settledState c). split; [done|]. by destruct c. }
  split; [split|].
  - intros i Hi. destruct (Howned i Hi) as [Ho Hne].
    unfold pending. rewrite Hstate by done. by apply I1.
  - unfold owned. rewrite Hfr, Hr', HR. unfold owned in I2.
    apply NoDup_app in I2 as (N1 & N2 & N3). apply NoDup_app. split_and!.
    + done.
    + intros i Hi [_ Hin]%list_elem_of_filter. by apply (N2 i).
    + by apply NoDup_filter.
  - intros q Hq. rewrite Hr', HR. destruct (decide (q = p)) as [->|Hne].
    + by rewrite settle_reactionsOf_same in Hq.
    + apply list_elem_of_filter. split; [done|]. apply I3.
      rewrite settle_reactionsOf_other in Hq by done.
      by rewrite (same_reactionsOf w W) in Hq.
  - intros p' Hp'. rewrite Hh' in Hp'.
    destruct HH as [HH|HH]; rewrite HH in Hp'; [|done].
    destruct (decide (p' = p)) as [->|Hne]; [by right|].
    destruct (I4 p' Hp') as [Hrun|(s & Hs & Hne')].
    + left. rewrite Hr', HR. by apply list_elem_of_filter.
    + right. exists s. split; [by apply Hstable|done].
  - rewrite (stopActives_perm _ _ Hfr), Hs'.
    destruct HS as [->|[-> _]]; [done|].
    rewrite decide_True by done. destruct (decide (_status w = terminating)); lia.
  - rewrite (stopActives_perm _ _ Hfr), Hs'. intros Ht.
    destruct HS as [HS|[_ [e ->]]].
    + rewrite HS in Ht. destruct (I6 Ht) as [?|(q & e & He)]; [by left|right].
      exists q, e. by apply Hstable.
    + right. by exists p, e.
  - split.
    + intros q e Hq. destruct (decide (q = p)) as [->|Hne].
      * rewrite Hres in Hq. apply Hc. destruct c; simpl in Hq; congruence.
      * rewrite Hstate in Hq by done. by eapply I7.
    + intros f e. rewrite settle_queue, HQ by done.
      intros [Hin|Hin]%elem_of_app; [by eapply I8|].
      apply list_elem_of_fmap in Hin as (g & [= -> <-] & _). by apply Hc.
  - split; [done|]. intros i Hi. destruct (HL i Hi) as [Hp Ho].
    assert (i ≠ p) by (intros ->; done).
    split; [unfold pending; by rewrite Hstate|].
    intros Hin. by apply Howned in Hin as [? _].
Qed.

(** The call that is executing settles the promise it returned. *)
Lemma Inv_settle_live cfg L r c w :
  Inv cfg w → Live (r :: L) w → (∀ e, c = Throw e → thrownByHandler cfg e) →
  Inv cfg (settle r c w) ∧ Live L (settle r c w).
Proof.
  intros HI HL Hc. apply Live_cons in HL as (HL & Hp & Ho & HrL).
  apply (Inv_settle cfg L r c w w); try done; try by left.
  - by right.
  - symmetry. apply filter_ne_id. intros Hin. by apply Ho, running_owned.
Qed.

Lemma Inv_settle_value cfg L r v w :
  Inv cfg w → Live (r :: L) w →
  Inv cfg (settle r (Normal v) w) ∧ Live L (settle r (Normal v) w).
Proof. intros HI HL. by apply Inv_settle_live. Qed.

Lemma await_reactionsOf_other q f w p :
  p ≠ q → reactionsOf (await q f w) p = reactionsOf w p.
Proof.
  intros Hne. unfold await.
  destruct (promises w !! q) as [[[] rs]|] eqn:E; try done.
  unfold reactionsOf; simpl. by rewrite list_lookup_insert_ne.
Qed.

Lemma settled_completion w q :
  settled w q → ∃ c, stateOf w q = Some (settledState c).
Proof.
  intros (s & Hs & Hne). destruct s as [|v|e]; [done| |].
  - by exists (Normal v).
  - by exists (Throw e).
Qed.

(** The call that is executing suspends at [await q]: in [w] it has not
    done so yet; [W] is the state in which it does, which differs from [w]
    in the status when the call is a [stop()] that found 'active'. *)
Lemma Inv_await cfg L f q w W :
  Inv cfg w → Live (resultOf f :: L) w →
  promises W = promises w → queue W = queue w → running W = running w →
  _currentExecutionPromise W = _currentExecutionPromise w →
  q ∈ running w ∨ settled w q →
  (if isStopActive f then _status w = active ∧ _status W = terminating
   else _status W = _status w) →
  Inv cfg (await q f W) ∧ Live L (await q f W).
Proof.
  intros HI HL HP HQ HR HH Hq HS.
  apply Live_cons in HL as ([Hnd HL] & Hp & Ho & HrL).
  pose proof HI as [I1 I2 I3 I4 I5 I6 [I7 I8]].
  assert (∃ s, stateOf W q = Some s) as [s Hs].
  { rewrite (same_stateOf w W) by done. destruct Hq as [Hq|(s & Hs & _)]; [|eauto].
    exists Pending. by apply I1, running_owned. }
  assert (Hfr : frames (await q f W) ≡ₚ f :: frames w).
  { rewrite (await_frames q f W s Hs). by rewrite (same_frames w W). }
  pose proof (await_ctrl q f W) as Hctrl.
  apply ctrl_fields in Hctrl as (Hs'&_&Hh'&_&_&Hr'&_&_).
  assert (Hstate : ∀ i, stateOf (await q f W) i = stateOf w i).
  { intros i. rewrite await_state. by apply same_stateOf. }
  assert (Howned : owned (await q f W) ≡ₚ resultOf f :: owned w).
  { unfold owned. rewrite Hfr, Hr', HR. done. }
  split; [split|].
  - intros i Hi. unfold pending. rewrite Hstate. rewrite Howned in Hi.
    apply elem_of_cons in Hi as [->|Hi]; [done|by apply I1].
  - rewrite Howned. by apply NoDup_cons.
  - intros p Hp'. rewrite Hr', HR. destruct Hq as [Hq|Hq].
    + destruct (decide (p = q)) as [->|Hne]; [done|]. apply I3.
      rewrite await_reactionsOf_other in Hp' by done.
      by rewrite (same_reactionsOf w W) in Hp'.
    + apply I3. apply settled_completion in Hq as [c Hc].
      rewrite <- (same_stateOf w W) in Hc by done.
      destruct (await_settled q f W c Hc) as [_ Hpr].
      rewrite (same_reactionsOf W (await q f W)) in Hp' by done.
      by rewrite (same_reactionsOf w W) in Hp'.
  - intros p Hp'. rewrite Hh', HH in Hp'. rewrite Hr', HR.
    destruct (I4 p Hp') as [?|(s' & ? & ?)]; [by left|right].
    exists s'. by rewrite Hstate.
  - rewrite (stopActives_perm _ _ Hfr), Hs'. simpl.
    destruct (isStopActive f).
    + destruct HS as [Ha ->]. rewrite decide_True by done.
      rewrite Ha in I5. rewrite decide_False in I5 by done. lia.
    + by rewrite HS.
  - rewrite (stopActives_perm _ _ Hfr), Hs'. simpl. intros Ht.
    destruct (isStopActive f); [left; lia|].
    rewrite HS in Ht. destruct (I6 Ht) as [?|(p & e & He)]; [left; lia|right].
    exists p, e. by rewrite Hstate.
  - split.
    + intros p e. rewrite Hstate. apply I7.
    + intros g e Hin. destruct Hq as [Hq|Hq].
      * assert (pending W q) as Hpq.
        { unfold pending. rewrite (same_stateOf w W) by done.
          by apply I1, running_owned. }
        destruct (await_pending q f W Hpq) as [_ Hqu].
        rewrite Hqu, HQ in Hin. by eapply I8.
      * apply settled_completion in Hq as [c Hc].
        pose proof Hc as Hc'. rewrite <- (same_stateOf w W) in Hc' by done.
        destruct (await_settled q f W c Hc') as [Hqu _].
        rewrite Hqu, HQ in Hin. apply elem_of_app in Hin as [Hin|Hin].
        -- by eapply I8.
        -- apply list_elem_of_singleton in Hin as [= -> <-].
           by eapply I7.
  - split; [done|]. intros i Hi. destruct (HL i Hi) as [Hpi Hoi].
    split; [unfold pending; by rewrite Hstate|].
    rewrite Howned. apply not_elem_of_cons. split; [|done].
    intros ->. done.
Qed.

Lemma wait_fst w W :
  _currentExecutionPromise W = _currentExecutionPromise w →
  promises W = promises w →
  fst (waitUntilCurrentExecutionCompletes W) = fst (waitUntilCurrentExecutionCompletes w) ∧
  promises (snd (waitUntilCurrentExecutionCompletes W))
    = promises (snd (waitUntilCurrentExecutionCompletes w)).
Proof.
  intros HH HP. unfold waitUntilCurrentExecutionCompletes. rewrite HH.
  destruct (_currentExecutionPromise w); simpl; by rewrite HP.
Qed.

Lemma wait_queue w :
  queue (snd (waitUntilCurrentExecutionCompletes w)) = queue w.
Proof.
  unfold waitUntilCurrentExecutionCompletes.
  by destruct (_currentExecutionPromise w).
Qed.

Lemma wait_cases w :
  (∃ p, _currentExecutionPromise w = Some p ∧
        waitUntilCurrentExecutionCompletes w = (p, w)) ∨
  (_currentExecutionPromise w = None ∧
   waitUntilCurrentExecutionCompletes w = newPromise (Fulfilled JSUndefined) w).
Proof.
  unfold waitUntilCurrentExecutionCompletes.
  destruct (_currentExecutionPromise w) as [p|]; [left; by exists p|by right].
Qed.

Lemma wait_OK cfg L w :
  Inv cfg w → Live L w →
  Inv cfg (snd (waitUntilCurrentExecutionCompletes w)) ∧
  Live L (snd (waitUntilCurrentExecutionCompletes w)) ∧
  Foot cfg [] w (snd (waitUntilCurrentExecutionCompletes w)) ∧
  (fst (waitUntilCurrentExecutionCompletes w)
     ∈ running (snd (waitUntilCurrentExecutionCompletes w)) ∨
   settled (snd (waitUntilCurrentExecutionCompletes w))
     (fst (waitUntilCurrentExecutionCompletes w))).
Proof.
  intros HI HL. destruct (wait_cases w) as [(p & Hp & ->)|[Hn ->]].
  - split_and!; try done; [apply Foot_refl|]. by apply (inv_handle _ _ HI).
  - split_and!.
    + by apply Inv_newPromise.
    + by eapply Live_newPromise.
    + apply Foot_newPromise.
    + right. exists (Fulfilled JSUndefined). split; [|done].
      apply stateOf_newPromise_new.
Qed.

(** An attempt begins to wait for the promise the task returned. *)
Lemma Inv_enroll cfg L p w :
  Inv cfg w → Live (p :: L) w →
  Inv cfg (set_running (running w ++ [p]) w) ∧
  Live L (set_running (running w ++ [p]) w).
Proof.
  intros [I1 I2 I3 I4 I5 I6 I7] HL.
  apply Live_cons in HL as ([Hnd HL] & Hp & Ho & HpL).
  assert (Howned : owned (set_running (running w ++ [p]) w) = owned w ++ [p]).
  { unfold owned. simpl. by rewrite app_assoc. }
  split; [split|]; rewrite ?Howned.
  - intros i [Hi|Hi%list_elem_of_singleton]%elem_of_app; [by apply I1|by subst].
  - apply NoDup_app. split_and!; [done| |apply NoDup_singleton].
    intros i Hi Hi'%list_elem_of_singleton. by subst.
  - intros q Hq. simpl. apply elem_of_app. left. by apply I3.
  - intros p' Hp'. destruct (I4 p' Hp') as [?|?]; [left|by right].
    simpl. apply elem_of_app. by left.
  - done.
  - done.
  - done.
  - split; [done|]. intros i Hi. destruct (HL i Hi) as [Hpi Hoi].
    split; [done|]. rewrite Howned. intros [?|Hi'%list_elem_of_singleton]%elem_of_app; [done|by subst].
Qed.

(** The status changes between 'inactive' and 'active'. *)
Lemma Inv_status cfg s w :
  Inv cfg w → _status w ≠ terminating → s ≠ terminating →
  Inv cfg (set_status s w).
Proof.
  intros [I1 I2 I3 I4 I5 I6 I7] Hw Hs. split; try done.
  change (frames (set_status s w)) with (frames w). simpl.
  rewrite decide_False in I5 by done. by rewrite decide_False.
Qed.

(** The handle is assigned. *)
Lemma Inv_handle cfg h w :
  Inv cfg w → (∀ p, h = Some p → p ∈ running w ∨ settled w p) →
  Inv cfg (set_currentExecutionPromise h w).
Proof. intros [I1 I2 I3 I4 I5 I6 I7] Hh. by split. Qed.

(** ** The invariant under the methods *)

Lemma resume_eq cfg p c w :
  _executeTaskAndUpdateState_resume cfg p c w
  = settle p (attemptOutcome cfg c) (afterAttempt cfg p c w).
Proof.
  unfold _executeTaskAndUpdateState_resume, afterAttempt, attemptOutcome, reported.
  destruct c as [v|err]; [|destruct (_onTaskError cfg) as [h|]; [destruct (h err)|]];
    unfold settle; simpl; destruct w; simpl; rewrite ?app_nil_r; reflexivity.
Qed.

Lemma attemptOutcome_thrown cfg c e :
  attemptOutcome cfg c = Throw e → thrownByHandler cfg e.
Proof.
  unfold attemptOutcome. destruct c as [v|err]; [done|].
  destruct (_onTaskError cfg) as [h|] eqn:Eh; [|done].
  destruct (h err) eqn:Ee; [done|]. intros [= <-]. by exists h, err.
Qed.

Lemma reported_nohandler cfg c : _onTaskError cfg = None → reported cfg c = [].
Proof. intros H. unfold reported. rewrite H. by destruct c. Qed.

(** The attempt with promise [p] ends: the task's promise settled for a
    running attempt, or the task threw before it returned. *)
Lemma Inv_attempt cfg L p c w :
  Inv cfg w → Live L w → p ∉ L → pending w p →
  p ∈ running w ∨ p ∉ owned w →
  Inv cfg (_executeTaskAndUpdateState_resume cfg p c w) ∧
  Live L (_executeTaskAndUpdateState_resume cfg p c w).
Proof.
  intros HI HL HpL Hp Ho. rewrite resume_eq.
  apply (Inv_settle cfg L p _ w); try done.
  - by left.
  - unfold afterAttempt. simpl. destruct (attemptOutcome cfg c); (by right) || by left.
  - intros e. apply attemptOutcome_thrown.
Qed.

Lemma Foot_grow cfg R w W ps es :
  promises W = promises w → queue W = queue w → running W = running w ++ ps →
  handled W = handled w ++ es → (_onTaskError cfg = None → es = []) →
  invocations w ≤ invocations W → _asyncTask W = _asyncTask w →
  (_status w ≠ inactive → _status W ≠ inactive) →
  Foot cfg R w W.
Proof.
  intros Hp Hq Hr Hh Hn Hi Ht Hs. split.
  - by rewrite Hp.
  - intros i s. by rewrite (same_stateOf w W).
  - exists []. by rewrite app_nil_r.
  - intros q. exists []. by rewrite app_nil_r, (same_reactionsOf w W).
  - by exists ps.
  - by exists es.
  - intros Hnone. by rewrite Hh, (Hn Hnone), app_nil_r.
  - done.
  - done.
  - done.
Qed.

Lemma Foot_trans0 cfg w1 w2 w3 :
  Foot cfg [] w1 w2 → Foot cfg [] w2 w3 → Foot cfg [] w1 w3.
Proof.
  intros H1 H2. eapply Foot_trans; [exact H1|exact H2|].
  by intros i ?%elem_of_nil.
Qed.

Lemma Foot_attempt_live cfg p c w :
  p ∉ running w → reactionsOf w p = [] →
  Foot cfg [p] w (_executeTaskAndUpdateState_resume cfg p c w).
Proof.
  intros Hp Hrs. rewrite resume_eq.
  apply (Foot_trans cfg [p] [p] w (afterAttempt cfg p c w)).
  - apply (Foot_grow cfg [p] w _ [] (reported cfg c)); try done.
    + simpl. by rewrite filter_ne_id, app_nil_r.
    + apply reported_nohandler.
  - by apply Foot_settle.
  - intros i Hi. by left.
Qed.

Lemma execute_with_eq cfg task w :
  _executeTaskAndUpdateState_with cfg task w =
  let p := length (promises w) in
  let w1 := snd (newPromise Pending (set_invocations (S (invocations w)) w)) in
  match fst (task w1) with
  | None => (p, set_running (running (snd (task w1)) ++ [p]) (snd (task w1)))
  | Some err =>
      (p, _executeTaskAndUpdateState_resume cfg p (Throw err) (snd (task w1)))
  end.
Proof.
  unfold _executeTaskAndUpdateState_with. simpl.
  by destruct (task _) as [[err|] w'].
Qed.

Lemma settled_resume_live cfg p c w :
  pending w p → settled (_executeTaskAndUpdateState_resume cfg p c w) p.
Proof.
  intros Hp. rewrite resume_eq. exists (settledState (attemptOutcome cfg c)).
  split; [by apply settle_result|]. by destruct (attemptOutcome cfg c).
Qed.

Lemma execute_with_OK cfg task :
  TaskOK cfg task → ExecuteOK cfg (_executeTaskAndUpdateState_with cfg task).
Proof.
  intros HT L w HI HL. rewrite execute_with_eq.
  set (p := length (promises w)).
  set (w0 := set_invocations (S (invocations w)) w).
  set (w1 := snd (newPromise Pending w0)).
  assert (HI0 : Inv cfg w0) by by apply (Inv_same cfg w).
  assert (HL0 : Live L w0) by by apply (Live_same L w).
  assert (HI1 : Inv cfg w1) by by apply Inv_newPromise.
  assert (HL1 : Live (p :: L) w1) by apply (Live_newPromise_cons cfg L w0 HI0 HL0).
  assert (HF1 : Foot cfg [] w w1).
  { apply (Foot_trans0 cfg w w0).
    - apply Foot_fields; try done. simpl. lia.
    - apply Foot_newPromise. }
  destruct (HT (p :: L) w1 HI1 HL1) as (HI2 & HL2 & HF2).
  assert (HF12 : Foot cfg [] w (snd (task w1))).
  { eapply Foot_trans0; [exact HF1|exact HF2]. }
  assert (Hinv : invocations w < invocations (snd (task w1))).
  { pose proof (foot_invocations _ _ _ _ HF2) as H. simpl in H. lia. }
  cbv zeta. destruct (fst (task w1)) as [err|].
  - cbn [fst snd].
    pose proof HL2 as (HL2' & Hp2 & Ho2 & HpL)%Live_cons.
    destruct (Inv_attempt cfg L p (Throw err) _ HI2 HL2') as [HI3 HL3];
      [done|done|by right|].
    assert (HF3 : Foot cfg [p] (snd (task w1))
                    (_executeTaskAndUpdateState_resume cfg p (Throw err) (snd (task w1)))).
    { apply Foot_attempt_live.
      - intros Hin. by apply Ho2, running_owned.
      - by apply (live_no_reactions cfg). }
    split_and!; try done.
    + eapply Foot_trans; [exact HF12|exact HF3|].
      intros i ->%list_elem_of_singleton. right. unfold p. done.
    + right. by apply settled_resume_live.
    + pose proof (foot_invocations _ _ _ _ HF3). lia.
  - cbn [fst snd].
    destruct (Inv_enroll cfg L p _ HI2 HL2) as [HI3 HL3].
    split_and!; try done.
    + eapply Foot_trans0; [exact HF12|].
      apply (Foot_grow cfg [] _ _ [p] []); try done. by rewrite app_nil_r.
    + left. simpl. apply elem_of_app. right. by apply list_elem_of_singleton.
Qed.

Lemma start_from_with_inactive cfg execute r w :
  _status w = inactive →
  start_from_with cfg execute r w =
  let w1 :=
    if truthy (immediateFirstRun (_options cfg)) then
      set_currentExecutionPromise (Some (fst (execute (set_status active w))))
        (snd (execute (set_status active w)))
    else set_status active w in
  settle r (Normal (JSBoolean true))
    (set_timerHandle (Some (nextTimer w1)) (snd (setInterval w1))).
Proof.
  intros H. unfold start_from_with. rewrite H.
  destruct (truthy _); [|done]. by destruct (execute _) as [p w'].
Qed.

Lemma start_from_with_terminating cfg execute r w :
  _status w = terminating →
  start_from_with cfg execute r w =
  await (fst (waitUntilCurrentExecutionCompletes w)) (StartLoop r)
    (snd (waitUntilCurrentExecutionCompletes w)).
Proof.
  intros H. unfold start_from_with. rewrite H.
  by destruct (waitUntilCurrentExecutionCompletes w).
Qed.

Lemma start_from_with_active cfg execute r w :
  _status w = active →
  start_from_with cfg execute r w = settle r (Normal (JSBoolean false)) w.
Proof. intros H. unfold start_from_with. by rewrite H. Qed.

(** The call that is executing suspends: [await this.waitUntil...()] in a
    state where the status is left as it is. *)
Lemma suspend_OK cfg L f w :
  Inv cfg w → Live (resultOf f :: L) w → isStopActive f = false →
  Inv cfg (await (fst (waitUntilCurrentExecutionCompletes w)) f
             (snd (waitUntilCurrentExecutionCompletes w))) ∧
  Live L (await (fst (waitUntilCurrentExecutionCompletes w)) f
             (snd (waitUntilCurrentExecutionCompletes w))) ∧
  Foot cfg [resultOf f] w
    (await (fst (waitUntilCurrentExecutionCompletes w)) f
       (snd (waitUntilCurrentExecutionCompletes w))).
Proof.
  intros HI HL Hf.
  destruct (wait_OK cfg (resultOf f :: L) w HI HL) as (HI1 & HL1 & HF1 & Hq).
  destruct (Inv_await cfg L f _ _ _ HI1 HL1 eq_refl eq_refl eq_refl eq_refl Hq)
    as [HI2 HL2]; [by rewrite Hf|].
  split_and!; try done.
  eapply Foot_trans; [eapply Foot_weaken; [|exact HF1]|apply (Foot_await cfg [])|].
  - by intros i ?%elem_of_nil.
  - by intros i ?%elem_of_nil.
Qed.

Lemma start_from_with_OK cfg execute L r w :
  ExecuteOK cfg execute → Inv cfg w → Live (r :: L) w →
  Inv cfg (start_from_with cfg execute r w) ∧
  Live L (start_from_with cfg execute r w) ∧
  Foot cfg [r] w (start_from_with cfg execute r w).
Proof.
  intros HE HI HL. destruct (_status w) eqn:Hs.
  - (* active *)
    rewrite start_from_with_active by done.
    destruct (Inv_settle_value cfg L r (JSBoolean false) w HI HL) as [? ?].
    split_and!; try done. apply Foot_settle.
    apply Live_cons in HL as (_ & _ & Ho & _). by apply (live_no_reactions cfg).
  - (* inactive *)
    rewrite start_from_with_inactive by done.
    set (w0 := set_status active w).
    assert (HI0 : Inv cfg w0) by (apply Inv_status; [done|congruence|done]).
    assert (HL0 : Live (r :: L) w0) by by apply (Live_same _ w).
    assert (HF0 : Foot cfg [r] w w0) by by apply Foot_fields.
    set (w1 := if truthy (immediateFirstRun (_options cfg)) then
      set_currentExecutionPromise (Some (fst (execute w0))) (snd (execute w0))
      else w0).
    assert (Inv cfg w1 ∧ Live (r :: L) w1 ∧ Foot cfg [r] w w1) as (HI1 & HL1 & HF1).
    { unfold w1. destruct (truthy _); [|done].
      destruct (HE (r :: L) w0 HI0 HL0) as (HI1 & HL1 & HF1 & Hp & _).
      split_and!.
      - apply Inv_handle; [done|]. by intros p [= <-].
      - by eapply Live_same; [| | |exact HL1].
      - eapply Foot_trans; [exact HF0| |].
        + eapply Foot_trans0; [exact HF1|].
          by apply Foot_fields.
        + by intros i ?%elem_of_nil. }
    cbv zeta. fold w0. fold w1.
    set (w2 := set_timerHandle (Some (nextTimer w1)) (snd (setInterval w1))).
    assert (HI2 : Inv cfg w2) by by apply (Inv_same cfg w1).
    assert (HL2 : Live (r :: L) w2) by by apply (Live_same _ w1).
    assert (HF2 : Foot cfg [r] w w2).
    { eapply Foot_trans; [exact HF1| |by left]. by apply (Foot_fields cfg [r]). }
    destruct (Inv_settle_value cfg L r (JSBoolean true) w2 HI2 HL2) as [? ?].
    split_and!; try done.
    eapply Foot_trans; [exact HF2| |by left]. apply Foot_settle.
    apply Live_cons in HL2 as (_ & _ & Ho & _). by apply (live_no_reactions cfg).
  - (* terminating *)
    rewrite start_from_with_terminating by done.
    by apply (suspend_OK cfg L (StartLoop r)).
Qed.

Lemma Foot_fresh cfg w w1 w2 :
  Foot cfg [] w w1 → Foot cfg [length (promises w)] w1 w2 → Foot cfg [] w w2.
Proof.
  intros H1 H2. eapply Foot_trans; [exact H1|exact H2|].
  intros i ->%list_elem_of_singleton. by right.
Qed.

Lemma start_with_OK cfg execute L w :
  ExecuteOK cfg execute → Inv cfg w → Live L w →
  Inv cfg (snd (start_with cfg execute w)) ∧
  Live L (snd (start_with cfg execute w)) ∧
  Foot cfg [] w (snd (start_with cfg execute w)).
Proof.
  intros HE HI HL.
  change (snd (start_with cfg execute w))
    with (start_from_with cfg execute (length (promises w))
            (snd (newPromise Pending w))).
  destruct (start_from_with_OK cfg execute L (length (promises w))
              (snd (newPromise Pending w)) HE) as (HI1 & HL1 & HF1).
  - by apply Inv_newPromise.
  - by apply (Live_newPromise_cons cfg).
  - split_and!; try done. eapply Foot_fresh; [apply Foot_newPromise|exact HF1].
Qed.

Lemma stop_from_active r w :
  _status w = active →
  stop_from r w =
  let W := set_timerHandle None
             (clearInterval (_timerHandle w) (set_status terminating w)) in
  await (fst (waitUntilCurrentExecutionCompletes W)) (StopActive r)
    (snd (waitUntilCurrentExecutionCompletes W)).
Proof.
  intros H. unfold stop_from. rewrite H. cbv zeta.
  change (_timerHandle (set_status terminating w)) with (_timerHandle w).
  by destruct (waitUntilCurrentExecutionCompletes _).
Qed.

Lemma stop_from_terminating r w :
  _status w = terminating →
  stop_from r w =
  await (fst (waitUntilCurrentExecutionCompletes w)) (StopTerminating r)
    (snd (waitUntilCurrentExecutionCompletes w)).
Proof.
  intros H. unfold stop_from. rewrite H.
  by destruct (waitUntilCurrentExecutionCompletes w).
Qed.

Lemma stop_from_inactive r w :
  _status w = inactive →
  stop_from r w = settle r (Normal (JSBoolean false)) w.
Proof. intros H. unfold stop_from. by rewrite H. Qed.

Lemma clearInterval_ctrl h w :
  promises (clearInterval h w) = promises w ∧ queue (clearInterval h w) = queue w ∧
  running (clearInterval h w) = running w ∧
  _currentExecutionPromise (clearInterval h w) = _currentExecutionPromise w ∧
  _status (clearInterval h w) = _status w ∧
  handled (clearInterval h w) = handled w ∧
  invocations (clearInterval h w) = invocations w ∧
  _asyncTask (clearInterval h w) = _asyncTask w ∧
  _timerHandle (clearInterval h w) = _timerHandle w.
Proof. by destruct h. Qed.

Lemma wait_fields w :
  running (snd (waitUntilCurrentExecutionCompletes w)) = running w ∧
  _currentExecutionPromise (snd (waitUntilCurrentExecutionCompletes w))
    = _currentExecutionPromise w ∧
  _status (snd (waitUntilCurrentExecutionCompletes w)) = _status w.
Proof.
  pose proof (wait_ctrl w) as H. apply ctrl_fields in H as (?&_&?&_&_&?&_&_).
  done.
Qed.

Lemma stop_from_OK cfg L r w :
  Inv cfg w → Live (r :: L) w →
  Inv cfg (stop_from r w) ∧ Live L (stop_from r w) ∧
  Foot cfg [r] w (stop_from r w).
Proof.
  intros HI HL. destruct (_status w) eqn:Hs.
  - (* active *)
    rewrite stop_from_active by done. cbv zeta.
    set (W := set_timerHandle None
                (clearInterval (_timerHandle w) (set_status terminating w))).
    destruct (clearInterval_ctrl (_timerHandle w) (set_status terminating w))
      as (C1 & C2 & C3 & C4 & C5 & C6 & C7 & C8 & C9).
    destruct (wait_OK cfg (r :: L) w HI HL) as (HI1 & HL1 & HF1 & Hq).
    destruct (wait_fst w W) as [Hfst Hpr]; [done|done|].
    destruct (wait_fields W) as (W1 & W2 & W3).
    destruct (wait_fields w) as (V1 & V2 & V3).
    rewrite Hfst.
    destruct (Inv_await cfg L (StopActive r)
                (fst (waitUntilCurrentExecutionCompletes w))
                (snd (waitUntilCurrentExecutionCompletes w))
                (snd (waitUntilCurrentExecutionCompletes W)) HI1 HL1)
      as [HI2 HL2]; try done.
    + by rewrite !wait_queue.
    + by rewrite W1, V1.
    + by rewrite W2, V2.
    + simpl. by rewrite W3, V3.
    + split_and!; try done.
      apply (Foot_trans cfg [r] [r] w W).
      * apply Foot_fields; try done.
        -- unfold W. cbn [invocations set_timerHandle]. by rewrite C7.
        -- intros _. unfold W. cbn [_status set_timerHandle]. by rewrite C5.
      * apply (Foot_trans cfg [r] [r] W (snd (waitUntilCurrentExecutionCompletes W)));
          [|apply Foot_await|by left].
        destruct (wait_cases W) as [(p & Hp & ->)|[Hn ->]];
          [apply Foot_refl|apply Foot_newPromise].
      * by left.
  - (* inactive *)
    rewrite stop_from_inactive by done.
    destruct (Inv_settle_value cfg L r (JSBoolean false) w HI HL) as [? ?].
    split_and!; try done. apply Foot_settle.
    apply Live_cons in HL as (_ & _ & Ho & _). by apply (live_no_reactions cfg).
  - (* terminating *)
    rewrite stop_from_terminating by done.
    by apply (suspend_OK cfg L (StopTerminating r)).
Qed.

Lemma stop_OK cfg L w :
  Inv cfg w → Live L w →
  Inv cfg (snd (stop w)) ∧ Live L (snd (stop w)) ∧ Foot cfg [] w (snd (stop w)).
Proof.
  intros HI HL.
  change (snd (stop w))
    with (stop_from (length (promises w)) (snd (newPromise Pending w))).
  destruct (stop_from_OK cfg L (length (promises w))
              (snd (newPromise Pending w))) as (HI1 & HL1 & HF1).
  - by apply Inv_newPromise.
  - by apply (Live_newPromise_cons cfg).
  - split_and!; try done. eapply Foot_fresh; [apply Foot_newPromise|exact HF1].
Qed.

(** Whatever the task does before it returns or throws keeps the
    invariant. *)
Lemma runTask_OK cfg t : TaskOK cfg (runTask cfg t).
Proof.
  induction t as [|err|nested IHn rest IHr|flag rest IHr|rest IHr];
    intros L w HI HL; simpl.
  - split_and!; try done. apply Foot_refl.
  - split_and!; try done. apply Foot_refl.
  - destruct (start_with_OK cfg _ L w (execute_with_OK cfg _ IHn) HI HL)
      as (HI1 & HL1 & HF1).
    destruct (IHr L _ HI1 HL1) as (HI2 & HL2 & HF2).
    split_and!; try done. eapply Foot_trans0; [exact HF1|exact HF2].
  - destruct (stop_OK cfg L w HI HL) as (HI1 & HL1 & HF1).
    destruct (IHr L _ HI1 HL1) as (HI2 & HL2 & HF2).
    split_and!; try done. eapply Foot_trans0; [exact HF1|exact HF2].
  - destruct (wait_OK cfg L w HI HL) as (HI1 & HL1 & HF1 & _).
    destruct (IHr L _ HI1 HL1) as (HI2 & HL2 & HF2).
    split_and!; try done. eapply Foot_trans0; [exact HF1|exact HF2].
Qed.

Lemma execute_OK cfg : ExecuteOK cfg (_executeTaskAndUpdateState cfg).
Proof.
  intros L w HI HL. unfold _executeTaskAndUpdateState.
  by apply (execute_with_OK cfg _ (runTask_OK cfg (_asyncTask w))).
Qed.

(** ** The invariant along every run *)

Lemma Inv_initial cfg : Inv cfg initial.
Proof.
  split.
  - intros i Hi. change (owned initial) with (@nil nat) in Hi.
    by apply elem_of_nil in Hi.
  - apply NoDup_nil_2.
  - done.
  - done.
  - simpl. lia.
  - done.
  - split; [done|]. intros f e Hi. change (queue initial) with (@nil Job) in Hi.
    by apply elem_of_nil in Hi.
Qed.

Lemma Inv_pop cfg w f c rest :
  Inv cfg w → queue w = (f, c) :: rest →
  Inv cfg (popped f rest w) ∧ Live [resultOf f] (popped f rest w) ∧
  (isStopActive f = true → _status w = terminating).
Proof.
  intros [I1 I2 I3 I4 I5 I6 [I7 I8]] Hq.
  assert (Hfr : frames w = f :: frames (popped f rest w)).
  { unfold frames, popped. simpl. by rewrite Hq. }
  assert (Ho : owned w = resultOf f :: owned (popped f rest w)).
  { unfold owned. by rewrite Hfr. }
  rewrite Ho in I1, I2. apply NoDup_cons in I2 as [N1 N2].
  rewrite Hfr in I5, I6. simpl in I5, I6.
  assert (Hst : isStopActive f = true → _status w = terminating).
  { intros Hf. rewrite Hf in I5. destruct (decide (_status w = terminating)); [done|lia]. }
  split_and!; [split| |done].
  - intros i Hi. apply (I1 i). by apply elem_of_cons; right.
  - done.
  - done.
  - done.
  - unfold popped at 2. simpl. destruct (isStopActive f) eqn:Hf.
    + rewrite decide_False by done. rewrite (Hst eq_refl) in I5.
      rewrite decide_True in I5 by done. lia.
    + done.
  - unfold popped at 1. simpl. destruct (isStopActive f) eqn:Hf; [done|].
    intros Ht. destruct (I6 Ht) as [?|?]; [left; lia|by right].
  - split; [done|]. intros g e Hin. apply (I8 g e). rewrite Hq.
    apply elem_of_cons. by right.
  - split; [apply NoDup_singleton|]. intros i ->%list_elem_of_singleton.
    split; [|done]. apply (I1 (resultOf f)). by apply elem_of_cons; left.
Qed.

Lemma resume_popped cfg f v rest w :
  resume cfg (f, Normal v) (set_queue rest w) =
  match f with
  | StartLoop r => start_from cfg r (popped f rest w)
  | StopTerminating r => settle r (Normal (JSBoolean false)) (popped f rest w)
  | StopActive r => settle r (Normal (JSBoolean true)) (popped f rest w)
  end.
Proof. destruct f; unfold popped; simpl; by destruct w. Qed.

Lemma Inv_resume cfg w j rest :
  Inv cfg w → queue w = j :: rest → Inv cfg (resume cfg j (set_queue rest w)).
Proof.
  intros HI Hq. destruct j as [f c].
  destruct (Inv_pop cfg w f c rest HI Hq) as (HI0 & HL0 & Hst).
  destruct c as [v|e].
  - rewrite resume_popped. destruct f as [r|r|r].
    + by apply (start_from_with_OK cfg _ [] r _ (execute_OK cfg)).
    + by apply (Inv_settle_value cfg [] r).
    + by apply (Inv_settle_value cfg [] r).
  - assert (Hres : resume cfg (f, Throw e) (set_queue rest w)
                   = settle (resultOf f) (Throw e) (set_queue rest w))
      by by destruct f.
    rewrite Hres.
    apply Live_cons in HL0 as (HL0 & Hp & Ho & _).
    apply (Inv_settle cfg [] (resultOf f) (Throw e) (popped f rest w) _ HI0 HL0).
    + by intros ?%elem_of_nil.
    + done.
    + by right.
    + done.
    + done.
    + simpl. symmetry. apply filter_ne_id. intros Hin. by apply Ho, running_owned.
    + simpl. destruct (isStopActive f) eqn:Hf; [right|by left].
      split; [by apply Hst|by exists e].
    + by left.
    + intros e' [= <-]. apply (inv_rejections _ _ HI) with f.
      rewrite Hq. by apply elem_of_cons; left.
Qed.

Lemma intervalCallback_eq cfg w :
  intervalCallback cfg w =
  match _currentExecutionPromise w with
  | None =>
      set_currentExecutionPromise (Some (fst (_executeTaskAndUpdateState cfg w)))
        (snd (_executeTaskAndUpdateState cfg w))
  | Some _ => w
  end.
Proof.
  unfold intervalCallback. destruct (_currentExecutionPromise w); [done|].
  by destruct (_executeTaskAndUpdateState cfg w).
Qed.

Lemma Inv_step cfg w e w' : Inv cfg w → step cfg w e = Some w' → Inv cfg w'.
Proof.
  intros HI Hstep. destruct e as [|flag| |t|p c| |t]; unfold step in Hstep.
  - apply (inj Some) in Hstep as <-.
    by apply (start_with_OK cfg _ [] w (execute_OK cfg) HI (Live_nil w)).
  - apply (inj Some) in Hstep as <-. by apply (stop_OK cfg [] w HI (Live_nil w)).
  - apply (inj Some) in Hstep as <-. by apply (wait_OK cfg [] w HI (Live_nil w)).
  - destruct (decide (t ∈ timers w)); [|done].
    apply (inj Some) in Hstep as <-. rewrite intervalCallback_eq.
    destruct (_currentExecutionPromise w); [done|].
    destruct (execute_OK cfg [] w HI (Live_nil w)) as (HI1 & _ & _ & Hp & _).
    apply Inv_handle; [done|]. by intros q [= <-].
  - destruct (decide (p ∈ running w)) as [Hp|]; [|done].
    apply (inj Some) in Hstep as <-.
    apply (Inv_attempt cfg [] p c w HI (Live_nil w)).
    + by intros ?%elem_of_nil.
    + by apply (inv_pending _ _ HI), running_owned.
    + by left.
  - destruct (queue w) as [|j rest] eqn:Hq; [done|].
    apply (inj Some) in Hstep as <-. by apply Inv_resume.
  - apply (inj Some) in Hstep as <-. by apply (Inv_same cfg w).
Qed.

Lemma Reachable_Inv cfg w : Reachable cfg w → Inv cfg w.
Proof.
  induction 1 as [|w e w' _ IH Hstep]; [apply Inv_initial|].
  by eapply Inv_step.
Qed.

Lemma run_app cfg w es1 es2 :
  run cfg w (es1 ++ es2) =
  match run cfg w es1 with
  | Some w' => run cfg w' es2
  | None => None
  end.
Proof.
  revert w. induction es1 as [|e es1 IH]; intros w; [done|].
  cbn [app run]. destruct (step cfg w e); [apply IH|done].
Qed.

Lemma Reachable_run cfg w es w' :
  Reachable cfg w → run cfg w es = Some w' → Reachable cfg w'.
Proof.
  revert w. induction es as [|e es IH]; intros w Hw Hrun.
  - cbn [run] in Hrun. by apply (inj Some) in Hrun as <-.
  - cbn [run] in Hrun. destruct (step cfg w e) as [w1|] eqn:Hstep; [|done].
    apply (IH w1); [|done]. by eapply Reachable_step.
Qed.

Lemma Inv_run cfg w es w' : Inv cfg w → run cfg w es = Some w' → Inv cfg w'.
Proof.
  revert w. induction es as [|e es IH]; intros w Hw Hrun.
  - cbn [run] in Hrun. by apply (inj Some) in Hrun as <-.
  - cbn [run] in Hrun. destruct (step cfg w e) as [w1|] eqn:Hstep; [|done].
    apply (IH w1); [|done]. by eapply Inv_step.
Qed.

(** ** What one event changes *)

(** The end of an attempt, field by field. *)
Lemma resume_fields cfg p c w :
  _status (_executeTaskAndUpdateState_resume cfg p c w) = _status w ∧
  _timerHandle (_executeTaskAndUpdateState_resume cfg p c w) = _timerHandle w ∧
  timers (_executeTaskAndUpdateState_resume cfg p c w) = timers w ∧
  _asyncTask (_executeTaskAndUpdateState_resume cfg p c w) = _asyncTask w ∧
  invocations (_executeTaskAndUpdateState_resume cfg p c w) = invocations w ∧
  running (_executeTaskAndUpdateState_resume cfg p c w)
    = filter (λ p', p' ≠ p) (running w) ∧
  handled (_executeTaskAndUpdateState_resume cfg p c w)
    = handled w ++ reported cfg c ∧
  _currentExecutionPromise (_executeTaskAndUpdateState_resume cfg p c w)
    = match attemptOutcome cfg c with
      | Normal _ => None
      | Throw _ => _currentExecutionPromise w
      end.
Proof.
  rewrite resume_eq.
  pose proof (settle_ctrl p (attemptOutcome cfg c) (afterAttempt cfg p c w)) as H.
  apply ctrl_fields in H as (H1&H2&H3&H4&H5&H6&H7&H8).
  by rewrite H1, H2, H3, H4, H5, H6, H7, H8.
Qed.


Lemma resume_state_same cfg p c w :
  pending w p →
  stateOf (_executeTaskAndUpdateState_resume cfg p c w) p
  = Some (settledState (attemptOutcome cfg c)).
Proof. intros Hp. rewrite resume_eq. by apply settle_result. Qed.

Lemma resume_reactions_other cfg p c w q :
  q ≠ p →
  reactionsOf (_executeTaskAndUpdateState_resume cfg p c w) q = reactionsOf w q.
Proof. intros Hne. rewrite resume_eq. by rewrite settle_reactionsOf_other. Qed.

Lemma resume_reactions_same cfg p c w :
  pending w p → reactionsOf (_executeTaskAndUpdateState_resume cfg p c w) p = [].
Proof. intros Hp. rewrite resume_eq. by apply settle_reactionsOf_same. Qed.

Lemma resume_queue cfg p c w :
  pending w p →
  queue (_executeTaskAndUpdateState_resume cfg p c w)
  = queue w ++ ((λ f, (f, attemptOutcome cfg c)) <$> reactionsOf w p).
Proof. intros Hp. rewrite resume_eq. by rewrite settle_queue. Qed.

Lemma resume_length cfg p c w :
  length (promises (_executeTaskAndUpdateState_resume cfg p c w))
  = length (promises w).
Proof. rewrite resume_eq. by rewrite settle_length. Qed.

(** What the events other than the end of an attempt leave as it was. *)
Lemma Foot_resume cfg w f c rest :
  Inv cfg w → queue w = (f, c) :: rest →
  Foot cfg [resultOf f] (popped f rest w) (resume cfg (f, c) (set_queue rest w)).
Proof.
  intros HI Hq.
  destruct (Inv_pop cfg w f c rest HI Hq) as (HI0 & HL0 & Hst).
  assert (Hrs : reactionsOf (popped f rest w) (resultOf f) = []).
  { apply Live_cons in HL0 as (_ & _ & Ho & _). by apply (live_no_reactions cfg). }
  destruct c as [v|e].
  - rewrite resume_popped. destruct f as [r|r|r].
    + by apply (start_from_with_OK cfg _ [] r _ (execute_OK cfg)).
    + by apply Foot_settle.
    + by apply Foot_settle.
  - assert (Hres : resume cfg (f, Throw e) (set_queue rest w)
                   = settle (resultOf f) (Throw e) (set_queue rest w))
      by by destruct f.
    rewrite Hres.
    apply (Foot_trans cfg _ [resultOf f] _ (set_queue rest w)).
    + apply Foot_fields; try done. simpl.
      destruct (isStopActive f); [done|]. by destruct w.
    + by apply Foot_settle.
    + by left.
Qed.

Lemma Foot_step cfg w e w' :
  Inv cfg w → step cfg w e = Some w' →
  match e with
  | TaskSettles p c =>
      p ∈ running w ∧ w' = _executeTaskAndUpdateState_resume cfg p c w
  | Microtask =>
      ∃ f c rest, queue w = (f, c) :: rest ∧
                  Foot cfg [resultOf f] (popped f rest w) w'
  | TaskBecomes t => w' = set_asyncTask t w
  | _ => Foot cfg [] w w'
  end.
Proof.
  intros HI Hstep. destruct e as [|flag| |t|p c| |t]; unfold step in Hstep.
  - apply (inj Some) in Hstep as <-.
    by apply (start_with_OK cfg _ [] w (execute_OK cfg) HI (Live_nil w)).
  - apply (inj Some) in Hstep as <-. by apply (stop_OK cfg [] w HI (Live_nil w)).
  - apply (inj Some) in Hstep as <-. by apply (wait_OK cfg [] w HI (Live_nil w)).
  - destruct (decide (t ∈ timers w)); [|done].
    apply (inj Some) in Hstep as <-. rewrite intervalCallback_eq.
    destruct (_currentExecutionPromise w); [apply Foot_refl|].
    destruct (execute_OK cfg [] w HI (Live_nil w)) as (_ & _ & HF & _).
    eapply Foot_trans0; [exact HF|]. by apply Foot_fields.
  - destruct (decide (p ∈ running w)) as [Hp|]; [|done].
    by apply (inj Some) in Hstep as <-.
  - destruct (queue w) as [|[f c] rest] eqn:Hq; [done|].
    apply (inj Some) in Hstep as <-. exists f, c, rest. split; [done|].
    by apply Foot_resume.
  - by apply (inj Some) in Hstep as <-.
Qed.


(** The calls registered with a promise stay registered, in order, until
    the attempt the promise belongs to ends. *)
Lemma step_reactions cfg w e w' q :
  Inv cfg w → step cfg w e = Some w' → (∀ c, e ≠ TaskSettles q c) →
  ∃ fs, reactionsOf w' q = reactionsOf w q ++ fs.
Proof.
  intros HI Hstep Hne. pose proof (Foot_step cfg w e w' HI Hstep) as HF.
  destruct e as [|flag| |t|p c| |t]; try apply (foot_reactions _ _ _ _ HF).
  - destruct HF as [Hp ->]. exists []. rewrite app_nil_r.
    apply resume_reactions_other. intros ->. by destruct (Hne c).
  - destruct HF as (f & c & rest & Hq & HF). apply (foot_reactions _ _ _ _ HF).
  - subst. exists []. by rewrite app_nil_r.
Qed.

Lemma step_invocations cfg w e w' :
  Inv cfg w → step cfg w e = Some w' → invocations w ≤ invocations w'.
Proof.
  intros HI Hstep. pose proof (Foot_step cfg w e w' HI Hstep) as HF.
  destruct e as [|flag| |t|p c| |t]; try apply (foot_invocations _ _ _ _ HF).
  - destruct HF as [Hp ->].
    destruct (resume_fields cfg p c w) as (_&_&_&_&->&_). done.
  - destruct HF as (f & c & rest & Hq & HF). apply (foot_invocations _ _ _ _ HF).
  - by subst.
Qed.

Lemma step_length cfg w e w' :
  Inv cfg w → step cfg w e = Some w' →
  length (promises w) ≤ length (promises w').
Proof.
  intros HI Hstep. pose proof (Foot_step cfg w e w' HI Hstep) as HF.
  destruct e as [|flag| |t|p c| |t]; try apply (foot_length _ _ _ _ HF).
  - destruct HF as [Hp ->]. by rewrite resume_length.
  - destruct HF as (f & c & rest & Hq & HF). apply (foot_length _ _ _ _ HF).
  - by subst.
Qed.


(** ** Along a run *)

Lemma start_call_eq cfg w :
  start cfg w =
  (length (promises w),
   start_from cfg (length (promises w)) (snd (newPromise Pending w))).
Proof. done. Qed.

Lemma attemptOutcome_Normal cfg c :
  handlerNeverThrows cfg → attemptOutcome cfg c = Normal JSUndefined.
Proof.
  intros Hh. unfold attemptOutcome. destruct c as [v|err]; [done|].
  destruct (_onTaskError cfg) as [h|] eqn:Eh; [|done].
  by rewrite (Hh h err Eh).
Qed.

Lemma not_thrownByHandler cfg e : handlerNeverThrows cfg → ¬ thrownByHandler cfg e.
Proof. intros Hh (h & err & Eh & He). rewrite (Hh h err Eh) in He. done. Qed.

(** Without a throwing handler nothing is ever rejected. *)
Lemma Inv_noRejection cfg w : handlerNeverThrows cfg → Inv cfg w → noRejection w.
Proof.
  intros Hh HI. destruct (inv_rejections _ _ HI) as [H1 H2]. split.
  - intros q e Hq. by apply (not_thrownByHandler cfg e Hh), (H1 q).
  - intros f e Hin. by apply (not_thrownByHandler cfg e Hh), (H2 f).
Qed.




Lemma head_frame w f c rest : queue w = (f, c) :: rest → f ∈ frames w.
Proof.
  intros Hq. unfold frames. rewrite Hq. simpl. by apply elem_of_cons; left.
Qed.

(** A running attempt stays one until its task's promise settles. *)
Lemma step_running_keep cfg w e w' p :
  Inv cfg w → step cfg w e = Some w' → p ∈ running w →
  (∀ c, e ≠ TaskSettles p c) → p ∈ running w'.
Proof.
  intros HI Hstep Hp Hne. pose proof (Foot_step cfg w e w' HI Hstep) as HF.
  assert (Hgrow : ∀ W, running W = running w → Foot cfg [] W w' ∨
                        (∃ R, Foot cfg R W w') → p ∈ running w').
  { intros W HW [HF'|[R HF']];
      destruct (foot_running _ _ _ _ HF') as [ps ->];
      rewrite HW; apply elem_of_app; by left. }
  destruct e as [|flag| |t|p' c| |t].
  - apply (Hgrow w); [done|by left].
  - apply (Hgrow w); [done|by left].
  - apply (Hgrow w); [done|by left].
  - apply (Hgrow w); [done|by left].
  - destruct HF as [Hp' ->].
    destruct (resume_fields cfg p' c w) as (_&_&_&_&_&->&_).
    apply list_elem_of_filter. split; [|done]. intros ->. by destruct (Hne c).
  - destruct HF as (f & c & rest & Hq & HF).
    apply (Hgrow (popped f rest w)); [done|]. right. by eexists.
  - by subst.
Qed.

(** A suspended call stays suspended until the microtask queue resumes
    it. *)
Lemma step_frames cfg w e w' f :
  Inv cfg w → step cfg w e = Some w' → f ∈ frames w →
  f ∈ frames w' ∨ (e = Microtask ∧ ∃ c rest, queue w = (f, c) :: rest).
Proof.
  intros HI Hstep Hf. pose proof (Foot_step cfg w e w' HI Hstep) as HF.
  assert (Hgrow : ∀ R W, Foot cfg R W w' → f ∈ frames W → f ∈ frames w').
  { intros R W HF' [[c Hc]|[q Hq]]%elem_of_frames; apply elem_of_frames.
    - left. exists c. destruct (foot_queue _ _ _ _ HF') as [js ->].
      apply elem_of_app. by left.
    - right. exists q. destruct (foot_reactions _ _ _ _ HF' q) as [fs ->].
      apply elem_of_app. by left. }
  destruct e as [|flag| |t|p c| |t].
  - left. by apply (Hgrow [] w).
  - left. by apply (Hgrow [] w).
  - left. by apply (Hgrow [] w).
  - left. by apply (Hgrow [] w).
  - left. destruct HF as [Hp ->].
    assert (Hpp : pending w p) by by apply (inv_pending _ _ HI), running_owned.
    apply elem_of_frames in Hf as [[c' Hc]|[q Hq]]; apply elem_of_frames.
    + left. exists c'. rewrite resume_queue by done. apply elem_of_app. by left.
    + destruct (decide (q = p)) as [->|Hne].
      * left. exists (attemptOutcome cfg c). rewrite resume_queue by done.
        apply elem_of_app. right.
        by apply (list_elem_of_fmap_2 (λ f, (f, attemptOutcome cfg c))).
      * right. exists q. by rewrite resume_reactions_other.
  - destruct HF as (g & c & rest & Hq & HF).
    destruct (decide (f = g)) as [->|Hne]; [right; split; [done|by exists c, rest]|].
    left. apply (Hgrow _ _ HF).
    apply elem_of_frames in Hf as [[c' Hc]|[q Hq']]; apply elem_of_frames.
    + left. exists c'. rewrite Hq in Hc. apply elem_of_cons in Hc as [[= -> ->]|Hc];
        [done|]. done.
    + right. by exists q.
  - subst. by left.
Qed.


(** A [Tick] finds the handle set and does nothing. *)
Lemma tick_discarded cfg w t p :
  _currentExecutionPromise w = Some p → t ∈ timers w →
  step cfg w (Tick t) = Some w.
Proof.
  intros Hp Ht. unfold step, intervalCallback. by rewrite decide_True, Hp.
Qed.

Lemma execute_TaskReturns cfg w :
  _asyncTask w = TaskReturns →
  _executeTaskAndUpdateState cfg w =
  (length (promises w),
   set_running (running w ++ [length (promises w)])
     (snd (newPromise Pending (set_invocations (S (invocations w)) w)))).
Proof.
  intros Ht. unfold _executeTaskAndUpdateState. rewrite execute_with_eq, Ht.
  done.
Qed.

(** A [Tick] finds the handle empty and begins an attempt; with a task that
    returns its promise at once, this is the state it leaves. *)
Lemma tick_begins cfg w t :
  _currentExecutionPromise w = None → t ∈ timers w →
  _asyncTask w = TaskReturns →
  step cfg w (Tick t) =
  Some (set_currentExecutionPromise (Some (length (promises w)))
          (set_running (running w ++ [length (promises w)])
             (snd (newPromise Pending (set_invocations (S (invocations w)) w))))).
Proof.
  intros Hn Ht Htask. unfold step. rewrite decide_True by done.
  rewrite intervalCallback_eq, Hn. by rewrite execute_TaskReturns.
Qed.




(** ** The calls, field by field *)

Lemma stop_call_eq w :
  stop w =
  (length (promises w), stop_from (length (promises w)) (snd (newPromise Pending w))).
Proof. done. Qed.

Lemma await_queue_cases q f w :
  queue (await q f w) = queue w ∨ ∃ c, queue (await q f w) = queue w ++ [(f, c)].
Proof.
  unfold await. destruct (promises w !! q) as [[[|v|e] rs]|]; simpl; eauto.
Qed.

Lemma start_from_ctrl cfg r w :
  _status w ≠ inactive → ctrl (start_from cfg r w) = ctrl w.
Proof.
  intros Hs. unfold start_from. destruct (_status w) eqn:E; [| done |].
  - rewrite start_from_with_active by done. apply settle_ctrl.
  - rewrite start_from_with_terminating by done.
    by apply suspend_ctrl, surjective_pairing.
Qed.

Lemma stop_from_ctrl r w : _status w ≠ active → ctrl (stop_from r w) = ctrl w.
Proof.
  intros Hs. destruct (_status w) eqn:E; [done| |].
  - rewrite stop_from_inactive by done. apply settle_ctrl.
  - rewrite stop_from_terminating by done.
    by apply suspend_ctrl, surjective_pairing.
Qed.

(** [stop()] on 'active', up to its [await]: the state [W] in which the
    call suspends. *)
Lemma stop_from_active_fields r w :
  _status w = active →
  _status (stop_from r w) = terminating ∧
  _timerHandle (stop_from r w) = None ∧
  timers (stop_from r w) =
    match _timerHandle w with
    | Some t => filter (λ t', t' ≠ t) (timers w)
    | None => timers w
    end ∧
  _currentExecutionPromise (stop_from r w) = _currentExecutionPromise w ∧
  running (stop_from r w) = running w ∧
  _asyncTask (stop_from r w) = _asyncTask w.
Proof.
  intros Hs. rewrite stop_from_active by done. cbv zeta.
  match goal with |- context [waitUntilCurrentExecutionCompletes ?W] =>
    pose proof (suspend_ctrl W _ _ (StopActive r) (surjective_pairing _)) as Hc
  end.
  apply ctrl_fields in Hc as (-> & -> & -> & -> & -> & -> & _).
  by destruct (_timerHandle w).
Qed.

Lemma stop_from_active_queue r w p :
  _status w = active → _currentExecutionPromise w = Some p →
  stateOf w p = Some Pending → queue (stop_from r w) = queue w.
Proof.
  intros Hs Hp Hpp. rewrite stop_from_active by done. cbv zeta.
  set (W := set_timerHandle None
              (clearInterval (_timerHandle w) (set_status terminating w))).
  assert (HW : promises W = promises w ∧ queue W = queue w ∧
               _currentExecutionPromise W = Some p).
  { unfold W. rewrite <- Hp. by destruct (_timerHandle w). }
  destruct HW as (HP & HQ & HH).
  assert (Hw : waitUntilCurrentExecutionCompletes W = (p, W)).
  { unfold waitUntilCurrentExecutionCompletes. by rewrite HH. }
  rewrite Hw. cbn [fst snd].
  assert (HpW : pending W p) by (unfold pending; by rewrite (same_stateOf w W)).
  destruct (await_pending p (StopActive r) W HpW) as [_ ->]. done.
Qed.

(** [start()] from 'inactive' with a task that returns its promise at
    once. *)
Lemma start_from_inactive_fields cfg r w :
  _status w = inactive → _asyncTask w = TaskReturns →
  _status (start_from cfg r w) = active ∧
  _timerHandle (start_from cfg r w) = Some (nextTimer w) ∧
  timers (start_from cfg r w) = timers w ++ [nextTimer w] ∧
  _asyncTask (start_from cfg r w) = TaskReturns ∧
  if truthy (immediateFirstRun (_options cfg)) then
    invocations (start_from cfg r w) = S (invocations w) ∧
    _currentExecutionPromise (start_from cfg r w) = Some (length (promises w)) ∧
    running (start_from cfg r w) = running w ++ [length (promises w)]
  else
    invocations (start_from cfg r w) = invocations w ∧
    _currentExecutionPromise (start_from cfg r w) = _currentExecutionPromise w ∧
    running (start_from cfg r w) = running w.
Proof.
  intros Hs Htask. unfold start_from.
  rewrite start_from_with_inactive by done. cbv zeta.
  destruct (truthy (immediateFirstRun (_options cfg))).
  - rewrite execute_TaskReturns by done. cbn [fst snd].
    match goal with |- context [settle ?r ?c ?W] =>
      pose proof (settle_ctrl r c W) as Hc; set (w' := settle r c W) in *
    end.
    apply ctrl_fields in Hc as (C1 & C2 & C3 & C4 & C5 & C6 & C7 & C8).
    by rewrite C1, C2, C3, C4, C5, C6, C7.
  - match goal with |- context [settle ?r ?c ?W] =>
      pose proof (settle_ctrl r c W) as Hc; set (w' := settle r c W) in *
    end.
    apply ctrl_fields in Hc as (C1 & C2 & C3 & C4 & C5 & C6 & C7 & C8).
    by rewrite C1, C2, C3, C4, C5, C6, C7.
Qed.

(** ** A task that returns its promise and calls nothing *)

Lemma no_stopActive cfg w r c :
  Inv cfg w → _status w ≠ terminating → (StopActive r, c) ∉ queue w.
Proof.
  intros HI Hs Hin. pose proof (inv_stop _ _ HI) as Hle.
  rewrite decide_False in Hle by done.
  assert (1 ≤ stopActives (frames w)); [|lia].
  apply (stopActives_elem r), elem_of_frames. left. by exists c.
Qed.

Lemma filter_ne_singleton (p : nat) : filter (λ p', p' ≠ p) [p] = [].
Proof. by rewrite filter_cons_False by naive_solver. Qed.

Lemma Calm_ctrl w w' :
  ctrl w' = ctrl w →
  (∀ r c, (StopActive r, c) ∈ queue w' → _currentExecutionPromise w' = None) →
  Calm w → Calm w'.
Proof.
  intros Hc Hq [C1 C2 C3 C4 C5 C6].
  apply ctrl_fields in Hc as (E1 & E2 & E3 & E4 & E5 & E6 & E7 & E8).
  split.
  - by rewrite E4.
  - by rewrite E6, E3.
  - by rewrite E1, E3.
  - by rewrite E1, E2, E5.
  - by rewrite E1, E5.
  - done.
Qed.

Lemma suspend_queue_elem f g c w :
  (g, c) ∈ queue (await (fst (waitUntilCurrentExecutionCompletes w)) f
                    (snd (waitUntilCurrentExecutionCompletes w))) →
  g ≠ f → (g, c) ∈ queue w.
Proof.
  intros Hin Hne.
  destruct (await_queue_cases (fst (waitUntilCurrentExecutionCompletes w)) f
              (snd (waitUntilCurrentExecutionCompletes w))) as [E|[c' E]];
    rewrite E, wait_queue in Hin; [done|].
  apply elem_of_app in Hin as [Hin|Hin%list_elem_of_singleton]; [done|].
  congruence.
Qed.

Lemma Calm_running_elem w p :
  Calm w → p ∈ running w → _currentExecutionPromise w = Some p.
Proof.
  intros HC Hp. rewrite (calm_running _ HC) in Hp.
  destruct (_currentExecutionPromise w) as [q|].
  - apply list_elem_of_singleton in Hp. by subst.
  - by apply elem_of_nil in Hp.
Qed.

(** [start()], from the call or from its loop. *)
Lemma Calm_start_from cfg r w :
  Inv cfg (start_from cfg r w) → Calm w → Calm (start_from cfg r w).
Proof.
  intros HI' HC. destruct (decide (_status w = inactive)) as [Hs|Hs].
  - destruct (start_from_inactive_fields cfg r w Hs (calm_task _ HC))
      as (S1 & S2 & S3 & S4 & S5).
    assert (Hh : _currentExecutionPromise w = None) by by apply (calm_inactive _ HC).
    assert (Hr : running w = []) by (rewrite (calm_running _ HC); by rewrite Hh).
    assert (Ht : timers w = []) by (apply (calm_idle _ HC); by rewrite Hs).
    split.
    + done.
    + destruct (truthy (immediateFirstRun (_options cfg))).
      * destruct S5 as (_ & -> & ->). by rewrite Hr.
      * destruct S5 as (_ & -> & ->). by rewrite Hr, Hh.
    + by rewrite S1.
    + intros _. exists (nextTimer w). by rewrite S2, S3, Ht.
    + by rewrite S1.
    + intros r' c Hin. exfalso. eapply (no_stopActive cfg); [done| |done].
      by rewrite S1.
  - pose proof (start_from_ctrl cfg r w Hs) as Hc.
    apply (Calm_ctrl w); [done| |done].
    intros r' c Hin.
    apply ctrl_fields in Hc as (E1 & _ & E3 & _). rewrite E3.
    destruct (_status w) eqn:E; [|done|].
    + exfalso. eapply (no_stopActive cfg); [done| |done]. by rewrite E1.
    + apply (calm_queued _ HC r' c). unfold start_from in Hin.
      rewrite start_from_with_terminating in Hin by done.
      by apply suspend_queue_elem in Hin.
Qed.

Lemma Calm_newPromise s w : Calm w → Calm (snd (newPromise s w)).
Proof. intros HC. by apply (Calm_ctrl w); [|apply HC|]. Qed.

Lemma Calm_stop_from cfg r w :
  Inv cfg w → pending w r → reactionsOf w r = [] → Calm w → Calm (stop_from r w).
Proof.
  intros HI Hr Hrs HC. destruct (decide (_status w = active)) as [Hs|Hs].
  - destruct (stop_from_active_fields r w Hs) as (S1 & S2 & S3 & S4 & S5 & S6).
    destruct (calm_active _ HC Hs) as (t & Ht & Hts).
    split.
    + rewrite S6. apply HC.
    + rewrite S4, S5. apply HC.
    + by rewrite S1.
    + by rewrite S1.
    + intros _. rewrite S3, Ht, Hts. apply filter_ne_singleton.
    + intros r' c Hin. rewrite S4.
      destruct (_currentExecutionPromise w) as [p|] eqn:Hp; [exfalso|done].
      assert (Hrun : p ∈ running w).
      { rewrite (calm_running _ HC), Hp. by apply list_elem_of_singleton. }
      assert (Hpp : pending w p) by by apply (inv_pending cfg w HI), running_owned.
      rewrite (stop_from_active_queue r w p Hs Hp Hpp) in Hin.
      eapply (no_stopActive cfg w); [done| |done]. by rewrite Hs.
  - pose proof (stop_from_ctrl r w Hs) as Hc.
    apply (Calm_ctrl w); [done| |done].
    intros r' c Hin.
    apply ctrl_fields in Hc as (E1 & _ & E3 & _). rewrite E3.
    destruct (_status w) eqn:E; [done| |].
    + rewrite stop_from_inactive in Hin by done.
      rewrite settle_queue, Hrs in Hin by done. simpl in Hin.
      rewrite app_nil_r in Hin.
      exfalso. eapply (no_stopActive cfg w); [done| |done]. by rewrite E.
    + apply (calm_queued _ HC r' c).
      rewrite stop_from_terminating in Hin by done.
      by apply suspend_queue_elem in Hin.
Qed.

Lemma Calm_step cfg w e w' :
  handlerNeverThrows cfg → Inv cfg w → Calm w → (∀ t, e ≠ TaskBecomes t) →
  step cfg w e = Some w' → Calm w'.
Proof.
  intros Hh HI HC He Hstep.
  pose proof (Inv_step cfg w e w' HI Hstep) as HI'.
  destruct e as [|flag| |t|p c| |t]; unfold step in Hstep.
  - apply (inj Some) in Hstep as <-. rewrite start_call_eq in *. cbn [snd] in *.
    apply Calm_start_from; [done|]. by apply Calm_newPromise.
  - apply (inj Some) in Hstep as <-. rewrite stop_call_eq. cbn [snd].
    apply (Calm_stop_from cfg).
    + by apply Inv_newPromise.
    + apply stateOf_newPromise_new.
    + rewrite reactionsOf_newPromise. apply reactionsOf_ge. lia.
    + by apply Calm_newPromise.
  - apply (inj Some) in Hstep as <-.
    apply (Calm_ctrl w); [apply wait_ctrl| |done].
    intros r c Hin. rewrite wait_queue in Hin.
    pose proof (wait_ctrl w) as Hc.
    apply ctrl_fields in Hc as (_ & _ & -> & _). by apply (calm_queued _ HC r c).
  - destruct (decide (t ∈ timers w)) as [Ht|]; [|done].
    assert (Hs : _status w = active).
    { destruct (decide (_status w = active)) as [|Hn]; [done|].
      rewrite (calm_idle _ HC Hn) in Ht. by apply elem_of_nil in Ht. }
    destruct (_currentExecutionPromise w) as [p|] eqn:Hp.
    + pose proof (tick_discarded cfg w t p Hp Ht) as E. unfold step in E.
      rewrite decide_True in E by done. congruence.
    + pose proof (tick_begins cfg w t Hp Ht (calm_task _ HC)) as E.
      unfold step in E. rewrite decide_True in E by done.
      rewrite E in Hstep. apply (inj Some) in Hstep as <-.
      assert (Hr : running w = [])
        by (rewrite (calm_running _ HC); by rewrite Hp).
      split; cbn.
      * apply HC.
      * by rewrite Hr.
      * by rewrite Hs.
      * intros _. by apply (calm_active _ HC).
      * by rewrite Hs.
      * intros r c Hin. exfalso. eapply (no_stopActive cfg w); [done| |done].
        by rewrite Hs.
  - destruct (decide (p ∈ running w)) as [Hp|]; [|done].
    apply (inj Some) in Hstep as <-.
    destruct (resume_fields cfg p c w) as (F1 & F2 & F3 & F4 & F5 & F6 & F7 & F8).
    rewrite attemptOutcome_Normal in F8 by done.
    pose proof (Calm_running_elem w p HC Hp) as Hhp.
    split.
    + rewrite F4. apply HC.
    + rewrite F8, F6, (calm_running _ HC), Hhp. apply filter_ne_singleton.
    + done.
    + rewrite F1, F2, F3. apply HC.
    + rewrite F1, F3. apply HC.
    + done.
  - destruct (queue w) as [|[f c] rest] eqn:Hq; [done|].
    apply (inj Some) in Hstep as <-.
    destruct c as [v|e].
    2:{ exfalso. destruct (Inv_noRejection cfg w Hh HI) as [_ Hn].
        apply (Hn f e). rewrite Hq. apply list_elem_of_here. }
    destruct (Inv_pop cfg w f (Normal v) rest HI Hq) as (HIp & HLp & Hterm).
    rewrite resume_popped in *.
    assert (Hsub : ∀ j, j ∈ rest → j ∈ queue w).
    { intros j Hj. rewrite Hq. by apply list_elem_of_further. }
    destruct f as [r|r|r].
    + apply Calm_start_from; [done|].
      apply (Calm_ctrl w); [done| |done].
      intros r' c Hin. by apply (calm_queued _ HC r' c), Hsub.
    + apply (Calm_ctrl w);
        [exact (settle_ctrl r _ (popped (StopTerminating r) rest w))| |done].
      intros r' c Hin.
      destruct HLp as [_ HLp]. destruct (HLp r) as [Hpr Hnr].
      { by apply list_elem_of_singleton. }
      rewrite settle_queue in Hin by done.
      rewrite (live_no_reactions cfg _ r HIp Hnr) in Hin. simpl in Hin.
      rewrite app_nil_r in Hin.
      pose proof (settle_ctrl r (Normal (JSBoolean false))
                    (popped (StopTerminating r) rest w)) as Hc.
      apply ctrl_fields in Hc as (_ & _ & -> & _).
      by apply (calm_queued _ HC r' c), Hsub.
    + assert (Hnone : _currentExecutionPromise w = None).
      { apply (calm_queued _ HC r (Normal v)). rewrite Hq.
        apply list_elem_of_here. }
      pose proof (settle_ctrl r (Normal (JSBoolean true))
                    (popped (StopActive r) rest w)) as Hc.
      apply ctrl_fields in Hc as (E1 & E2 & E3 & E4 & E5 & E6 & _).
      split; rewrite ?E1, ?E2, ?E3, ?E4, ?E5, ?E6; cbn.
      * apply HC.
      * apply HC.
      * done.
      * done.
      * intros _. apply (calm_idle _ HC). by rewrite Hterm.
      * done.
  - by destruct (He t).
Qed.

Lemma Calm_initial : Calm initial.
Proof. by split. Qed.

Lemma Plain_Reachable cfg w : Plain cfg w → Reachable cfg w.
Proof.
  induction 1 as [|w e w' _ IH _ Hstep]; [constructor|].
  by apply (Reachable_step cfg w e w').
Qed.

Lemma Plain_Calm cfg w : handlerNeverThrows cfg → Plain cfg w → Calm w.
Proof.
  intros Hh. induction 1 as [|w e w' HP IH He Hstep]; [apply Calm_initial|].
  apply (Calm_step cfg w e w'); try done.
  by apply Reachable_Inv, Plain_Reachable.
Qed.

Lemma Plain_run cfg w es w' :
  Plain cfg w → Forall (λ e, ∀ t, e ≠ TaskBecomes t) es →
  run cfg w es = Some w' → Plain cfg w'.
Proof.
  intros HP Hes. revert w HP. induction Hes as [|e es He _ IH]; intros w HP Hrun.
  - simpl in Hrun. congruence.
  - simpl in Hrun. destruct (step cfg w e) as [w1|] eqn:Hstep; [|done].
    apply (IH w1); [|done]. by apply (Plain_step cfg w e w1).
Qed.

(** * The scenarios of the test suite *)

(** The model replays [non-overlapping-recurring-task.test.js].  Promises
    are numbered in the order of their creation: with [immediateFirstRun]
    the first [start()] returns promise 0 and its attempt has promise 1.
    The task of the suite returns a promise and calls nothing, which is
    how [initial] has it. *)

(** skippedExecutionsTest: ticks that fall into a running attempt begin
    nothing; the first tick after it has completed begins the next one. *)
Example test_skipped_executions :
  ∃ w, run (testConfig true None) initial
         [CallStart; Tick 0; Tick 0; Tick 0;
          TaskSettles 1 (Normal JSUndefined); Tick 0] = Some w ∧
       status w = active ∧ isCurrentlyExecuting w = true ∧ invocations w = 2.
Proof. eexists. split; [vm_compute; reflexivity|]. vm_compute. done. Qed.

(** stopShouldAwaitOngoingExecutionTest: [stop()] during an attempt leaves
    the status at 'terminating' until the attempt completes. *)
Example test_stop_awaits_ongoing_execution :
  ∃ w1 w2,
    run (testConfig true None) initial [CallStart; CallStop false] = Some w1 ∧
    status w1 = terminating ∧ isCurrentlyExecuting w1 = true ∧
    stateOf w1 2 = Some Pending ∧
    run (testConfig true None) w1 [TaskSettles 1 (Normal JSUndefined); Microtask]
      = Some w2 ∧
    status w2 = inactive ∧ isCurrentlyExecuting w2 = false ∧
    stateOf w2 2 = Some (Fulfilled (JSBoolean true)) ∧ invocations w2 = 1.
Proof.
  eexists _, _. split; [vm_compute; reflexivity|].
  do 3 (split; [vm_compute; reflexivity|]).
  split; [vm_compute; reflexivity|]. vm_compute. done.
Qed.

(** startShouldWaitForPreviousExecutionTest: [start()] during 'terminating'
    stays pending; once the attempt has completed, [stop()] resolves true,
    [start()] resolves true, and a new attempt is running. *)
Example test_start_waits_for_previous_execution :
  ∃ w1 w2,
    run (testConfig true None) initial [CallStart; CallStop false; CallStart]
      = Some w1 ∧
    status w1 = terminating ∧ stateOf w1 3 = Some Pending ∧
    run (testConfig true None) w1
      [TaskSettles 1 (Normal JSUndefined); Microtask; Microtask] = Some w2 ∧
    status w2 = active ∧ isCurrentlyExecuting w2 = true ∧
    stateOf w2 2 = Some (Fulfilled (JSBoolean true)) ∧
    stateOf w2 3 = Some (Fulfilled (JSBoolean true)) ∧ invocations w2 = 2.
Proof.
  eexists _, _. split; [vm_compute; reflexivity|].
  do 2 (split; [vm_compute; reflexivity|]).
  split; [vm_compute; reflexivity|]. vm_compute. done.
Qed.

(** noSkippedExecutionsTest with a failing task and no error handler: every
    tick begins an attempt. *)
Example test_failing_task_without_handler :
  ∃ w, run (testConfig false None) initial
         [CallStart; Tick 0; TaskSettles 1 (Throw taskError);
          Tick 0; TaskSettles 2 (Throw taskError); Tick 0] = Some w ∧
       status w = active ∧ isCurrentlyExecuting w = true ∧
       invocations w = 3 ∧ handled w = [].
Proof. eexists. split; [vm_compute; reflexivity|]. vm_compute. done. Qed.

(** The constructor tests: the values the suite expects to be rejected. *)
Example test_invalid_intervalMs :
  Forall (λ q, ∃ err, construct {| intervalMs := JSNum (JSFinite q);
                                   immediateFirstRun := JSBoolean true |} None
                        = inl err)
    [(-14847)%Q; (-50001 # 10000)%Q; (-4)%Q; (-2 # 100)%Q; 0%Q; (48 # 100)%Q;
     (43 # 10)%Q; (45001 # 1000)%Q; (6007 # 10)%Q].
Proof. repeat constructor; eexists; vm_compute; reflexivity. Qed.

Example test_invalid_immediateFirstRun :
  Forall (λ v, ∃ err, construct {| intervalMs := JSNum (JSFinite 6000);
                                   immediateFirstRun := v |} None = inl err)
    [JSNum (JSFinite (-14847)); JSNum (JSFinite (-50001 # 10000));
     JSNum (JSFinite 0); JSNum (JSFinite 1); JSString "true"; JSObject;
     JSObject; JSString "false"; JSString "0"; JSNull; JSUndefined].
Proof. repeat constructor; eexists; vm_compute; reflexivity. Qed.

(** Two tasks the suite does not have.  A task that calls [stop()] before
    it returns its promise: the call finds no execution handle (it is
    assigned once the task has returned), so one microtask later the
    instance is 'inactive' with the attempt still running and the timer
    that [start()] went on to arm. *)
Example test_task_stops_its_instance :
  ∃ w, run (testConfig true None) initial
         [TaskBecomes stopsItself; CallStart; Microtask] = Some w ∧
       status w = inactive ∧ isCurrentlyExecuting w = true ∧
       running w = [1] ∧ timers w = [0] ∧ _timerHandle w = Some 0 ∧
       stateOf w 2 = Some (Fulfilled (JSBoolean true)).
Proof. eexists. split; [vm_compute; reflexivity|]. vm_compute. done. Qed.

(** A task that throws before it returns: the attempt is over when
    [_executeTaskAndUpdateState()] returns, and the handle is assigned its
    promise afterwards. *)
Example test_task_throws_synchronously :
  ∃ w, run (testConfig true None) initial
         [TaskBecomes throwsAtOnce; CallStart] = Some w ∧
       status w = active ∧ isCurrentlyExecuting w = true ∧
       running w = [] ∧ stateOf w 1 = Some (Fulfilled JSUndefined).
Proof. eexists. split; [vm_compute; reflexivity|]. vm_compute. done. Qed.

(** * The specification *)

(** ** Validation *)

Lemma isNaturalNumber_finite q :
  isNaturalNumber (JSNum (JSFinite q)) = true ↔
  ∃ p : positive, Qeq q (inject_Z (Zpos p)).
Proof.
  unfold isNaturalNumber; simpl. rewrite andb_true_iff, Qeq_bool_iff.
  split.
  - intros [Hge Heq]. apply Qle_bool_iff in Hge.
    change 1%Q with (inject_Z 1) in Hge. rewrite <- Zle_Qle in Hge.
    destruct (Qfloor q) as [|p|p]; try lia. exists p. by symmetry.
  - intros [p Hp].
    assert (Hfl : Qfloor q = Zpos p) by (rewrite Hp; apply Qfloor_Z).
    rewrite Hfl. split; [|by symmetry].
    apply Qle_bool_iff. change 1%Q with (inject_Z 1). rewrite <- Zle_Qle. lia.
Qed.

Lemma isNaturalNumber_positive_integer v :
  v ≠ JSNum (JSInfinity false) →
  isNaturalNumber v = true ↔ isPositiveInteger v.
Proof.
  intros Hinf. unfold isPositiveInteger. split.
  - destruct v as [| | |[|[]|q]| | |]; try done.
    intros [p Hp]%isNaturalNumber_finite. by exists p, q.
  - intros (p & q & -> & Hq). apply isNaturalNumber_finite. by exists p.
Qed.

Lemma typeof_boolean v : String.eqb (typeof v) "boolean" = true ↔ isBoolean v.
Proof.
  unfold isBoolean. split.
  - destruct v; try done. eauto.
  - by intros [b ->].
Qed.

(** Apart from [Infinity], the constructor rejects exactly the options whose
    [intervalMs] is not a positive integer or whose [immediateFirstRun] is
    not a boolean, and an accepted instance starts out inactive. *)
Lemma construct_validates o h :
  intervalMs o ≠ JSNum (JSInfinity false) →
  ((∃ err, construct o h = inl err) ↔
     ¬ isPositiveInteger (intervalMs o) ∨ ¬ isBoolean (immediateFirstRun o)) ∧
  (isPositiveInteger (intervalMs o) → isBoolean (immediateFirstRun o) →
     construct o h = inr ({| _options := o; _onTaskError := h |}, initial)).
Proof.
  intros Hinf. unfold construct, _validateOptions.
  pose proof (isNaturalNumber_positive_integer _ Hinf) as Hn.
  pose proof (typeof_boolean (immediateFirstRun o)) as Hb.
  destruct (isNaturalNumber (intervalMs o)); simpl.
  - destruct (String.eqb _ _); simpl.
    + split; [|done]. split; [by intros [? ?]|].
      intros [H|H]; exfalso; apply H; [by apply Hn|by apply Hb].
    + split.
      * split; [|eauto]. intros _. right. intros H. by apply Hb in H.
      * intros _ H. by apply Hb in H.
  - split.
    + split; [|eauto]. intros _. left. intros H. by apply Hn in H.
    + intros H. by apply Hn in H.
Qed.

(** C5. The constructor is meant to fail exactly when [intervalMs] is not a
    positive integer or [immediateFirstRun] is not a boolean.  [Infinity] is
    not a positive integer, yet [isNaturalNumber] lets it through and the
    constructor returns an instance. *)
Theorem constructor_accepts_Infinity :
  construct {| intervalMs := JSNum (JSInfinity false);
               immediateFirstRun := JSBoolean true |} None
    = inr ({| _options := {| intervalMs := JSNum (JSInfinity false);
                             immediateFirstRun := JSBoolean true |};
              _onTaskError := None |}, initial) ∧
  ¬ isPositiveInteger (JSNum (JSInfinity false)).
Proof.
  split; [reflexivity|]. by intros (p & q & [=] & _).
Qed.

(** ** The final run *)

Lemma stop_from_ctrl_invocations r w :
  invocations (stop_from r w) = invocations w.
Proof.
  destruct (_status w) eqn:Hs.
  - rewrite stop_from_active by done. cbv zeta.
    match goal with |- context [waitUntilCurrentExecutionCompletes ?W] =>
      pose proof (await_ctrl (fst (waitUntilCurrentExecutionCompletes W))
                    (StopActive r) (snd (waitUntilCurrentExecutionCompletes W))) as Ha;
      pose proof (wait_ctrl W) as Hw
    end.
    apply ctrl_fields in Ha as (_&_&_&_&_&_&->&_).
    apply ctrl_fields in Hw as (_&_&_&_&_&_&->&_).
    cbn [invocations set_timerHandle].
    by destruct (clearInterval_ctrl (_timerHandle w) (set_status terminating w))
      as (_&_&_&_&_&_&->&_).
  - rewrite stop_from_inactive by done.
    pose proof (settle_ctrl r (Normal (JSBoolean false)) w) as Hc.
    by apply ctrl_fields in Hc as (_&_&_&_&_&_&->&_).
  - rewrite stop_from_terminating by done.
    pose proof (suspend_ctrl w _ _ (StopTerminating r) (surjective_pairing _)) as Hc.
    by apply ctrl_fields in Hc as (_&_&_&_&_&_&->&_).
Qed.

(** C2. [stop(true)] is meant to begin one more attempt and to wait for it.
    The method takes no parameter: with the flag set it does what it does
    without it, and neither the call nor its resumption invokes the task.
    In the scenario of the test suite ([immediateFirstRun], the first
    attempt has completed, then [stop(true)]) the task has been invoked
    once, not twice, when the call resolves true and the status is
    'inactive'. *)
Theorem stop_ignores_shouldExecuteFinalRun :
  (∀ cfg w, step cfg w (CallStop true) = step cfg w (CallStop false)) ∧
  (∀ w, invocations (snd (stop w)) = invocations w) ∧
  (∀ cfg r c w, invocations (resume cfg (StopActive r, c) w) = invocations w) ∧
  ∃ w, run (testConfig true None) initial
         [CallStart; TaskSettles 1 (Normal JSUndefined); CallStop true; Microtask]
         = Some w ∧
       status w = inactive ∧ invocations w = 1 ∧
       stateOf w 2 = Some (Fulfilled (JSBoolean true)).
Proof.
  split_and!.
  - done.
  - intros w.
    change (snd (stop w))
      with (stop_from (length (promises w)) (snd (newPromise Pending w))).
    by rewrite stop_from_ctrl_invocations.
  - intros cfg r c w. unfold resume.
    destruct c;
      match goal with |- context [settle ?r ?c ?W] =>
        pose proof (settle_ctrl r c W) as Hc end;
      by apply ctrl_fields in Hc as (_&_&_&_&_&_&?&_).
  - eexists. split; [vm_compute; reflexivity|]. vm_compute. done.
Qed.

(** ** start *)

Lemma Foot_execute_status cfg w :
  Inv cfg w → _status w ≠ inactive →
  _status (snd (_executeTaskAndUpdateState cfg w)) ≠ inactive.
Proof.
  intros HI Hs.
  destruct (execute_OK cfg [] w HI (Live_nil w)) as (_ & _ & HF & _).
  by apply (foot_status _ _ _ _ HF).
Qed.

(** The body of [start()], run from its head in a state [W] where the
    promise [r] of the call is the call's own. *)
Lemma start_from_spec cfg r W :
  Inv cfg W → Live [r] W → startRan cfg W r (start_from cfg r W).
Proof.
  intros HI HL. pose proof HL as (_ & Hp & Ho & _)%Live_cons.
  unfold startRan, start_from. destruct (_status W) eqn:Hs.
  - (* active *)
    rewrite start_from_with_active by done.
    assert (Hr : stateOf (settle r (Normal (JSBoolean false)) W) r
                 = Some (Fulfilled (JSBoolean false))) by by apply settle_result.
    split; [split; [congruence|done]|]. split_and!; [done|apply settle_ctrl|].
    intros i Hne. by apply settle_other.
  - (* inactive *)
    rewrite start_from_with_inactive by done. cbv zeta.
    set (w0 := set_status active W).
    assert (HI0 : Inv cfg w0) by (apply Inv_status; [done|congruence|done]).
    assert (HL0 : Live [r] w0) by by apply (Live_same _ W).
    set (w1 := if truthy (immediateFirstRun (_options cfg)) then
      set_currentExecutionPromise
        (Some (fst (_executeTaskAndUpdateState cfg w0)))
        (snd (_executeTaskAndUpdateState cfg w0))
      else w0).
    assert (Live [r] w1 ∧ _status w1 ≠ inactive ∧
            if truthy (immediateFirstRun (_options cfg))
            then invocations W < invocations w1 ∧ isCurrentlyExecuting w1 = true ∧
                 (_asyncTask W = TaskReturns → _status w1 = active)
            else invocations w1 = invocations W ∧ running w1 = running W ∧
                 _status w1 = active) as (HL1 & Hs1 & Hrun).
    { unfold w1. destruct (truthy _); [|done].
      destruct (execute_OK cfg [r] w0 HI0 HL0) as (HI1 & HL1 & HF1 & _ & Hinv).
      split; [|split].
      - by eapply Live_same; [| | |exact HL1].
      - by apply (foot_status _ _ _ _ HF1).
      - split; [done|]. split; [done|]. intros Ht.
        by rewrite (execute_TaskReturns cfg w0 Ht). }
    set (w2 := set_timerHandle (Some (nextTimer w1)) (snd (setInterval w1))).
    assert (HL2 : Live [r] w2) by by apply (Live_same _ w1).
    apply Live_cons in HL2 as (_ & Hp2 & _ & _).
    assert (Hr : stateOf (settle r (Normal (JSBoolean true)) w2) r
                 = Some (Fulfilled (JSBoolean true))) by by apply settle_result.
    pose proof (settle_ctrl r (Normal (JSBoolean true)) w2) as Hc.
    apply ctrl_fields in Hc as (C1 & C2 & C3 & _ & C5 & C6 & C7 & _).
    split; [done|]. split_and!.
    + done.
    + by rewrite C1.
    + exists (nextTimer w1). rewrite C2, C5. split; [done|].
      simpl. apply elem_of_app. right. by apply list_elem_of_singleton.
    + unfold isCurrentlyExecuting. rewrite C1, C3, C6, C7. exact Hrun.
  - (* terminating *)
    rewrite start_from_with_terminating by done.
    assert (Hr : stateOf (await (fst (waitUntilCurrentExecutionCompletes W))
                            (StartLoop r)
                            (snd (waitUntilCurrentExecutionCompletes W))) r
                 = Some Pending).
    { rewrite await_state.
      destruct (wait_cases W) as [(p & _ & ->)|[_ ->]]; [done|].
      by apply stateOf_newPromise_Some. }
    split; [split; [congruence|done]|]. split_and!.
    + done.
    + by apply suspend_ctrl, surjective_pairing.
    + destruct (wait_OK cfg [r] W HI HL) as (HI1 & _ & _ & Hq).
      assert (∃ s, stateOf (snd (waitUntilCurrentExecutionCompletes W))
                     (fst (waitUntilCurrentExecutionCompletes W)) = Some s)
        as [s Hst].
      { destruct Hq as [Hq|(s & Hst & _)]; [|by exists s].
        exists Pending. by apply (inv_pending _ _ HI1), running_owned. }
      rewrite (await_frames _ _ _ s Hst). by apply elem_of_cons; left.
Qed.

Lemma startRan_ctrl cfg w W r w' :
  ctrl W = ctrl w → (∀ i, i ≠ r → stateOf W i = stateOf w i) →
  startRan cfg W r w' → startRan cfg w r w'.
Proof.
  intros Hc Hst. pose proof Hc as (H1&H2&H3&H4&H5&H6&H7&H8)%ctrl_fields.
  unfold startRan. rewrite H1, H4, H6, H7, Hc. intros [Hiff Hm]. split; [done|].
  destruct (_status w); try done.
  destruct Hm as (? & ? & Hi). split_and!; try done.
  intros i Hne. rewrite Hi by done. by apply Hst.
Qed.

(** [start()] on an active instance, as often as one likes: each call only
    adds its own promise, already fulfilled with [false]. *)
Lemma start_active cfg w :
  _status w = active →
  snd (start cfg w) =
  set_promises
    (promises w ++ [{| pstate := Fulfilled (JSBoolean false); reactions := [] |}]) w.
Proof.
  intros Hs. rewrite start_call_eq. cbn [snd]. unfold start_from.
  rewrite start_from_with_active by done.
  unfold settle, newPromise. cbn [snd promises set_promises].
  rewrite lookup_app_r by lia. rewrite Nat.sub_diag. cbn [lookup list_lookup].
  rewrite insert_app_r_alt by lia. rewrite Nat.sub_diag. cbn [insert list_insert].
  destruct w. simpl. by rewrite app_nil_r.
Qed.

Lemma start_active_iter cfg w n :
  _status w = active →
  run cfg w (replicate n CallStart) =
  Some (set_promises
          (promises w ++
             replicate n {| pstate := Fulfilled (JSBoolean false); reactions := [] |})
          w).
Proof.
  revert w. induction n as [|n IH]; intros w Hs.
  - cbn [replicate run]. rewrite app_nil_r. by destruct w.
  - cbn [replicate run]. unfold step. rewrite start_active by done.
    rewrite IH by done. simpl. by rewrite <- app_assoc.
Qed.

Lemma resume_StartLoop cfg w r v rest :
  Inv cfg w → queue w = (StartLoop r, Normal v) :: rest →
  stateOf w r = Some Pending ∧
  startRan cfg w r (start_from cfg r (set_queue rest w)).
Proof.
  intros HI Hq.
  destruct (Inv_pop cfg w _ _ rest HI Hq) as (HI0 & HL0 & _).
  assert (Hpop : popped (StartLoop r) rest w = set_queue rest w)
    by (unfold popped; simpl; by destruct w).
  rewrite Hpop in HI0, HL0. split.
  - apply (inv_pending _ _ HI). unfold owned, frames. rewrite Hq. simpl.
    by apply elem_of_cons; left.
  - apply (startRan_ctrl cfg w (set_queue rest w)); [done|done|].
    by apply start_from_spec.
Qed.

Lemma start_call_spec cfg w :
  Inv cfg w →
  startRan cfg w (length (promises w)) (snd (start cfg w)).
Proof.
  intros HI. rewrite start_call_eq. cbn [snd].
  apply (startRan_ctrl cfg w (snd (newPromise Pending w))); [done| |].
  - intros i Hne. unfold stateOf. simpl.
    destruct (decide (i < length (promises w))).
    + by rewrite lookup_app_l.
    + rewrite !lookup_ge_None_2; [done|lia|]. rewrite length_app. simpl. lia.
  - apply start_from_spec; [by apply Inv_newPromise|].
    apply (Live_newPromise_cons cfg [] w HI (Live_nil w)).
Qed.

(** C3. Every run of the body of [start()], be it the call itself or a
    resumption of its loop after an [await], fulfils the call's promise
    with [true] if and only if it finds the status 'inactive', and then it
    has set the status to 'active', armed the timer, and begun the first
    attempt if [immediateFirstRun] is set.  On an active instance it
    fulfils the promise with [false] and changes nothing else: status,
    timer handle, armed timers, execution handle, running attempts and the
    number of task invocations stay as they are, however often [start()]
    is called. *)
Theorem start_true_iff_activated cfg w :
  Reachable cfg w →
  (step cfg w CallStart = Some (snd (start cfg w)) ∧
   fst (start cfg w) = length (promises w) ∧
   stateOf w (length (promises w)) = None ∧
   startRan cfg w (length (promises w)) (snd (start cfg w))) ∧
  (∀ r v rest, queue w = (StartLoop r, Normal v) :: rest →
     step cfg w Microtask = Some (start_from cfg r (set_queue rest w)) ∧
     stateOf w r = Some Pending ∧
     startRan cfg w r (start_from cfg r (set_queue rest w))) ∧
  (_status w = active →
     ∀ n, run cfg w (replicate n CallStart) =
          Some (set_promises
                  (promises w ++
                     replicate n {| pstate := Fulfilled (JSBoolean false);
                                    reactions := [] |}) w)).
Proof.
  intros HR. pose proof (Reachable_Inv cfg w HR) as HI. split; [|split].
  - split; [done|]. split; [done|]. split.
    + unfold stateOf. by rewrite lookup_ge_None_2.
    + by apply start_call_spec.
  - intros r v rest Hq. unfold step. rewrite Hq. split; [done|].
    by apply (resume_StartLoop cfg w r v rest).
  - intros Hs n. by apply start_active_iter.
Qed.

Lemma start_true_iff_activated_witness :
  ∃ w, run (testConfig true None) initial [CallStart] = Some w ∧
    Reachable (testConfig true None) w ∧ _status w = active ∧
    startRan (testConfig true None) w 2 (snd (start (testConfig true None) w)) ∧
    stateOf (snd (start (testConfig true None) w)) 2
      = Some (Fulfilled (JSBoolean false)) ∧
    ctrl (snd (start (testConfig true None) w)) = ctrl w ∧
    run (testConfig true None) w (replicate 3 CallStart) =
      Some (set_promises
              (promises w ++
                 replicate 3 {| pstate := Fulfilled (JSBoolean false);
                                reactions := [] |}) w).
Proof.
  eexists. split; [vm_compute; reflexivity|].
  match goal with |- Reachable ?c ?w ∧ _ => assert (Reachable c w) as HR end.
  { apply (Reachable_run _ initial [CallStart]);
      [apply Reachable_initial|vm_compute; reflexivity]. }
  split; [exact HR|]. split; [reflexivity|].
  destruct (start_true_iff_activated _ _ HR) as ((_ & _ & _ & Hran) & _ & Hiter).
  split; [exact Hran|].
  split; [exact (proj1 (proj2 Hran))|].
  split; [exact (proj1 (proj2 (proj2 Hran)))|].
  exact (Hiter eq_refl 3).
Defined.

(** ** Non-overlapping attempts *)

(** C1. Attempts are meant never to overlap.  The execution handle is
    assigned when [_executeTaskAndUpdateState()] has returned, which is
    after the task has run up to the promise it returns.  A task that
    calls [stop()] before that finds no handle to wait for: one microtask
    later the instance is 'inactive' while its attempt is still running.
    The next [start()] begins a second attempt beside the first and arms a
    second timer beside the one that [stop()], called before the handle of
    the timer was assigned, could not clear. *)
Theorem overlapping_attempts :
  ∃ w1 w2,
    run (testConfig true None) initial
      [TaskBecomes stopsItself; CallStart; Microtask] = Some w1 ∧
    status w1 = inactive ∧ running w1 = [1] ∧ stateOf w1 1 = Some Pending ∧
    stateOf w1 0 = Some (Fulfilled (JSBoolean true)) ∧
    stateOf w1 2 = Some (Fulfilled (JSBoolean true)) ∧
    run (testConfig true None) w1 [TaskBecomes TaskReturns; CallStart] = Some w2 ∧
    status w2 = active ∧ running w2 = [1; 5] ∧
    stateOf w2 1 = Some Pending ∧ stateOf w2 5 = Some Pending ∧
    stateOf w2 4 = Some (Fulfilled (JSBoolean true)) ∧
    timers w2 = [0; 1] ∧ invocations w2 = 2.
Proof.
  eexists _, _. split; [vm_compute; reflexivity|].
  do 5 (split; [vm_compute; reflexivity|]).
  split; [vm_compute; reflexivity|]. vm_compute. done.
Qed.

(** ** isCurrentlyExecuting *)

(** C9 as stated fails.  First run: the task of the attempt failed and the
    error handler threw; the attempt has settled and nothing is running,
    yet the execution handle holds its promise, two ticks later as well.
    Second run: the task threw before it returned; the handle was assigned
    the promise of that attempt after the attempt had ended, and after
    [stop()] the instance is 'inactive' and reports [true] with nothing
    running.  Third run: the task called [stop()] before it returned; the
    instance is 'inactive' and reports [true] while the attempt runs. *)
Lemma executing_without_attempt :
  ∃ w1 w2 w3,
    run (testConfig false (Some rethrow)) initial
      [CallStart; Tick 0; TaskSettles 1 (Throw taskError); Tick 0; Tick 0]
      = Some w1 ∧
    isCurrentlyExecuting w1 = true ∧ running w1 = [] ∧
    stateOf w1 1 = Some (Rejected taskError) ∧ status w1 = active ∧
    invocations w1 = 1 ∧
    run (testConfig true None) initial
      [TaskBecomes throwsAtOnce; CallStart; CallStop false; Microtask]
      = Some w2 ∧
    isCurrentlyExecuting w2 = true ∧ running w2 = [] ∧
    stateOf w2 1 = Some (Fulfilled JSUndefined) ∧ status w2 = inactive ∧
    run (testConfig true None) initial
      [TaskBecomes stopsItself; CallStart; Microtask] = Some w3 ∧
    isCurrentlyExecuting w3 = true ∧ running w3 = [1] ∧
    stateOf w3 1 = Some Pending ∧ status w3 = inactive.
Proof.
  eexists _, _, _. split; [vm_compute; reflexivity|].
  do 5 (split; [vm_compute; reflexivity|]).
  split; [vm_compute; reflexivity|].
  do 4 (split; [vm_compute; reflexivity|]).
  split; [vm_compute; reflexivity|]. vm_compute. done.
Qed.

(** C9, amended.  With a task that returns its promise and, before that,
    neither throws nor calls the instance, and an error handler that never
    throws: [isCurrentlyExecuting] is [true] exactly when an attempt has
    begun and not yet settled; there is then one such attempt, and the
    execution handle holds its promise, which is pending.  It is [false]
    exactly when no attempt is running, and it is [false] on an inactive
    instance. *)
Theorem executing_iff_attempt_in_flight cfg w :
  handlerNeverThrows cfg → Plain cfg w →
  (isCurrentlyExecuting w = true ↔
   ∃ p, _currentExecutionPromise w = Some p ∧ running w = [p] ∧
        stateOf w p = Some Pending) ∧
  (isCurrentlyExecuting w = false ↔ running w = []) ∧
  (status w = inactive → isCurrentlyExecuting w = false ∧ running w = []).
Proof.
  intros Hh HP. pose proof (Plain_Calm cfg w Hh HP) as HC.
  pose proof (Reachable_Inv cfg w (Plain_Reachable cfg w HP)) as HI.
  pose proof (calm_running _ HC) as Hr.
  pose proof (calm_inactive _ HC) as Hi.
  unfold isCurrentlyExecuting, status in *.
  destruct (_currentExecutionPromise w) as [p|] eqn:Hp.
  - split; [|split].
    + split; [intros _|done]. exists p. split; [done|]. split; [done|].
      apply (inv_pending cfg w HI), running_owned. rewrite Hr.
      by apply list_elem_of_singleton.
    + split; [done|]. by rewrite Hr.
    + intros Hs. by specialize (Hi Hs).
  - split; [|split].
    + split; [done|]. by intros (q & Hq & _).
    + by rewrite Hr.
    + by rewrite Hr.
Qed.

Lemma executing_iff_attempt_in_flight_witness :
  ∃ w, run (testConfig true None) initial [CallStart] = Some w ∧
    handlerNeverThrows (testConfig true None) ∧
    Plain (testConfig true None) w ∧
    isCurrentlyExecuting w = true ∧
    ∃ p, _currentExecutionPromise w = Some p ∧ running w = [p] ∧
         stateOf w p = Some Pending.
Proof.
  eexists. split; [vm_compute; reflexivity|].
  assert (Hh : handlerNeverThrows (testConfig true None)) by (intros h e H; discriminate H).
  match goal with |- _ ∧ Plain ?c ?w ∧ _ => assert (Plain c w) as HP end.
  { apply (Plain_run _ initial [CallStart]);
      [apply Plain_initial|repeat constructor; discriminate|vm_compute; reflexivity]. }
  split; [exact Hh|]. split; [exact HP|]. split; [reflexivity|].
  exact (proj1 (proj1 (executing_iff_attempt_in_flight _ _ Hh HP)) eq_refl).
Defined.

(** ** stop *)

(** C4. [stop()] on an instance that is not inactive is meant to resolve
    only after every pending attempt has settled.  A [stop()] that the
    task calls before it returns its promise finds the execution handle
    still empty and waits for [Promise.resolve()]: it resolves [true], and
    the status becomes 'inactive', while the attempt that called it is
    still running. *)
Theorem stop_resolves_during_attempt :
  ∃ w1 w2,
    run (testConfig true None) initial [TaskBecomes stopsItself; CallStart]
      = Some w1 ∧
    status w1 = terminating ∧ running w1 = [1] ∧
    stateOf w1 2 = Some Pending ∧ queue w1 = [(StopActive 2, Normal JSUndefined)] ∧
    run (testConfig true None) w1 [Microtask] = Some w2 ∧
    stateOf w2 2 = Some (Fulfilled (JSBoolean true)) ∧ status w2 = inactive ∧
    running w2 = [1] ∧ stateOf w2 1 = Some Pending ∧
    isCurrentlyExecuting w2 = true.
Proof.
  eexists _, _. split; [vm_compute; reflexivity|].
  do 4 (split; [vm_compute; reflexivity|]).
  split; [vm_compute; reflexivity|]. vm_compute. done.
Qed.

(** ** Suspended calls along a run *)

(** A job other than the resumption of a [start()] loop settles the
    promise of its call. *)
Lemma resume_settles cfg w f c rest :
  Inv cfg w → queue w = (f, c) :: rest →
  (∀ r v, (f, c) ≠ (StartLoop r, Normal v)) →
  stateOf (resume cfg (f, c) (set_queue rest w)) (resultOf f)
  = Some (match c with
          | Normal _ =>
              Fulfilled (JSBoolean (if isStopActive f then true else false))
          | Throw e => Rejected e
          end).
Proof.
  intros HI Hq Hne.
  assert (Hp : pending w (resultOf f)).
  { apply (inv_pending _ _ HI), frame_owned. by eapply head_frame. }
  destruct c as [v|e].
  - destruct f as [r|r|r]; [by destruct (Hne r v)| |]; cbn [resume];
      by rewrite settle_result.
  - assert (Hres : resume cfg (f, Throw e) (set_queue rest w)
                   = settle (resultOf f) (Throw e) (set_queue rest w))
      by by destruct f.
    rewrite Hres. by rewrite settle_result.
Qed.



(** ** start during 'terminating' *)




(** ** Waiting for the current execution *)

(** C6, amended.  Provided the error handler, when there is one, never
    throws: the promise returned by
    [waitUntilCurrentExecutionCompletes()] is never rejected, whatever
    happens later and however the task of the tracked attempt ends.  With
    the execution handle empty it is a new promise that is fulfilled
    already.  Otherwise it is the promise the handle holds, the same for
    every caller, which is fulfilled already or belongs to a running
    attempt; in the latter case no event but the end of that attempt
    settles it or removes a call registered with it, and the end of that
    attempt, successful or not, fulfils it and queues all the calls
    registered with it together, in the order in which they began to
    wait. *)
Theorem wait_never_rejects cfg w :
  handlerNeverThrows cfg → Reachable cfg w →
  (∀ es w' e,
     run cfg (snd (waitUntilCurrentExecutionCompletes w)) es = Some w' →
     stateOf w' (fst (waitUntilCurrentExecutionCompletes w)) ≠ Some (Rejected e)) ∧
  (_currentExecutionPromise w = None →
     fst (waitUntilCurrentExecutionCompletes w) = length (promises w) ∧
     stateOf (snd (waitUntilCurrentExecutionCompletes w)) (length (promises w))
       = Some (Fulfilled JSUndefined)) ∧
  (∀ p, _currentExecutionPromise w = Some p →
     waitUntilCurrentExecutionCompletes w = (p, w) ∧
     ((∃ v, stateOf w p = Some (Fulfilled v)) ∨
      (stateOf w p = Some Pending ∧ p ∈ running w)) ∧
     (p ∈ running w →
        (∀ c, ∃ w', step cfg w (TaskSettles p c) = Some w' ∧
           stateOf w' p = Some (Fulfilled JSUndefined) ∧
           queue w' =
             queue w ++ ((λ f, (f, Normal JSUndefined)) <$> reactionsOf w p) ∧
           reactionsOf w' p = []) ∧
        (∀ e w', step cfg w e = Some w' → (∀ c, e ≠ TaskSettles p c) →
           stateOf w' p = Some Pending ∧ p ∈ running w' ∧
           ∃ fs, reactionsOf w' p = reactionsOf w p ++ fs))).
Proof.
  intros Hh HR. pose proof (Reachable_Inv _ _ HR) as HI. split; [|split].
  - intros es w' e Hrun.
    assert (Hstep : step cfg w CallWait
                    = Some (snd (waitUntilCurrentExecutionCompletes w))) by done.
    pose proof (Inv_step _ _ _ _ HI Hstep) as HI1.
    pose proof (Inv_run _ _ _ _ HI1 Hrun) as HI2.
    by destruct (Inv_noRejection cfg w' Hh HI2) as [H _].
  - intros Hn. unfold waitUntilCurrentExecutionCompletes. rewrite Hn.
    split; [done|]. apply stateOf_newPromise_new.
  - intros p Hp. split; [|split].
    + unfold waitUntilCurrentExecutionCompletes. by rewrite Hp.
    + destruct (inv_handle _ _ HI p Hp) as [Hrun|(s & Hs & Hne)].
      * right. split; [|done]. by apply (inv_pending _ _ HI), running_owned.
      * left. destruct s as [|v|e]; [done|by exists v|].
        by destruct (Inv_noRejection cfg w Hh HI) as [H _]; destruct (H p e).
    + intros Hrun.
      assert (Hpp : pending w p) by by apply (inv_pending _ _ HI), running_owned.
      split.
      * intros c. eexists. split; [unfold step; by rewrite decide_True|].
        rewrite resume_state_same, resume_queue, resume_reactions_same by done.
        by rewrite (attemptOutcome_Normal cfg c Hh).
      * intros e w' Hstep Hne.
        pose proof (step_running_keep cfg w e w' p HI Hstep Hrun Hne) as Hrun'.
        pose proof (Inv_step _ _ _ _ HI Hstep) as HI'.
        split; [by apply (inv_pending _ _ HI'), running_owned|].
        split; [done|]. by apply (step_reactions cfg w e w' p HI Hstep).
Qed.

Lemma wait_never_rejects_witness :
  ∃ w, run (testConfig true None) initial [CallStart; CallStop false] = Some w ∧
    handlerNeverThrows (testConfig true None) ∧ Reachable (testConfig true None) w ∧
    _currentExecutionPromise w = Some 1 ∧ 1 ∈ running w ∧
    waitUntilCurrentExecutionCompletes w = (1, w) ∧
    ∃ w', step (testConfig true None) w (TaskSettles 1 (Throw taskError)) = Some w' ∧
      stateOf w' 1 = Some (Fulfilled JSUndefined) ∧
      queue w' =
        queue w ++ ((λ f, (f, Normal JSUndefined)) <$> reactionsOf w 1) ∧
      reactionsOf w' 1 = [].
Proof.
  eexists. split; [vm_compute; reflexivity|].
  assert (handlerNeverThrows (testConfig true None)) as Hh.
  { intros h e H. discriminate H. }
  match goal with |- _ ∧ Reachable ?c ?w ∧ _ => assert (Reachable c w) as HR end.
  { apply (Reachable_run _ initial [CallStart; CallStop false]);
      [apply Reachable_initial|vm_compute; reflexivity]. }
  match goal with |- _ ∧ _ ∧ _ ∧ ?P ∧ _ => assert P as Hin end.
  { vm_compute. apply list_elem_of_singleton. reflexivity. }
  split; [exact Hh|]. split; [exact HR|]. split; [reflexivity|].
  split; [exact Hin|].
  destruct (proj2 (proj2 (wait_never_rejects _ _ Hh HR)) 1 eq_refl)
    as (Hw & _ & Hrun).
  split; [exact Hw|].
  exact (proj1 (Hrun Hin) (Throw taskError)).
Defined.

(** C6 as stated fails: after the error handler threw,
    [waitUntilCurrentExecutionCompletes] returns a rejected promise. *)
Lemma wait_rejects_after_handler_throw :
  ∃ w, run (testConfig true (Some rethrow)) initial
         [CallStart; TaskSettles 1 (Throw taskError)] = Some w ∧
       waitUntilCurrentExecutionCompletes w = (1, w) ∧
       stateOf w 1 = Some (Rejected taskError).
Proof. eexists. split; [vm_compute; reflexivity|]. vm_compute. done. Qed.

(** ** Task failures *)

Lemma filter_ne_snoc (p : nat) (l : list nat) :
  p ∉ l → filter (λ p', p' ≠ p) (l ++ [p]) = l.
Proof.
  intros Hp. rewrite filter_app, filter_ne_id by done.
  rewrite filter_cons_False by (intros H; by apply H). by rewrite app_nil_r.
Qed.

Lemma fresh_not_running cfg w : Inv cfg w → length (promises w) ∉ running w.
Proof.
  intros HI Hin. apply running_owned, (owned_lt cfg) in Hin; [lia|done].
Qed.

(** One tick and the end of the attempt it begins, with a task that returns
    its promise at once and an error handler that does not throw. *)
Lemma cycle_spec cfg t c w :
  handlerNeverThrows cfg → Inv cfg w →
  _currentExecutionPromise w = None → t ∈ timers w →
  _asyncTask w = TaskReturns →
  ∃ w', run cfg w [Tick t; TaskSettles (length (promises w)) c] = Some w' ∧
    Inv cfg w' ∧ invocations w' = S (invocations w) ∧
    _currentExecutionPromise w' = None ∧ _status w' = _status w ∧
    timers w' = timers w ∧ running w' = running w ∧
    _asyncTask w' = TaskReturns ∧ handled w' = handled w ++ reported cfg c.
Proof.
  intros Hh HI Hn Ht Htask.
  pose proof (tick_begins cfg w t Hn Ht Htask) as Hs1.
  pose proof (Inv_step _ _ _ _ HI Hs1) as HI1.
  set (w1 := set_currentExecutionPromise (Some (length (promises w)))
               (set_running (running w ++ [length (promises w)])
                  (snd (newPromise Pending (set_invocations (S (invocations w)) w)))))
    in *.
  assert (Hin : length (promises w) ∈ running w1).
  { simpl. apply elem_of_app. right. by apply list_elem_of_singleton. }
  assert (Hs2 : step cfg w1 (TaskSettles (length (promises w)) c)
                = Some (_executeTaskAndUpdateState_resume cfg (length (promises w)) c w1))
    by (unfold step; by rewrite decide_True).
  pose proof (Inv_step _ _ _ _ HI1 Hs2) as HI2.
  eexists. cbn [run]. rewrite Hs1, Hs2. split; [done|]. split; [done|].
  destruct (resume_fields cfg (length (promises w)) c w1)
    as (F1 & F2 & F3 & F4 & F5 & F6 & F7 & F8).
  rewrite F1, F3, F4, F5, F6, F7, F8, (attemptOutcome_Normal cfg c Hh).
  split_and!; try done.
  simpl. apply filter_ne_snoc. by apply (fresh_not_running cfg).
Qed.

Lemma cycles_spec cfg t cs : ∀ w,
  handlerNeverThrows cfg → Inv cfg w →
  _currentExecutionPromise w = None → t ∈ timers w →
  _asyncTask w = TaskReturns →
  ∃ w', cycles cfg t cs w = Some w' ∧ Inv cfg w' ∧
    invocations w' = invocations w + length cs ∧
    _currentExecutionPromise w' = None ∧ _status w' = _status w ∧
    timers w' = timers w ∧ running w' = running w ∧
    _asyncTask w' = TaskReturns ∧
    handled w' = handled w ++ mjoin (reported cfg <$> cs).
Proof.
  induction cs as [|c cs IH]; intros w Hh HI Hn Ht Htask.
  - exists w. simpl. rewrite app_nil_r. split_and!; (done || lia).
  - destruct (cycle_spec cfg t c w Hh HI Hn Ht Htask)
      as (w1 & Hrun & HI1 & E1 & E2 & E3 & E4 & E5 & E6 & E7).
    destruct (IH w1 Hh HI1 E2) as (w' & Hcyc & HI' & G1 & G2 & G3 & G4 & G5 & G6 & G7);
      [by rewrite E4|done|].
    exists w'. cbn [cycles]. rewrite Hrun. split; [done|]. split; [done|].
    rewrite G1, G3, G4, G5, G7, E1, E3, E4, E5, E7.
    split_and!; try done.
    + cbn [length]. lia.
    + rewrite fmap_cons.
      change (mjoin (reported cfg c :: (reported cfg <$> cs)))
        with (reported cfg c ++ mjoin (reported cfg <$> cs)).
      by rewrite app_assoc.
Qed.

Lemma reported_failures cfg errs :
  mjoin (reported cfg <$> (Throw <$> errs))
  = if _onTaskError cfg is Some _ then errs else [].
Proof.
  induction errs as [|err errs IH].
  - simpl. by destruct (_onTaskError cfg).
  - rewrite !fmap_cons.
    change (mjoin (reported cfg (Throw err) :: (reported cfg <$> (Throw <$> errs))))
      with (reported cfg (Throw err) ++ mjoin (reported cfg <$> (Throw <$> errs))).
    rewrite IH. unfold reported. by destruct (_onTaskError cfg).
Qed.

(** C7, amended.  Provided the error handler, when there is one, never
    throws: when the promise that the task returned to an attempt is
    rejected, the promise of the attempt is fulfilled and no promise of the
    instance is ever rejected; the error is passed to the error handler if
    there is one and dropped otherwise; the execution handle is cleared,
    status and timer are as before; and with a task that returns its
    promise at once the next ticks begin new attempts, one per tick,
    however often the task fails again. *)
Theorem task_failure_contained cfg w p err :
  handlerNeverThrows cfg → Reachable cfg w → p ∈ running w →
  ∃ w', step cfg w (TaskSettles p (Throw err)) = Some w' ∧
    stateOf w' p = Some (Fulfilled JSUndefined) ∧
    (∀ es w2, run cfg w' es = Some w2 → noRejection w2) ∧
    handled w' =
      handled w ++ (if _onTaskError cfg is Some _ then [err] else []) ∧
    _currentExecutionPromise w' = None ∧
    running w' = filter (λ p', p' ≠ p) (running w) ∧
    _status w' = _status w ∧ _timerHandle w' = _timerHandle w ∧
    timers w' = timers w ∧
    (∀ t errs, t ∈ timers w' → _asyncTask w' = TaskReturns →
       ∃ w2, cycles cfg t (Throw <$> errs) w' = Some w2 ∧
         invocations w2 = invocations w' + length errs ∧
         _currentExecutionPromise w2 = None ∧
         _status w2 = _status w' ∧ timers w2 = timers w' ∧
         running w2 = running w' ∧
         handled w2 =
           handled w' ++ (if _onTaskError cfg is Some _ then errs else [])).
Proof.
  intros Hh HR Hp. pose proof (Reachable_Inv _ _ HR) as HI.
  assert (Hs : step cfg w (TaskSettles p (Throw err)) =
               Some (_executeTaskAndUpdateState_resume cfg p (Throw err) w))
    by (unfold step; by rewrite decide_True).
  pose proof (Inv_step _ _ _ _ HI Hs) as HI'.
  assert (Hpp : pending w p) by by apply (inv_pending _ _ HI), running_owned.
  eexists. split; [exact Hs|].
  destruct (resume_fields cfg p (Throw err) w)
    as (F1 & F2 & F3 & F4 & F5 & F6 & F7 & F8).
  rewrite (attemptOutcome_Normal cfg _ Hh) in F8.
  rewrite resume_state_same, (attemptOutcome_Normal cfg _ Hh) by done.
  split; [done|]. split.
  { intros es w2 Hrun. apply (Inv_noRejection cfg w2 Hh).
    by apply (Inv_run cfg _ es w2 HI'). }
  split.
  { rewrite F7. unfold reported. by destruct (_onTaskError cfg). }
  do 5 (split; [done|]).
  intros t errs Ht Htask.
  destruct (cycles_spec cfg t (Throw <$> errs) _ Hh HI' F8 Ht Htask)
    as (w2 & Hcyc & _ & G1 & G2 & G3 & G4 & G5 & _ & G7).
  exists w2. rewrite length_fmap in G1. rewrite reported_failures in G7.
  done.
Qed.

Lemma task_failure_contained_witness :
  ∃ w, run (testConfig true None) initial [CallStart] = Some w ∧
    handlerNeverThrows (testConfig true None) ∧
    Reachable (testConfig true None) w ∧ 1 ∈ running w ∧
    ∃ w', step (testConfig true None) w (TaskSettles 1 (Throw taskError)) = Some w' ∧
      stateOf w' 1 = Some (Fulfilled JSUndefined) ∧
      _currentExecutionPromise w' = None.
Proof.
  eexists. split; [vm_compute; reflexivity|].
  assert (handlerNeverThrows (testConfig true None)) as Hh.
  { intros h e H. discriminate H. }
  match goal with |- _ ∧ Reachable ?c ?w ∧ _ => assert (Reachable c w) as HR end.
  { apply (Reachable_run _ initial [CallStart]);
      [apply Reachable_initial|vm_compute; reflexivity]. }
  match goal with |- _ ∧ _ ∧ ?P ∧ _ => assert P as Hin end.
  { vm_compute. apply list_elem_of_singleton. reflexivity. }
  split; [exact Hh|]. split; [exact HR|]. split; [exact Hin|].
  destruct (task_failure_contained _ _ 1 taskError Hh HR Hin)
    as (w' & Hs & Hst & _ & _ & Hn & _).
  exists w'. split; [exact Hs|]. split; [exact Hst|exact Hn].
Defined.

(** C7 as stated fails: the task of the attempt failed and the error
    handler threw; the attempt has settled (nothing is running), yet the
    execution handle is still set, and the promise of the attempt, which
    [waitUntilCurrentExecutionCompletes] and [stop] hand to their callers,
    is rejected. *)
Lemma handle_kept_after_handler_throw :
  ∃ w, run (testConfig true (Some rethrow)) initial
         [CallStart; TaskSettles 1 (Throw taskError)] = Some w ∧
       running w = [] ∧ _currentExecutionPromise w = Some 1 ∧
       isCurrentlyExecuting w = true ∧
       stateOf w 1 = Some (Rejected taskError).
Proof. eexists. split; [vm_compute; reflexivity|]. vm_compute. done. Qed.

(** ** A throwing error handler *)




(** * Further properties *)

(** ** Validation *)

(** X1. [isNaturalNumber] accepts exactly the numbers whose value is a
    positive integer, and [Infinity]; it rejects NaN, [-Infinity], every
    other number and every value that is not a number. *)
Theorem isNaturalNumber_spec v :
  isNaturalNumber v = true ↔
  v = JSNum (JSInfinity false) ∨
  ∃ (p : positive) (q : Q), v = JSNum (JSFinite q) ∧ Qeq q (inject_Z (Zpos p)).
Proof.
  split.
  - destruct v as [| | |[|[]|q]| | |]; try done; [by left|].
    intros [p Hp]%isNaturalNumber_finite. right. by exists p, q.
  - intros [->|(p & q & -> & Hq)]; [done|].
    apply isNaturalNumber_finite. by exists p.
Qed.

(** X2. The constructor checks [intervalMs] first: an interval that
    [isNaturalNumber] rejects is reported with the value received, whatever
    [immediateFirstRun] is; with an accepted interval, an
    [immediateFirstRun] that is not a boolean is reported with the value
    received; otherwise the instance keeps the options and the handler as
    given and starts out inactive, with no timer armed, nothing executing
    and the task not invoked. *)
Theorem construct_spec o h :
  (isNaturalNumber (intervalMs o) = false →
     construct o h = inl (IntervalMsNotNatural (intervalMs o))) ∧
  (isNaturalNumber (intervalMs o) = true →
     (∀ b, immediateFirstRun o ≠ JSBoolean b) →
     construct o h = inl (ImmediateFirstRunNotBoolean (immediateFirstRun o))) ∧
  (isNaturalNumber (intervalMs o) = true →
     (∃ b, immediateFirstRun o = JSBoolean b) →
     ∃ cfg w, construct o h = inr (cfg, w) ∧
       _options cfg = o ∧ _onTaskError cfg = h ∧
       status w = inactive ∧ isCurrentlyExecuting w = false ∧
       timers w = [] ∧ invocations w = 0).
Proof.
  unfold construct, _validateOptions. split_and!.
  - by intros ->.
  - intros -> Hb. simpl.
    destruct (immediateFirstRun o) as [| |b| | | |] eqn:E; try done.
    by destruct (Hb b).
  - intros -> [b ->]. simpl. by eexists _, _.
Qed.

Lemma construct_spec_witness :
  isNaturalNumber (intervalMs (testOptions true)) = true ∧
  ∃ cfg w, construct (testOptions true) (Some rethrow) = inr (cfg, w) ∧
    _options cfg = testOptions true ∧ _onTaskError cfg = Some rethrow ∧
    status w = inactive ∧ isCurrentlyExecuting w = false ∧
    timers w = [] ∧ invocations w = 0.
Proof.
  split; [reflexivity|].
  apply (proj2 (proj2 (construct_spec (testOptions true) (Some rethrow)))).
  - reflexivity.
  - exists true. reflexivity.
Defined.

(** ** The stop in progress *)

(** X9. Of the [stop()] calls suspended at any moment at most one is past
    the toggle to 'terminating', which is the one that will set the status
    to 'inactive' and return [true]; there is such a call only while the
    status is 'terminating', and, when the error handler never throws,
    whenever the status is 'terminating'. *)
Theorem one_stop_in_progress cfg w :
  Reachable cfg w →
  (∀ r, StopActive r ∈ frames w → _status w = terminating) ∧
  (∀ r1 r2, StopActive r1 ∈ frames w → StopActive r2 ∈ frames w → r1 = r2) ∧
  (handlerNeverThrows cfg → _status w = terminating →
     ∃ r, StopActive r ∈ frames w).
Proof.
  intros HR. pose proof (Reachable_Inv _ _ HR) as HI.
  pose proof (inv_stop _ _ HI) as Hst. split_and!.
  - intros r Hr%stopActives_elem. case_decide; [done|lia].
  - intros r1 r2 H1 H2. destruct (decide (r1 = r2)) as [|Hne]; [done|].
    pose proof (stopActives_two _ _ _ H1 H2 Hne). case_decide; lia.
  - intros Hh Hs. destruct (inv_terminating _ _ HI Hs) as [H|(q & e & Hq)].
    + by apply stopActives_pos.
    + by destruct (Inv_noRejection cfg w Hh HI) as [Hno _]; destruct (Hno q e).
Qed.

Lemma one_stop_in_progress_witness :
  ∃ w, run (testConfig true None) initial
         [CallStart; CallStop false; CallStop false] = Some w ∧
    Reachable (testConfig true None) w ∧ StopActive 2 ∈ frames w ∧
    _status w = terminating.
Proof.
  eexists. split; [vm_compute; reflexivity|].
  match goal with |- Reachable ?c ?w ∧ _ => assert (Reachable c w) as HR end.
  { apply (Reachable_run _ initial [CallStart; CallStop false; CallStop false]);
      [apply Reachable_initial|vm_compute; reflexivity]. }
  split; [exact HR|].
  match goal with |- ?P ∧ _ => assert P as Hin end.
  { vm_compute. apply elem_of_cons. left. reflexivity. }
  split; [exact Hin|].
  exact (proj1 (one_stop_in_progress _ _ HR) 2 Hin).
Defined.

(** ** Where rejections come from *)

(** X12. The error of a failed task never leaves the attempt, whatever the
    error handler does: a promise of the instance (the result of
    [start()] or [stop()], the promise of an attempt, the promise handed
    out by [waitUntilCurrentExecutionCompletes()]) is rejected only with a
    value that the error handler threw; so without an error handler no
    promise is ever rejected. *)
Theorem rejections_only_from_handler cfg w :
  Reachable cfg w →
  (∀ q e, stateOf w q = Some (Rejected e) →
     ∃ h err, _onTaskError cfg = Some h ∧ h err = Throws e) ∧
  (_onTaskError cfg = None → ∀ q e, stateOf w q ≠ Some (Rejected e)).
Proof.
  intros HR. destruct (inv_rejections _ _ (Reachable_Inv cfg w HR)) as [H1 _].
  split; [done|].
  intros Hn q e Hq. destruct (H1 q e Hq) as (h & _ & Hh & _). congruence.
Qed.

Lemma rejections_only_from_handler_witness :
  ∃ w, run (testConfig true (Some rethrow)) initial
         [CallStart; TaskSettles 1 (Throw taskError)] = Some w ∧
    Reachable (testConfig true (Some rethrow)) w ∧
    stateOf w 1 = Some (Rejected taskError) ∧
    ∃ h err, _onTaskError (testConfig true (Some rethrow)) = Some h ∧
      h err = Throws taskError.
Proof.
  eexists. split; [vm_compute; reflexivity|].
  match goal with |- Reachable ?c ?w ∧ _ => assert (Reachable c w) as HR end.
  { apply (Reachable_run _ initial [CallStart; TaskSettles 1 (Throw taskError)]);
      [apply Reachable_initial|vm_compute; reflexivity]. }
  split; [exact HR|].
  match goal with |- ?P ∧ _ => assert P as Hst by (vm_compute; reflexivity) end.
  split; [exact Hst|].
  exact (proj1 (rejections_only_from_handler _ _ HR) 1 taskError Hst).
Defined.

(** ** stop on an active instance *)

Lemma stop_active_status w :
  _status w = active → _status (snd (stop w)) = terminating.
Proof.
  intros Hs. rewrite stop_call_eq. cbn [snd]. rewrite stop_from_active by done.
  cbv zeta.
  match goal with |- context [waitUntilCurrentExecutionCompletes ?W] =>
    pose proof (suspend_ctrl W _ _ (StopActive (length (promises w)))
                  (surjective_pairing _)) as Hc
  end.
  apply ctrl_fields in Hc as (-> & _).
  change (_timerHandle (snd (newPromise Pending w))) with (_timerHandle w).
  by destruct (_timerHandle w).
Qed.

Lemma wait_target W :
  (∀ p, _currentExecutionPromise W = Some p → ∃ s, stateOf W p = Some s) →
  ∃ s, stateOf (snd (waitUntilCurrentExecutionCompletes W))
         (fst (waitUntilCurrentExecutionCompletes W)) = Some s.
Proof.
  intros H. destruct (wait_cases W) as [(p & Hp & ->)|[_ ->]].
  - by apply H.
  - eexists. apply stateOf_newPromise_new.
Qed.

Lemma handle_state cfg w p :
  Inv cfg w → _currentExecutionPromise w = Some p → ∃ s, stateOf w p = Some s.
Proof.
  intros HI Hp. destruct (inv_handle _ _ HI p Hp) as [Hrun|(s & Hs & _)]; [|eauto].
  exists Pending. by apply (inv_pending _ _ HI), running_owned.
Qed.

(** X4. [stop()] on an active instance acts before it suspends: on return
    its promise is pending and the call is suspended, the status is
    'terminating', the handle of the timer is dropped and the timer it
    named is cleared, so that it cannot fire any more; the execution
    handle and the running attempts are left as they are, the attempts
    still pending, and the task is not invoked. *)
Theorem stop_when_active cfg w :
  Reachable cfg w → _status w = active →
  fst (stop w) = length (promises w) ∧
  stateOf (snd (stop w)) (length (promises w)) = Some Pending ∧
  StopActive (length (promises w)) ∈ frames (snd (stop w)) ∧
  _status (snd (stop w)) = terminating ∧
  _timerHandle (snd (stop w)) = None ∧
  timers (snd (stop w)) =
    match _timerHandle w with
    | Some t => filter (λ t', t' ≠ t) (timers w)
    | None => timers w
    end ∧
  (∀ t, _timerHandle w = Some t → step cfg (snd (stop w)) (Tick t) = None) ∧
  _currentExecutionPromise (snd (stop w)) = _currentExecutionPromise w ∧
  running (snd (stop w)) = running w ∧
  invocations (snd (stop w)) = invocations w ∧
  (∀ p, p ∈ running w → pending (snd (stop w)) p).
Proof.
  intros HR Hs. pose proof (Reachable_Inv _ _ HR) as HI.
  assert (Hstep : step cfg w (CallStop false) = Some (snd (stop w))) by done.
  pose proof (Inv_step _ _ _ _ HI Hstep) as HI'.
  set (r := length (promises w)).
  set (w0 := snd (newPromise Pending w)).
  set (W := set_timerHandle None
              (clearInterval (_timerHandle w0) (set_status terminating w0))).
  assert (Heq : snd (stop w) =
                await (fst (waitUntilCurrentExecutionCompletes W)) (StopActive r)
                  (snd (waitUntilCurrentExecutionCompletes W))).
  { rewrite stop_call_eq. cbn [snd]. by rewrite stop_from_active. }
  pose proof (suspend_ctrl W _ _ (StopActive r) (surjective_pairing _)) as Hc.
  rewrite <- Heq in Hc.
  apply ctrl_fields in Hc as (C1 & C2 & C3 & C4 & C5 & C6 & C7 & C8).
  assert (Hfields : timers W = match _timerHandle w with
                               | Some t => filter (λ t', t' ≠ t) (timers w)
                               | None => timers w
                               end ∧
                    running W = running w ∧ invocations W = invocations w ∧
                    _currentExecutionPromise W = _currentExecutionPromise w ∧
                    promises W = promises w0 ∧ queue W = queue w0 ∧
                    _status W = terminating ∧ _timerHandle W = None).
  { unfold W. change (_timerHandle w0) with (_timerHandle w).
    by destruct (_timerHandle w). }
  destruct Hfields as (F0 & F1 & F2 & F3 & F4 & F5 & F6 & F7).
  assert (HWst : ∀ i s, stateOf w i = Some s → stateOf W i = Some s).
  { intros i s Hi. rewrite (same_stateOf w0 W) by done.
    by apply stateOf_newPromise_Some. }
  assert (Hpend : stateOf (snd (stop w)) r = Some Pending).
  { rewrite Heq, await_state.
    assert (stateOf W r = Some Pending) as HW.
    { rewrite (same_stateOf w0 W) by done. apply stateOf_newPromise_new. }
    destruct (wait_cases W) as [(p & _ & ->)|[_ ->]]; [done|].
    by apply stateOf_newPromise_Some. }
  split; [done|]. split; [done|]. split.
  { destruct (wait_target W) as [s Hst].
    { intros p Hp. rewrite F3 in Hp.
      destruct (handle_state cfg w p HI Hp) as [s Hst]. exists s. by apply HWst. }
    rewrite Heq, (await_frames _ _ _ s Hst). by apply elem_of_cons; left. }
  split; [by rewrite C1|]. split; [by rewrite C2|].
  split; [by rewrite C5|]. split.
  { intros t Ht. unfold step. rewrite C5, F0, Ht. rewrite decide_False; [done|].
    intros [Hne _]%list_elem_of_filter. done. }
  split; [by rewrite C3|]. split; [by rewrite C6|]. split; [by rewrite C7|].
  intros p Hp. apply (inv_pending _ _ HI'), running_owned. by rewrite C6, F1.
Qed.

Lemma stop_when_active_witness :
  ∃ w, run (testConfig true None) initial [CallStart] = Some w ∧
    Reachable (testConfig true None) w ∧ _status w = active ∧
    _status (snd (stop w)) = terminating ∧
    step (testConfig true None) (snd (stop w)) (Tick 0) = None ∧
    pending (snd (stop w)) 1.
Proof.
  eexists. split; [vm_compute; reflexivity|].
  match goal with |- Reachable ?c ?w ∧ _ => assert (Reachable c w) as HR end.
  { apply (Reachable_run _ initial [CallStart]);
      [apply Reachable_initial|vm_compute; reflexivity]. }
  split; [exact HR|]. split; [reflexivity|].
  destruct (stop_when_active _ _ HR eq_refl)
    as (_ & _ & _ & Hs & _ & _ & Ht & _ & _ & _ & Hp).
  split; [exact Hs|]. split; [exact (Ht 0 eq_refl)|].
  apply Hp. vm_compute. apply list_elem_of_singleton. reflexivity.
Defined.

(** ** The way back to 'inactive' *)

(** X14. The status becomes 'inactive' in one way only: the microtask
    queue resumes the [stop()] that set 'terminating', after the promise
    that call awaited was fulfilled, and the call resolves [true].  No
    call of [start()], [stop()] or
    [waitUntilCurrentExecutionCompletes()], no timer tick, no end of an
    attempt and nothing the task does before it returns makes an instance
    inactive. *)
Theorem inactive_only_by_stop cfg w e w' :
  Reachable cfg w → step cfg w e = Some w' →
  _status w ≠ inactive → _status w' = inactive →
  e = Microtask ∧ _status w = terminating ∧
  ∃ r v rest, queue w = (StopActive r, Normal v) :: rest ∧
    stateOf w r = Some Pending ∧
    stateOf w' r = Some (Fulfilled (JSBoolean true)).
Proof.
  intros HR Hstep Hs Hs'. pose proof (Reachable_Inv _ _ HR) as HI.
  pose proof (Foot_step cfg w e w' HI Hstep) as HF.
  destruct e as [|flag| |t|p c| |t];
    try (by destruct (foot_status _ _ _ _ HF Hs)).
  - destruct HF as [_ ->].
    destruct (resume_fields cfg p c w) as (F1 & _). congruence.
  - destruct HF as (f & c & rest & Hq & HF). split; [done|].
    destruct (Inv_pop cfg w f c rest HI Hq) as (_ & _ & Hterm).
    destruct (isStopActive f) eqn:Hf.
    + split; [by apply Hterm|]. destruct f as [r|r|r]; try done.
      assert (Hp : stateOf w r = Some Pending).
      { apply (inv_pending _ _ HI), (frame_owned w (StopActive r)).
        by eapply head_frame. }
      destruct c as [v|e'].
      * exists r, v, rest. split; [done|]. split; [done|].
        unfold step in Hstep. rewrite Hq in Hstep.
        apply (inj Some) in Hstep as <-.
        by apply (resume_settles cfg w (StopActive r) (Normal v) rest HI Hq).
      * exfalso. unfold step in Hstep. rewrite Hq in Hstep.
        apply (inj Some) in Hstep as <-. cbn [resume resultOf] in Hs'.
        pose proof (settle_ctrl r (Throw e') (set_queue rest w)) as Hc.
        apply ctrl_fields in Hc as (C1 & _). rewrite C1 in Hs'. done.
    + exfalso. apply (foot_status _ _ _ _ HF); [|done].
      unfold popped. by rewrite Hf.
  - subst. done.
Qed.

Lemma inactive_only_by_stop_witness :
  ∃ w w', run (testConfig true None) initial
            [CallStart; CallStop false; TaskSettles 1 (Normal JSUndefined)] = Some w ∧
    Reachable (testConfig true None) w ∧
    step (testConfig true None) w Microtask = Some w' ∧
    _status w ≠ inactive ∧ _status w' = inactive ∧
    ∃ r v rest, queue w = (StopActive r, Normal v) :: rest ∧
      stateOf w r = Some Pending ∧
      stateOf w' r = Some (Fulfilled (JSBoolean true)).
Proof.
  eexists _, _. split; [vm_compute; reflexivity|].
  match goal with |- Reachable ?c ?w ∧ _ => assert (Reachable c w) as HR end.
  { apply (Reachable_run _ initial
             [CallStart; CallStop false; TaskSettles 1 (Normal JSUndefined)]);
      [apply Reachable_initial|vm_compute; reflexivity]. }
  split; [exact HR|].
  match goal with |- ?P ∧ _ => assert P as Hstep by (vm_compute; reflexivity) end.
  split; [exact Hstep|].
  assert (Hne : terminating ≠ inactive) by discriminate.
  split; [exact Hne|]. split; [reflexivity|].
  exact (proj2 (proj2 (inactive_only_by_stop _ _ _ _ HR Hstep Hne eq_refl))).
Defined.

(** ** Where attempts begin *)

Lemma start_from_invocations cfg r w :
  _status w ≠ inactive →
  invocations (start_from cfg r w) = invocations w.
Proof.
  intros Hs. unfold start_from. destruct (_status w) eqn:E; [| done |].
  - rewrite start_from_with_active by done.
    pose proof (settle_ctrl r (Normal (JSBoolean false)) w) as Hc.
    by apply ctrl_fields in Hc as (_&_&_&_&_&_&?&_).
  - rewrite start_from_with_terminating by done.
    pose proof (suspend_ctrl w _ _ (StartLoop r) (surjective_pairing _)) as Hc.
    by apply ctrl_fields in Hc as (_&_&_&_&_&_&?&_).
Qed.

Lemma startRan_invocations cfg w r w' :
  startRan cfg w r w' → invocations w' ≠ invocations w →
  _status w = inactive ∧ truthy (immediateFirstRun (_options cfg)) = true.
Proof.
  intros [_ Hran] Hne. destruct (_status w).
  - destruct Hran as (_ & Hc & _).
    by apply ctrl_fields in Hc as (_&_&_&_&_&_&?&_).
  - split; [done|]. destruct Hran as (_ & _ & _ & Hif).
    destruct (truthy _); [done|]. by destruct Hif as (? & _).
  - destruct Hran as (_ & Hc & _).
    by apply ctrl_fields in Hc as (_&_&_&_&_&_&?&_).
Qed.

(** X6. The task is invoked in two places only: by a timer tick that finds
    the execution handle empty, and by a run of [start()] that finds the
    status 'inactive' with [immediateFirstRun] set.  Every other event
    leaves the number of invocations as it is: [stop()],
    [waitUntilCurrentExecutionCompletes()], [start()] on an active or
    terminating instance, the end of an attempt, the resumption of a
    [stop()].  A tick that finds the handle empty does invoke the task, and
    the handle is set afterwards; a tick that finds the handle set changes
    nothing at all. *)
Theorem where_attempts_begin cfg w e w' :
  Reachable cfg w → step cfg w e = Some w' →
  invocations w ≤ invocations w' ∧
  (invocations w' ≠ invocations w →
     (∃ t, e = Tick t ∧ t ∈ timers w ∧ _currentExecutionPromise w = None) ∨
     (_status w = inactive ∧
      truthy (immediateFirstRun (_options cfg)) = true ∧
      ∃ r, runsStart w e r)) ∧
  (∀ t, e = Tick t → _currentExecutionPromise w = None →
     invocations w < invocations w' ∧ isCurrentlyExecuting w' = true) ∧
  (∀ t, e = Tick t → _currentExecutionPromise w ≠ None → w' = w).
Proof.
  intros HR Hstep. pose proof (Reachable_Inv _ _ HR) as HI.
  split; [by eapply step_invocations|]. split; [|split].
  - intros Hne. destruct e as [|flag| |t|p c| |t]; unfold step in Hstep.
    + apply (inj Some) in Hstep as <-. right.
      destruct (startRan_invocations cfg w _ _ (start_call_spec cfg w HI) Hne)
        as [Hs Ht].
      split; [done|]. split; [done|]. exists (length (promises w)). by left.
    + apply (inj Some) in Hstep as <-. destruct Hne.
      rewrite stop_call_eq. cbn [snd]. by rewrite stop_from_ctrl_invocations.
    + apply (inj Some) in Hstep as <-. destruct Hne.
      pose proof (wait_ctrl w) as Hc.
      by apply ctrl_fields in Hc as (_&_&_&_&_&_&?&_).
    + destruct (decide (t ∈ timers w)) as [Ht|]; [|done].
      apply (inj Some) in Hstep as <-. left. exists t. split; [done|]. split; [done|].
      destruct (_currentExecutionPromise w) as [p|] eqn:E; [|done].
      destruct Hne. unfold intervalCallback. by rewrite E.
    + destruct (decide (p ∈ running w)); [|done].
      apply (inj Some) in Hstep as <-. destruct Hne.
      by destruct (resume_fields cfg p c w) as (_&_&_&_&?&_).
    + destruct (queue w) as [|[f c] rest] eqn:Hq; [done|].
      apply (inj Some) in Hstep as <-.
      destruct c as [v|e'].
      * destruct f as [r|r|r].
        -- right. destruct (resume_StartLoop cfg w r v rest HI Hq) as [_ Hran].
           destruct (startRan_invocations cfg w _ _ Hran Hne) as [Hs Ht].
           split; [done|]. split; [done|]. exists r. right. split; [done|].
           by exists v, rest.
        -- destruct Hne. cbn [resume].
           match goal with |- context [settle ?r ?c ?W] =>
             pose proof (settle_ctrl r c W) as Hc end.
           by apply ctrl_fields in Hc as (_&_&_&_&_&_&->&_).
        -- destruct Hne. cbn [resume].
           match goal with |- context [settle ?r ?c ?W] =>
             pose proof (settle_ctrl r c W) as Hc end.
           by apply ctrl_fields in Hc as (_&_&_&_&_&_&->&_).
      * destruct Hne.
        assert (Hres : resume cfg (f, Throw e') (set_queue rest w)
                       = settle (resultOf f) (Throw e') (set_queue rest w))
          by by destruct f.
        rewrite Hres.
        match goal with |- context [settle ?r ?c ?W] =>
          pose proof (settle_ctrl r c W) as Hc end.
        by apply ctrl_fields in Hc as (_&_&_&_&_&_&->&_).
    + apply (inj Some) in Hstep as <-. by destruct Hne.
  - intros t -> Hn. unfold step in Hstep.
    destruct (decide (t ∈ timers w)); [|done].
    apply (inj Some) in Hstep as <-. rewrite intervalCallback_eq, Hn.
    destruct (execute_OK cfg [] w HI (Live_nil w)) as (_ & _ & _ & _ & Hinv).
    by split.
  - intros t -> Hsome. unfold step in Hstep.
    destruct (decide (t ∈ timers w)); [|done].
    apply (inj Some) in Hstep as <-. unfold intervalCallback.
    by destruct (_currentExecutionPromise w).
Qed.

Lemma where_attempts_begin_witness :
  ∃ w w', run (testConfig true None) initial
            [CallStart; TaskSettles 1 (Normal JSUndefined)] = Some w ∧
    Reachable (testConfig true None) w ∧
    step (testConfig true None) w (Tick 0) = Some w' ∧
    _currentExecutionPromise w = None ∧
    invocations w < invocations w' ∧ isCurrentlyExecuting w' = true.
Proof.
  eexists _, _. split; [vm_compute; reflexivity|].
  match goal with |- Reachable ?c ?w ∧ _ => assert (Reachable c w) as HR end.
  { apply (Reachable_run _ initial [CallStart; TaskSettles 1 (Normal JSUndefined)]);
      [apply Reachable_initial|vm_compute; reflexivity]. }
  split; [exact HR|].
  match goal with |- ?P ∧ _ => assert P as Hstep by (vm_compute; reflexivity) end.
  split; [exact Hstep|]. split; [reflexivity|].
  exact (proj1 (proj2 (proj2 (where_attempts_begin _ _ _ _ HR Hstep))) 0
           eq_refl eq_refl).
Defined.

(** ** A tick for every cycle *)

(** X7. No cycle is skipped without need: with a task that returns its
    promise at once and an error handler that does not throw, when the
    execution handle is empty and every attempt ends before the next tick,
    every tick begins an attempt, whatever the outcomes of the attempts
    are; status, timers and the other running attempts stay as they
    are. *)
Theorem no_skipped_executions cfg t cs w :
  handlerNeverThrows cfg → Reachable cfg w →
  _currentExecutionPromise w = None → t ∈ timers w →
  _asyncTask w = TaskReturns →
  ∃ w', cycles cfg t cs w = Some w' ∧
    invocations w' = invocations w + length cs ∧
    _currentExecutionPromise w' = None ∧
    _status w' = _status w ∧ timers w' = timers w ∧ running w' = running w.
Proof.
  intros Hh HR Hn Ht Htask.
  destruct (cycles_spec cfg t cs w Hh (Reachable_Inv _ _ HR) Hn Ht Htask)
    as (w' & Hcyc & _ & G1 & G2 & G3 & G4 & G5 & _).
  by exists w'.
Qed.

Lemma no_skipped_executions_witness :
  ∃ w, run (testConfig false None) initial [CallStart] = Some w ∧
    handlerNeverThrows (testConfig false None) ∧
    Reachable (testConfig false None) w ∧
    _currentExecutionPromise w = None ∧ 0 ∈ timers w ∧
    _asyncTask w = TaskReturns ∧
    ∃ w', cycles (testConfig false None) 0
            [Normal JSUndefined; Throw taskError; Normal JSUndefined] w = Some w' ∧
      invocations w' = invocations w + 3.
Proof.
  eexists. split; [vm_compute; reflexivity|].
  assert (handlerNeverThrows (testConfig false None)) as Hh.
  { intros h e H. discriminate H. }
  match goal with |- _ ∧ Reachable ?c ?w ∧ _ => assert (Reachable c w) as HR end.
  { apply (Reachable_run _ initial [CallStart]);
      [apply Reachable_initial|vm_compute; reflexivity]. }
  match goal with |- _ ∧ _ ∧ _ ∧ ?P ∧ _ => assert P as Hin end.
  { vm_compute. apply list_elem_of_singleton. reflexivity. }
  split; [exact Hh|]. split; [exact HR|]. split; [reflexivity|].
  split; [exact Hin|]. split; [reflexivity|].
  destruct (no_skipped_executions _ 0
              [Normal JSUndefined; Throw taskError; Normal JSUndefined] _
              Hh HR eq_refl Hin eq_refl) as (w' & Hc & Hi & _).
  exists w'. split; [exact Hc|exact Hi].
Defined.

(** ** start on an inactive instance *)

(** X3. [start()] on an inactive instance does not suspend.  With a task
    that returns its promise at once: the promise of the call is fulfilled
    with [true] on return, the status is 'active', and a new timer is
    armed, behind those that may still be armed, with its handle kept.
    With [immediateFirstRun] the task has been invoked once, and the new
    attempt is pending and behind the execution handle; without it the
    task has not been invoked, and the handle and the running attempts are
    as before. *)
Theorem start_when_inactive cfg w :
  Reachable cfg w → _status w = inactive → _asyncTask w = TaskReturns →
  fst (start cfg w) = length (promises w) ∧
  stateOf (snd (start cfg w)) (length (promises w))
    = Some (Fulfilled (JSBoolean true)) ∧
  _status (snd (start cfg w)) = active ∧
  _timerHandle (snd (start cfg w)) = Some (nextTimer w) ∧
  timers (snd (start cfg w)) = timers w ++ [nextTimer w] ∧
  if truthy (immediateFirstRun (_options cfg)) then
    invocations (snd (start cfg w)) = S (invocations w) ∧
    _currentExecutionPromise (snd (start cfg w)) = Some (S (length (promises w))) ∧
    running (snd (start cfg w)) = running w ++ [S (length (promises w))] ∧
    pending (snd (start cfg w)) (S (length (promises w)))
  else
    invocations (snd (start cfg w)) = invocations w ∧
    _currentExecutionPromise (snd (start cfg w)) = _currentExecutionPromise w ∧
    running (snd (start cfg w)) = running w.
Proof.
  intros HR Hs Htask. pose proof (Reachable_Inv _ _ HR) as HI.
  assert (Hstep : step cfg w CallStart = Some (snd (start cfg w))) by done.
  pose proof (Inv_step _ _ _ _ HI Hstep) as HI'.
  pose proof (start_call_spec cfg w HI) as [_ Hran]. rewrite Hs in Hran.
  destruct Hran as (Hres & _).
  split; [done|]. split; [done|].
  assert (Hl : length (promises (snd (newPromise Pending w))) = S (length (promises w))).
  { simpl. rewrite length_app. simpl. lia. }
  revert HI'. rewrite start_call_eq. cbn [snd]. unfold start_from.
  rewrite start_from_with_inactive by done. cbv zeta.
  destruct (truthy (immediateFirstRun (_options cfg))).
  - rewrite execute_TaskReturns by done. cbn [fst snd].
    change (length (promises (set_status active (snd (newPromise Pending w)))))
      with (length (promises (snd (newPromise Pending w)))).
    rewrite Hl.
    match goal with |- context [settle ?r ?c ?W] =>
      pose proof (settle_ctrl r c W) as Hc; set (w' := settle r c W) in *
    end.
    apply ctrl_fields in Hc as (C1 & C2 & C3 & C4 & C5 & C6 & C7 & C8).
    intros HI'. rewrite C1, C2, C3, C5, C6, C7.
    split; [done|]. split; [done|]. split; [done|]. split; [done|].
    split; [done|]. split; [done|].
    apply (inv_pending _ _ HI'), running_owned. rewrite C6. simpl.
    apply elem_of_app. right. by apply list_elem_of_singleton.
  - match goal with |- context [settle ?r ?c ?W] =>
      pose proof (settle_ctrl r c W) as Hc; set (w' := settle r c W) in *
    end.
    apply ctrl_fields in Hc as (C1 & C2 & C3 & C4 & C5 & C6 & C7 & C8).
    intros _. rewrite C1, C2, C3, C5, C6, C7. done.
Qed.

Lemma start_when_inactive_witness :
  Reachable (testConfig true None) initial ∧
  stateOf (snd (start (testConfig true None) initial)) 0
    = Some (Fulfilled (JSBoolean true)) ∧
  _status (snd (start (testConfig true None) initial)) = active ∧
  timers (snd (start (testConfig true None) initial)) = [0] ∧
  running (snd (start (testConfig true None) initial)) = [1].
Proof.
  split; [apply Reachable_initial|].
  destruct (start_when_inactive (testConfig true None) initial
              (Reachable_initial _) eq_refl eq_refl)
    as (_ & Hst & Hs & _ & Ht & _ & _ & Hr & _).
  split; [exact Hst|]. split; [exact Hs|]. split; [exact Ht|exact Hr].
Defined.

(** ** Calls made after the error handler threw *)

(** X13. Once the execution handle holds a promise that is rejected (the
    error handler threw for that attempt), a [stop()] on the active
    instance toggles the status to 'terminating', and its [await] is about
    to throw; so is that of every [stop()] and [start()] made while the
    status is 'terminating'.  A call whose [await] throws ends there: its
    promise is rejected with the same value and nothing else changes, so
    the [stop()] in progress never sets the status to 'inactive'. *)
Theorem handler_throw_breaks_stop cfg w p e :
  Reachable cfg w →
  _currentExecutionPromise w = Some p → stateOf w p = Some (Rejected e) →
  (_status w = active →
     _status (snd (stop w)) = terminating ∧
     queue (snd (stop w))
       = queue w ++ [(StopActive (length (promises w)), Throw e)]) ∧
  (_status w = terminating →
     queue (snd (stop w))
       = queue w ++ [(StopTerminating (length (promises w)), Throw e)] ∧
     queue (snd (start cfg w))
       = queue w ++ [(StartLoop (length (promises w)), Throw e)]) ∧
  (∀ f e' rest, queue w = (f, Throw e') :: rest →
     ∃ w', step cfg w Microtask = Some w' ∧
       stateOf w' (resultOf f) = Some (Rejected e') ∧ ctrl w' = ctrl w ∧
       _status w' = _status w).
Proof.
  intros HR Hp Hrej. pose proof (Reachable_Inv _ _ HR) as HI.
  set (r := length (promises w)).
  set (w0 := snd (newPromise Pending w)).
  assert (Hsusp : ∀ W f, promises W = promises w0 → queue W = queue w →
            _currentExecutionPromise W = Some p →
            queue (await (fst (waitUntilCurrentExecutionCompletes W)) f
                     (snd (waitUntilCurrentExecutionCompletes W)))
            = queue w ++ [(f, Throw e)]).
  { intros W f HP HQ HH.
    assert (Hw : waitUntilCurrentExecutionCompletes W = (p, W)).
    { unfold waitUntilCurrentExecutionCompletes. by rewrite HH. }
    rewrite Hw. cbn [fst snd].
    assert (Hst : stateOf W p = Some (settledState (Throw e))).
    { rewrite (same_stateOf w0 W) by done. by apply stateOf_newPromise_Some. }
    destruct (await_settled p f W (Throw e) Hst) as [-> _]. by rewrite HQ. }
  split; [|split].
  - intros Hs.
    split; [by apply stop_active_status|]. rewrite stop_call_eq. cbn [snd].
    rewrite stop_from_active by done. cbv zeta.
    apply Hsusp.
    + change (_timerHandle (snd (newPromise Pending w))) with (_timerHandle w).
      by destruct (_timerHandle w).
    + change (_timerHandle (snd (newPromise Pending w))) with (_timerHandle w).
      by destruct (_timerHandle w).
    + change (_timerHandle (snd (newPromise Pending w))) with (_timerHandle w).
      by destruct (_timerHandle w).
  - intros Hs. split.
    + rewrite stop_call_eq. cbn [snd]. rewrite stop_from_terminating by done.
      by apply Hsusp.
    + rewrite start_call_eq. cbn [snd]. unfold start_from.
      rewrite start_from_with_terminating by done. by apply Hsusp.
  - intros f e' rest Hq. eexists. unfold step. rewrite Hq. split; [done|].
    assert (Hres : resume cfg (f, Throw e') (set_queue rest w)
                   = settle (resultOf f) (Throw e') (set_queue rest w))
      by by destruct f.
    rewrite Hres.
    pose proof (settle_ctrl (resultOf f) (Throw e') (set_queue rest w)) as Hc.
    split; [|split; [done|]].
    + apply settle_result. apply (inv_pending _ _ HI), frame_owned.
      by eapply head_frame.
    + by apply ctrl_fields in Hc as (? & _).
Qed.

Lemma handler_throw_breaks_stop_witness :
  ∃ w, run (testConfig true (Some rethrow)) initial
         [CallStart; TaskSettles 1 (Throw taskError)] = Some w ∧
    Reachable (testConfig true (Some rethrow)) w ∧
    _currentExecutionPromise w = Some 1 ∧
    stateOf w 1 = Some (Rejected taskError) ∧ _status w = active ∧
    _status (snd (stop w)) = terminating ∧
    queue (snd (stop w)) = queue w ++ [(StopActive 2, Throw taskError)].
Proof.
  eexists. split; [vm_compute; reflexivity|].
  match goal with |- Reachable ?c ?w ∧ _ => assert (Reachable c w) as HR end.
  { apply (Reachable_run _ initial [CallStart; TaskSettles 1 (Throw taskError)]);
      [apply Reachable_initial|vm_compute; reflexivity]. }
  split; [exact HR|]. split; [reflexivity|]. split; [reflexivity|].
  split; [reflexivity|].
  exact (proj1 (handler_throw_breaks_stop _ _ 1 taskError HR eq_refl eq_refl)
           eq_refl).
Defined.

(** ** The error handler *)

Lemma within_counts k w w' :
  handled w' = handled w → running w' = running w →
  invocations w' = invocations w → within k w → within k w'.
Proof. unfold within. by intros -> -> ->. Qed.

Lemma within_ctrl k w w' : ctrl w' = ctrl w → within k w → within k w'.
Proof.
  intros (_&_&_&_&_&?&?&?)%ctrl_fields. by apply within_counts.
Qed.

Lemma stop_from_counts r w :
  handled (stop_from r w) = handled w ∧ running (stop_from r w) = running w ∧
  invocations (stop_from r w) = invocations w.
Proof.
  destruct (_status w) eqn:Hs.
  - rewrite stop_from_active by done. cbv zeta.
    match goal with |- context [waitUntilCurrentExecutionCompletes ?W] =>
      pose proof (suspend_ctrl W _ _ (StopActive r) (surjective_pairing _)) as Hc
    end.
    apply ctrl_fields in Hc as (_&_&_&_&_&->&->&->).
    cbn [handled running invocations set_timerHandle].
    by destruct (clearInterval_ctrl (_timerHandle w) (set_status terminating w))
      as (_&_&->&_&_&->&->&_).
  - rewrite stop_from_inactive by done.
    pose proof (settle_ctrl r (Normal (JSBoolean false)) w) as Hc.
    by apply ctrl_fields in Hc as (_&_&_&_&_&->&->&->).
  - rewrite stop_from_terminating by done.
    pose proof (suspend_ctrl w _ _ (StopTerminating r) (surjective_pairing _)) as Hc.
    by apply ctrl_fields in Hc as (_&_&_&_&_&->&->&->).
Qed.

Lemma length_filter_le (p : nat) (l : list nat) :
  length (filter (λ p', p' ≠ p) l) ≤ length l.
Proof.
  induction l as [|a l IH]; [done|].
  destruct (decide (a ≠ p)).
  - rewrite filter_cons_True by done. simpl. lia.
  - rewrite filter_cons_False by done. simpl. lia.
Qed.

Lemma length_filter_lt (p : nat) (l : list nat) :
  p ∈ l → length (filter (λ p', p' ≠ p) l) < length l.
Proof.
  induction l as [|a l IH]; [by intros ?%elem_of_nil|].
  intros Hin. destruct (decide (a ≠ p)) as [Hne|Heq].
  - rewrite filter_cons_True by done. simpl.
    apply elem_of_cons in Hin as [->|Hin]; [done|]. apply IH in Hin. lia.
  - rewrite filter_cons_False by done. simpl.
    pose proof (length_filter_le p l). lia.
Qed.

Lemma length_reported cfg c : length (reported cfg c) ≤ 1.
Proof.
  unfold reported. destruct c; [simpl; lia|].
  destruct (_onTaskError cfg); simpl; lia.
Qed.

(** The end of an attempt whose task threw before it returned. *)
Lemma resume_within_live cfg p c k w :
  within (S k) w → within k (_executeTaskAndUpdateState_resume cfg p c w).
Proof.
  unfold within. intros H.
  destruct (resume_fields cfg p c w) as (_&_&_&_&->&->&->&_).
  rewrite length_app. pose proof (length_filter_le p (running w)).
  pose proof (length_reported cfg c). lia.
Qed.

(** The end of a running attempt. *)
Lemma resume_within_running cfg p c k w :
  p ∈ running w → within k w →
  within k (_executeTaskAndUpdateState_resume cfg p c w).
Proof.
  unfold within. intros Hp H.
  destruct (resume_fields cfg p c w) as (_&_&_&_&->&->&->&_).
  rewrite length_app. pose proof (length_filter_lt p (running w) Hp).
  pose proof (length_reported cfg c). lia.
Qed.

Lemma execute_with_within cfg task :
  (∀ k w, within k w → within k (snd (task w))) →
  ∀ k w, within k w → within k (snd (_executeTaskAndUpdateState_with cfg task w)).
Proof.
  intros HT k w H. rewrite execute_with_eq. cbv zeta.
  set (w1 := snd (newPromise Pending (set_invocations (S (invocations w)) w))).
  assert (H1 : within (S k) w1) by (unfold within in *; simpl; lia).
  apply HT in H1. destruct (fst (task w1)) as [err|]; cbn [snd].
  - by apply resume_within_live.
  - unfold within in *. simpl. rewrite length_app. simpl. lia.
Qed.

Lemma start_from_with_within cfg execute r :
  (∀ k w, within k w → within k (snd (execute w))) →
  ∀ k w, within k w → within k (start_from_with cfg execute r w).
Proof.
  intros HE k w H. destruct (_status w) eqn:Hs.
  - rewrite start_from_with_active by done. apply (within_ctrl k w); [apply settle_ctrl|done].
  - rewrite start_from_with_inactive by done. cbv zeta.
    match goal with |- context [settle ?r ?c ?W] =>
      apply (within_ctrl k W); [apply settle_ctrl|] end.
    apply (within_counts k
             (if truthy (immediateFirstRun (_options cfg))
              then set_currentExecutionPromise
                     (Some (fst (execute (set_status active w))))
                     (snd (execute (set_status active w)))
              else set_status active w)); try done.
    destruct (truthy _); [|done].
    apply (within_counts k (snd (execute (set_status active w)))); try done.
    by apply HE.
  - rewrite start_from_with_terminating by done.
    apply (within_ctrl k w); [apply suspend_ctrl, surjective_pairing|done].
Qed.

Lemma runTask_within cfg t :
  ∀ k w, within k w → within k (snd (runTask cfg t w)).
Proof.
  induction t as [|err|nested IHn rest IHr|flag rest IHr|rest IHr];
    intros k w H; cbn [runTask snd]; try done.
  - apply IHr.
    change (snd (start_with cfg (_executeTaskAndUpdateState_with cfg (runTask cfg nested)) w))
      with (start_from_with cfg (_executeTaskAndUpdateState_with cfg (runTask cfg nested))
              (length (promises w)) (snd (newPromise Pending w))).
    apply start_from_with_within; [by apply execute_with_within|done].
  - apply IHr. rewrite stop_call_eq. cbn [snd].
    destruct (stop_from_counts (length (promises w)) (snd (newPromise Pending w)))
      as (E1 & E2 & E3).
    by apply (within_counts k w).
  - apply IHr. apply (within_ctrl k w); [apply wait_ctrl|done].
Qed.

Lemma execute_within cfg k w :
  within k w → within k (snd (_executeTaskAndUpdateState cfg w)).
Proof.
  unfold _executeTaskAndUpdateState. apply execute_with_within, runTask_within.
Qed.

Lemma step_within cfg w e w' :
  step cfg w e = Some w' → within 0 w → within 0 w'.
Proof.
  intros Hstep H. destruct e as [|flag| |t|p c| |t]; unfold step in Hstep.
  - apply (inj Some) in Hstep as <-. rewrite start_call_eq. cbn [snd].
    apply start_from_with_within; [intros k' w'; apply execute_within|done].
  - apply (inj Some) in Hstep as <-. rewrite stop_call_eq. cbn [snd].
    destruct (stop_from_counts (length (promises w)) (snd (newPromise Pending w)))
      as (E1 & E2 & E3).
    by apply (within_counts 0 w).
  - apply (inj Some) in Hstep as <-. apply (within_ctrl 0 w); [apply wait_ctrl|done].
  - destruct (decide (t ∈ timers w)); [|done].
    apply (inj Some) in Hstep as <-. rewrite intervalCallback_eq.
    destruct (_currentExecutionPromise w); [done|].
    apply (within_counts 0 (snd (_executeTaskAndUpdateState cfg w))); try done.
    by apply execute_within.
  - destruct (decide (p ∈ running w)); [|done].
    apply (inj Some) in Hstep as <-. by apply resume_within_running.
  - destruct (queue w) as [|[f c] rest] eqn:Hq; [done|].
    apply (inj Some) in Hstep as <-.
    assert (H0 : within 0 (set_queue rest w)) by done.
    destruct c as [v|e'].
    + destruct f as [r|r|r]; cbn [resume].
      * apply start_from_with_within; [intros k' w'; apply execute_within|done].
      * apply (within_ctrl 0 (set_queue rest w)); [apply settle_ctrl|done].
      * apply (within_ctrl 0 (set_status inactive (set_queue rest w)));
          [apply settle_ctrl|done].
    + assert (Hres : resume cfg (f, Throw e') (set_queue rest w)
                     = settle (resultOf f) (Throw e') (set_queue rest w))
        by by destruct f.
      rewrite Hres. apply (within_ctrl 0 (set_queue rest w)); [apply settle_ctrl|done].
  - apply (inj Some) in Hstep as <-. done.
Qed.

Lemma step_nohandler cfg w e w' :
  Inv cfg w → step cfg w e = Some w' → _onTaskError cfg = None →
  handled w' = handled w.
Proof.
  intros HI Hstep Hn. pose proof (Foot_step cfg w e w' HI Hstep) as HF.
  destruct e as [|flag| |t|p c| |t];
    try (by apply (foot_nohandler _ _ _ _ HF)).
  - destruct HF as [_ ->].
    destruct (resume_fields cfg p c w) as (_&_&_&_&_&_&->&_).
    by rewrite reported_nohandler, app_nil_r.
  - destruct HF as (f & c & rest & Hq & HF).
    by rewrite (foot_nohandler _ _ _ _ HF Hn).
  - by subst.
Qed.

(** X8. In every reachable state the task has been invoked at least as
    often as there are attempts running and errors reported to the
    handler: an attempt reports at most one error, and none while it
    runs.  Without an error handler no error is recorded at all.  And the
    end of a running attempt reports the error of its task, when the task
    failed and there is a handler, and nothing otherwise. *)
Theorem error_handler_accounting cfg w :
  Reachable cfg w →
  length (handled w) + length (running w) ≤ invocations w ∧
  (_onTaskError cfg = None → handled w = []) ∧
  (∀ p c, p ∈ running w →
     ∃ w', step cfg w (TaskSettles p c) = Some w' ∧
       handled w' =
         handled w ++
         match c, _onTaskError cfg with
         | Throw err, Some _ => [err]
         | _, _ => []
         end).
Proof.
  intros HR. split; [|split].
  - assert (within 0 w) as H; [|unfold within in H; lia].
    induction HR as [|w e w' HR IH Hstep]; [unfold within; simpl; lia|].
    by eapply step_within.
  - intros Hn. induction HR as [|w e w' HR IH Hstep]; [done|].
    rewrite (step_nohandler cfg w e w' (Reachable_Inv _ _ HR) Hstep Hn). done.
  - intros p c Hp. eexists. split; [unfold step; by rewrite decide_True|].
    by destruct (resume_fields cfg p c w) as (_&_&_&_&_&_&->&_).
Qed.

Lemma error_handler_accounting_witness :
  ∃ w, run (testConfig true (Some (λ _, Returns))) initial
         [CallStart; TaskSettles 1 (Throw taskError); Tick 0] = Some w ∧
    Reachable (testConfig true (Some (λ _, Returns))) w ∧
    length (handled w) + length (running w) ≤ invocations w.
Proof.
  eexists. split; [vm_compute; reflexivity|].
  match goal with |- Reachable ?c ?w ∧ _ => assert (Reachable c w) as HR end.
  { apply (Reachable_run _ initial
             [CallStart; TaskSettles 1 (Throw taskError); Tick 0]);
      [apply Reachable_initial|vm_compute; reflexivity]. }
  split; [exact HR|].
  exact (proj1 (error_handler_accounting _ _ HR)).
Defined.

(** ** The end of the 'terminating' phase *)

Lemma running_NoDup cfg w : Inv cfg w → NoDup (running w).
Proof.
  intros HI. pose proof (inv_nodup _ _ HI) as H. unfold owned in H.
  by apply NoDup_app in H as (_ & _ & ?).
Qed.

(** The running attempts end one after the other: the calls that were
    suspended are still suspended, no attempt is left, and the status is
    as before. *)
Lemma settle_running cfg c : ∀ l w,
  running w = l → Inv cfg w →
  ∃ w1, run cfg w ((λ p, TaskSettles p c) <$> l) = Some w1 ∧ Inv cfg w1 ∧
    running w1 = [] ∧ (∀ f, f ∈ frames w → f ∈ frames w1) ∧
    _status w1 = _status w.
Proof.
  induction l as [|p l IH]; intros w Hl HI.
  - exists w. by rewrite Hl.
  - assert (Hp : p ∈ running w) by (rewrite Hl; by apply elem_of_cons; left).
    assert (Hstep : step cfg w (TaskSettles p c)
                    = Some (_executeTaskAndUpdateState_resume cfg p c w))
      by (unfold step; by rewrite decide_True).
    pose proof (Inv_step _ _ _ _ HI Hstep) as HI1.
    destruct (resume_fields cfg p c w) as (F1 & _ & _ & _ & _ & F6 & _).
    assert (Hl1 : running (_executeTaskAndUpdateState_resume cfg p c w) = l).
    { rewrite F6, Hl. rewrite filter_cons_False by (intros H; by apply H).
      apply filter_ne_id. pose proof (running_NoDup cfg w HI) as Hnd.
      rewrite Hl in Hnd. by apply NoDup_cons in Hnd as [? _]. }
    destruct (IH _ Hl1 HI1) as (w1 & Hrun & HIw1 & Hr1 & Hf1 & Hs1).
    exists w1. rewrite fmap_cons. cbn [run]. rewrite Hstep.
    split; [done|]. split; [done|]. split; [done|]. split; [|congruence].
    intros f Hf. apply Hf1.
    by destruct (step_frames cfg w _ _ f HI Hstep Hf) as [?|[[=] _]].
Qed.

(** The microtask queue is served in order: a job behind [pre] is the first
    one after as many microtasks as [pre] is long. *)
Lemma queue_advance cfg j : ∀ pre w post,
  Inv cfg w → queue w = pre ++ j :: post →
  ∃ w1 post', run cfg w (replicate (length pre) Microtask) = Some w1 ∧
    Inv cfg w1 ∧ queue w1 = j :: post'.
Proof.
  induction pre as [|[f c] pre IH]; intros w post HI Hq.
  - exists w, post. done.
  - assert (Hq' : queue w = (f, c) :: (pre ++ j :: post)) by done.
    assert (Hstep : step cfg w Microtask
                    = Some (resume cfg (f, c) (set_queue (pre ++ j :: post) w)))
      by (unfold step; by rewrite Hq').
    pose proof (Inv_step _ _ _ _ HI Hstep) as HI1.
    destruct (foot_queue _ _ _ _ (Foot_resume cfg w f c _ HI Hq')) as [js Hjs].
    change (queue (popped f (pre ++ j :: post) w)) with (pre ++ j :: post) in Hjs.
    rewrite <- app_assoc in Hjs.
    destruct (IH _ (post ++ js) HI1 Hjs) as (w1 & post' & Hrun & HIw1 & Hq1).
    exists w1, post'. cbn [length replicate run]. rewrite Hstep. done.
Qed.

Lemma idle_frames_queued cfg w f :
  Inv cfg w → running w = [] → f ∈ frames w → ∃ c, (f, c) ∈ queue w.
Proof.
  intros HI Hr [?|[q Hq]]%elem_of_frames; [done|].
  assert (q ∈ running w) as Hin.
  { apply (inv_reactions _ _ HI). intros E. rewrite E in Hq.
    by apply elem_of_nil in Hq. }
  rewrite Hr in Hin. by apply elem_of_nil in Hin.
Qed.

(** X10. The status 'terminating' does not last when the error handler
    never throws: in every reachable state with that status a [stop()] is
    in progress, and once the running attempts have ended, successfully or
    not, finitely many jobs of the microtask queue make that call set the
    status to 'inactive' and resolve [true]. *)
Theorem terminating_ends cfg w c :
  handlerNeverThrows cfg → Reachable cfg w → _status w = terminating →
  ∃ r n w', StopActive r ∈ frames w ∧
    run cfg w (((λ p, TaskSettles p c) <$> running w) ++ replicate n Microtask)
      = Some w' ∧
    _status w' = inactive ∧
    stateOf w' r = Some (Fulfilled (JSBoolean true)).
Proof.
  intros Hh HR Hs. pose proof (Reachable_Inv _ _ HR) as HI.
  assert (∃ r, StopActive r ∈ frames w) as [r Hf].
  { destruct (inv_terminating _ _ HI Hs) as [H|(q & e & Hq)].
    - by apply stopActives_pos.
    - by destruct (Inv_noRejection cfg w Hh HI) as [Hno _]; destruct (Hno q e). }
  destruct (settle_running cfg c (running w) w eq_refl HI)
    as (w1 & Hrun1 & HI1 & Hr1 & Hf1 & Hs1).
  destruct (idle_frames_queued cfg w1 _ HI1 Hr1 (Hf1 _ Hf)) as [c' Hin].
  destruct c' as [v|e'];
    [|by destruct (Inv_noRejection cfg w1 Hh HI1) as [_ Hno];
         destruct (Hno (StopActive r) e')].
  apply list_elem_of_split in Hin as (pre & post & Hq).
  destruct (queue_advance cfg _ pre w1 post HI1 Hq)
    as (w2 & post' & Hrun2 & HI2 & Hq2).
  exists r, (S (@length Job pre)). eexists. split; [done|].
  rewrite run_app, Hrun1. cbv iota beta.
  rewrite replicate_S_end, run_app, Hrun2. cbn [run].
  unfold step. rewrite Hq2. split; [done|].
  split.
  - cbn [resume].
    pose proof (settle_ctrl r (Normal (JSBoolean true))
                  (set_status inactive (set_queue post' w2))) as Hc.
    by apply ctrl_fields in Hc as (-> & _).
  - by apply (resume_settles cfg w2 (StopActive r) (Normal v) post' HI2 Hq2).
Qed.

Lemma terminating_ends_witness :
  ∃ w, run (testConfig true None) initial [CallStart; CallStop false] = Some w ∧
    handlerNeverThrows (testConfig true None) ∧
    Reachable (testConfig true None) w ∧ _status w = terminating ∧
    ∃ r n w',
      run (testConfig true None) w
        (((λ p, TaskSettles p (Throw taskError)) <$> running w) ++
         replicate n Microtask) = Some w' ∧
      _status w' = inactive ∧
      stateOf w' r = Some (Fulfilled (JSBoolean true)).
Proof.
  eexists. split; [vm_compute; reflexivity|].
  assert (handlerNeverThrows (testConfig true None)) as Hh.
  { intros h e H. discriminate H. }
  match goal with |- _ ∧ Reachable ?c ?w ∧ _ => assert (Reachable c w) as HR end.
  { apply (Reachable_run _ initial [CallStart; CallStop false]);
      [apply Reachable_initial|vm_compute; reflexivity]. }
  split; [exact Hh|]. split; [exact HR|]. split; [reflexivity|].
  destruct (terminating_ends _ _ (Throw taskError) Hh HR eq_refl)
    as (r & n & w' & _ & Hrun & Hs & Hst).
  exists r, n, w'. split; [exact Hrun|]. split; [exact Hs|exact Hst].
Defined.
